(** * Event store (Push / Filter), projection reducers and read-model queries

    A shallow embedding of
      - internal/eventstore/repository/sql/crdb.go   (module [Eventstore]),
      - the execution and session projections        (module [Projection]),
      - internal/query/execution.go and org.go       (module [Query]),
      - package initialise                           (module [Initialise]),
      - internal/repository/idpintent/intent.go      (module [Idpintent]),
      - the scopes of provider-google.component.ts   (module [Console]),
    with the statement runtime of the projection handler ([Handler]) and the
    error taxonomy ([Errors]) they rely on.

    SQL tables are lists of rows in insertion order.  A transaction works on a
    private copy of the tables which replaces the committed ones on COMMIT and
    is dropped on ROLLBACK.  Everything the storage engine decides on its own
    (driver faults, clocks, generated ids) is read from a [TxEnv]. *)

From Stdlib Require Import ZArith Ascii.
From stdpp Require Import base option list list_numbers strings pretty gmap sorting.

#[local] Set Warnings "-register-all".
Local Open Scope string_scope.
Local Open Scope list_scope.
Local Open Scope Z_scope.

(* ===================================================================== *)
(** * Names declared by the event packages (internal/repository/...) *)
(* ===================================================================== *)

Module Repository.

(** Aggregate type constants referenced by the projections:
    [exec.AggregateType], [instance.AggregateType], [session.AggregateType],
    [user.AggregateType].  Their string values are declared outside the
    files at hand; only their identity matters here. *)
Inductive AggregateType :=
| exec_AggregateType
| instance_AggregateType
| session_AggregateType
| user_AggregateType.

(** Event type constants referenced by the projections. *)
Inductive EventType :=
| exec_SetEventType
| exec_RemovedEventType
| instance_InstanceRemovedEventType
| session_AddedType
| session_UserCheckedType
| session_PasswordCheckedType
| session_IntentCheckedType
| session_WebAuthNCheckedType
| session_TOTPCheckedType
| session_TokenSetType
| session_MetadataSetType
| session_TerminateType
| user_HumanPasswordChangedType.

End Repository.

(* ===================================================================== *)
(** * Errors *)
(* ===================================================================== *)

Module Errors.

(** The kinds of typed error the code under study throws. *)
Inductive Kind := InvalidArgument | AlreadyExists | NotFound | Internal.

(** The message of a typed error: a literal, or a format string together
    with the constants handed to the [...f] variant of a constructor. *)
Inductive Message :=
| Text (s : string)
| Sprintf (format : string) (a : list Repository.EventType).

(** Go [error] values that reach the code:
    [*pq.Error] and [*pgconn.PgError] carry an SQLSTATE code, [GoError] is any
    other foreign error (json, context, connection), [CaosError] is a typed
    error built by one of the [Throw...] constructors around its parent. *)
Inductive error :=
| PqError (Code : string)
| PgError (Code : string)
| GoError (msg : string)
| CaosError (kind : Kind) (parent : option error) (ID : string) (msg : Message).

Definition ThrowInternal (parent : option error) (id message : string) : error :=
  CaosError Internal parent id (Text message).

Definition ThrowAlreadyExists (parent : option error) (id message : string) : error :=
  CaosError AlreadyExists parent id (Text message).

Definition ThrowNotFound (parent : option error) (id message : string) : error :=
  CaosError NotFound parent id (Text message).

Definition ThrowInvalidArgument (parent : option error) (id message : string) : error :=
  CaosError InvalidArgument parent id (Text message).

Definition ThrowInvalidArgumentf (parent : option error) (id format : string)
    (a : list Repository.EventType) : error :=
  CaosError InvalidArgument parent id (Sprintf format a).

(** [errors.Is(err, &CaosError{})]: holds exactly of the typed errors. *)
Definition IsCaosError (err : error) : bool :=
  match err with
  | CaosError _ _ _ _ => true
  | _ => false
  end.

Definition kind_of (err : error) : option Kind :=
  match err with
  | CaosError k _ _ _ => Some k
  | _ => None
  end.

Definition message_of (err : error) : option Message :=
  match err with
  | CaosError _ _ _ m => Some m
  | _ => None
  end.

Definition parent_of (err : error) : option error :=
  match err with
  | CaosError _ p _ _ => p
  | _ => None
  end.

End Errors.

(* ===================================================================== *)
(** * The event store: crdb.go *)
(* ===================================================================== *)

Module Eventstore.
Import Errors.

(** [eventstore.Aggregate] *)
Record Aggregate := {
  Aggregate_ID : string;
  Aggregate_Type : string;
  Aggregate_ResourceOwner : string;
  Aggregate_InstanceID : string;
  Aggregate_Version : string
}.

Inductive UniqueConstraintAction :=
| UniqueConstraintAdd
| UniqueConstraintRemove
| UniqueConstraintInstanceRemove.

(** [eventstore.UniqueConstraint] *)
Record UniqueConstraint := {
  UniqueType : string;
  UniqueField : string;
  Action : UniqueConstraintAction;
  ErrorMessage : string
}.

(** What [command.Payload()] holds when it is not nil: a value that
    [json.Marshal] serialises to [bytes], or one it rejects with [err]. *)
Inductive Payload :=
| Marshalable (bytes : string)
| Unmarshalable (err : string).

Definition json_Marshal (p : Payload) : error + string :=
  match p with
  | Marshalable bytes => inr bytes
  | Unmarshalable err => inl (GoError err)
  end.

(** [eventstore.Command]: what a caller hands to Push.  It has no sequence. *)
Record Command := {
  Command_Aggregate : Aggregate;
  Command_Creator : string;
  Command_Type : string;
  Command_Payload : option Payload;
  Command_UniqueConstraints : list UniqueConstraint
}.

(** [repository.Event], the value Push hands back for each command.
    [Data] is [None] for a nil byte slice, [ResourceOwner] is the
    [sql.NullString]. *)
Record Event := {
  ID : string;
  Seq : Z;
  PreviousAggregateSequence : Z;
  PreviousAggregateTypeSequence : Z;
  CreationDate : Z;
  Typ : string;
  Data : option string;
  EditorService : string;
  EditorUser : string;
  Version : string;
  AggregateID : string;
  AggregateType : string;
  ResourceOwner : option string;
  InstanceID : string
}.

(** A row of [eventstore.events].  The nullable columns are options;
    [crdb_internal_mvcc_timestamp] is the commit timestamp of the writing
    transaction. *)
Record EventRow := {
  event_id : string;  (* column id *)
  event_type : string;
  aggregate_type : string;
  aggregate_id : string;
  aggregate_version : string;
  creation_date : Z;
  event_data : option string;
  editor_user : string;
  editor_service : string;
  resource_owner : string;
  instance_id : string;
  event_sequence : Z;
  previous_aggregate_sequence : option Z;
  previous_aggregate_type_sequence : option Z;
  crdb_internal_mvcc_timestamp : Z
}.

(** A row of [eventstore.unique_constraints]. *)
Record UniqueRow := {
  unique_type : string;
  unique_field : string;
  unique_instance_id : string
}.

#[global] Instance UniqueRow_eq_dec : EqDecision UniqueRow.
Proof. solve_decision. Defined.

Record DB := {
  events : list EventRow;
  unique_constraints : list UniqueRow
}.

(** The request context: [authz.GetInstance(ctx).InstanceID()]. *)
Record Context := { ctx_InstanceID : string }.

Inductive Driver := LibPQ | PGX.

(** What the storage engine decides during one transaction.  Statements are
    numbered from 0 in the order the transaction issues them. *)
Record TxEnv := {
  driver : Driver;
  begin_fault : option error;
  stmt_fault : nat → option error;
  statement_timestamp : nat → Z;
  gen_random_uuid : nat → string;
  commit_fault : option error;
  commit_timestamp : Z
}.

(** The error value the driver in use builds for an SQLSTATE code. *)
Definition driver_error (env : TxEnv) (code : string) : error :=
  match driver env with
  | LibPQ => PqError code
  | PGX => PgError code
  end.

(** ** crdbInsert *)

(** [$9::TEXT] is bound to a Go string, never NULL, so the CASE of the
    sub-selects reduces to [instance_id = $9]. *)
Definition of_aggregate_type (p2 p9 : string) (r : EventRow) : bool :=
  bool_decide (aggregate_type r = p2) && bool_decide (instance_id r = p9).

Definition of_aggregate (p2 p3 p9 : string) (r : EventRow) : bool :=
  bool_decide (aggregate_type r = p2) && bool_decide (aggregate_id r = p3)
  && bool_decide (instance_id r = p9).

(** The row a scan in table order keeps under [ORDER BY event_sequence DESC
    LIMIT 1]: one of greatest [event_sequence] (the first of them). *)
Fixpoint order_by_event_sequence_desc_limit_1 (rows : list EventRow) : option EventRow :=
  match rows with
  | [] => None
  | r :: rest =>
      match order_by_event_sequence_desc_limit_1 rest with
      | Some best => if event_sequence r <? event_sequence best then Some best else Some r
      | None => Some r
      end
  end.

(** The single row of the CTE [previous_data]. *)
Record previous_data := {
  aggregate_type_sequence : option Z;
  aggregate_sequence : option Z;
  pd_resource_owner : option string
}.

Definition select_previous_data (rows : list EventRow) (p2 p3 p9 : string) : previous_data :=
  (* agg_type: SELECT MAX(event_sequence) ... always one row *)
  let agg_type := order_by_event_sequence_desc_limit_1 (filter (λ r, of_aggregate_type p2 p9 r = true) rows) in
  (* agg: latest event of the aggregate root, LEFT JOINed *)
  let agg := order_by_event_sequence_desc_limit_1 (filter (λ r, of_aggregate p2 p3 p9 r = true) rows) in
  {| aggregate_type_sequence := event_sequence <$> agg_type;
     aggregate_sequence := event_sequence <$> agg;
     pd_resource_owner := resource_owner <$> agg |}.

Definition COALESCE {A} (x : option A) (d : A) : A := default d x.

(** Largest value of the BIGINT column [event_sequence]. *)
Definition max_int64 : Z := 2 ^ 63 - 1.

(** The nine bind parameters of [crdbInsert]. *)
Record InsertArgs := {
  p1_event_type : string;
  p2_aggregate_type : string;
  p3_aggregate_id : string;
  p4_aggregate_version : string;
  p5_event_data : option string;
  p6_editor_user : string;
  p7_editor_service : string;
  p8_resource_owner : string;
  p9_instance_id : string
}.

(** [tx.QueryRowContext(ctx, crdbInsert, ...)] as statement number [n] of the
    transaction, on the events visible to it: the inserted (and RETURNed) row,
    or the driver's error.  Incrementing past the BIGINT range is SQLSTATE
    22003. *)
Definition crdbInsert (env : TxEnv) (n : nat) (rows : list EventRow) (a : InsertArgs)
    : error + EventRow :=
  match stmt_fault env n with
  | Some err => inl err
  | None =>
      let pd := select_previous_data rows (p2_aggregate_type a) (p3_aggregate_id a) (p9_instance_id a) in
      let seq := COALESCE (aggregate_sequence pd) 0 + 1 in
      if max_int64 <? seq then inl (driver_error env "22003")
      else inr {|
        event_id := gen_random_uuid env n;
        event_type := p1_event_type a;
        aggregate_type := p2_aggregate_type a;
        aggregate_id := p3_aggregate_id a;
        aggregate_version := p4_aggregate_version a;
        creation_date := statement_timestamp env n;
        event_data := p5_event_data a;
        editor_user := p6_editor_user a;
        editor_service := p7_editor_service a;
        resource_owner := COALESCE (pd_resource_owner pd) (p8_resource_owner a);
        instance_id := p9_instance_id a;
        event_sequence := seq;
        previous_aggregate_sequence := aggregate_sequence pd;
        previous_aggregate_type_sequence := aggregate_type_sequence pd;
        crdb_internal_mvcc_timestamp := commit_timestamp env |}
  end.

(** ** What Push promises about the rows it appends *)

(** The sequences of the events of one aggregate instance, in the order
    they were inserted. *)
Definition sequences_of (ty i inst : string) (rows : list EventRow) : list Z :=
  event_sequence <$> filter (λ r, of_aggregate ty i inst r = true) rows.

(** Within every aggregate instance the sequences are 1, 2, 3, ... *)
Definition gapless (rows : list EventRow) : Prop :=
  ∀ ty i inst,
    sequences_of ty i inst rows
    = seqZ 1 (Z.of_nat (length (sequences_of ty i inst rows))).

(** [row] carries the sequence that follows the events [before] of its
    aggregate instance: 1 if there is none, their maximum plus 1 otherwise. *)
Definition next_sequence (before : list EventRow) (row : EventRow) : Prop :=
  let seqs := sequences_of (aggregate_type row) (aggregate_id row) (instance_id row) before in
  (seqs = [] ∧ event_sequence row = 1) ∨
  (∃ m, m ∈ seqs ∧ (∀ s, s ∈ seqs → s ≤ m) ∧ event_sequence row = m + 1).


(** [prev] is a latest event of the aggregate instance among [before]. *)
Definition latest_of (ty i inst : string) (before : list EventRow) (prev : EventRow) : Prop :=
  prev ∈ before ∧ of_aggregate ty i inst prev = true ∧
  ∀ r, r ∈ before → of_aggregate ty i inst r = true → event_sequence r ≤ event_sequence prev.

(** The resource owner of [row] is that of a latest event of its aggregate
    instance, or the [declared] one if the instance has no event yet. *)
Definition inherits_resource_owner (before : list EventRow) (declared : string)
    (row : EventRow) : Prop :=
  let ty := aggregate_type row in
  let i := aggregate_id row in
  let inst := instance_id row in
  (∃ prev, latest_of ty i inst before prev ∧ resource_owner row = resource_owner prev) ∨
  ((∀ r, r ∈ before → of_aggregate ty i inst r = false) ∧ resource_owner row = declared).

(** ** The unique constraint statements *)

(** Modelled from the spec: the table definition of
    [eventstore.unique_constraints] is not among the files at hand; the spec
    keys it by (instanceID, uniqueType, uniqueField) and has the storage-level
    uniqueness index reject a second live row (SQLSTATE 23505). *)
Definition uniqueInsert (env : TxEnv) (n : nat) (tbl : list UniqueRow) (p1 p2 p3 : string)
    : error + list UniqueRow :=
  match stmt_fault env n with
  | Some err => inl err
  | None =>
      let row := {| unique_type := p1; unique_field := p2; unique_instance_id := p3 |} in
      if bool_decide (row ∈@{list UniqueRow} tbl) then inl (driver_error env "23505")
      else inr (tbl ++ [row])
  end.

Definition uniqueDelete (env : TxEnv) (n : nat) (tbl : list UniqueRow) (p1 p2 p3 : string)
    : error + list UniqueRow :=
  match stmt_fault env n with
  | Some err => inl err
  | None =>
      inr (filter (λ r, ¬ (unique_type r = p1 ∧ unique_field r = p2 ∧ unique_instance_id r = p3)) tbl)
  end.

Definition uniqueDeleteInstance (env : TxEnv) (n : nat) (tbl : list UniqueRow) (p1 : string)
    : error + list UniqueRow :=
  match stmt_fault env n with
  | Some err => inl err
  | None => inr (filter (λ r, unique_instance_id r ≠ p1) tbl)
  end.

(** [isUniqueViolationError] *)
Definition isUniqueViolationError (err : error) : bool :=
  match err with
  | PqError code => bool_decide (code = "23505")
  | PgError code => bool_decide (code = "23505")
  | _ => false
  end.

(** ** Push *)

Section Push.

(** [strings.ToLower] of the Go library. *)
Variable ToLower : string → string.

(** The body of the loop of [handleUniqueConstraints], issued as statement
    number [n] of the transaction. *)
Definition handleUniqueConstraint (ctx : Context) (env : TxEnv) (n : nat)
    (tbl : list UniqueRow) (uniqueConstraint : UniqueConstraint) : error + list UniqueRow :=
  let uniqueField := ToLower (UniqueField uniqueConstraint) in
  match Action uniqueConstraint with
  | UniqueConstraintAdd =>
      match uniqueInsert env n tbl (UniqueType uniqueConstraint) uniqueField (ctx_InstanceID ctx) with
      | inl err =>
          if isUniqueViolationError err
          then inl (ThrowAlreadyExists (Some err) "SQL-M0dsf" (ErrorMessage uniqueConstraint))
          else inl (ThrowInternal (Some err) "SQL-dM9ds" "unable to create unique constraint")
      | inr tbl' => inr tbl'
      end
  | UniqueConstraintRemove =>
      match uniqueDelete env n tbl (UniqueType uniqueConstraint) uniqueField (ctx_InstanceID ctx) with
      | inl err => inl (ThrowInternal (Some err) "SQL-6n88i" "unable to remove unique constraint")
      | inr tbl' => inr tbl'
      end
  | UniqueConstraintInstanceRemove =>
      match uniqueDeleteInstance env n tbl (ctx_InstanceID ctx) with
      | inl err => inl (ThrowInternal (Some err) "SQL-6n88i" "unable to remove unique constraints of instance")
      | inr tbl' => inr tbl'
      end
  end.

Fixpoint handleUniqueConstraints_range (ctx : Context) (env : TxEnv) (n : nat)
    (tbl : list UniqueRow) (uniqueConstraints : list UniqueConstraint) : error + list UniqueRow :=
  match uniqueConstraints with
  | [] => inr tbl
  | uniqueConstraint :: rest =>
      match handleUniqueConstraint ctx env n tbl uniqueConstraint with
      | inl err => inl err
      | inr tbl' => handleUniqueConstraints_range ctx env (S n) tbl' rest
      end
  end.

(** [handleUniqueConstraints].  The constraints of a command are non-nil
    pointers, so of the guard [len == 0 || (len == 1 && [0] == nil)] the first
    disjunct is the one that can hold. *)
Definition handleUniqueConstraints (ctx : Context) (env : TxEnv) (n : nat)
    (tbl : list UniqueRow) (uniqueConstraints : list UniqueConstraint) : error + list UniqueRow :=
  match uniqueConstraints with
  | [] => inr tbl
  | _ => handleUniqueConstraints_range ctx env n tbl uniqueConstraints
  end.

(** [command.Aggregate().InstanceID] after the first statement of the loop. *)
Definition resolveInstanceID (ctx : Context) (command : Command) : string :=
  if bool_decide (Aggregate_InstanceID (Command_Aggregate command) = EmptyString)
  then ctx_InstanceID ctx
  else Aggregate_InstanceID (Command_Aggregate command).

(** [data]: nil for a nil payload, else its JSON. *)
Definition marshalPayload (command : Command) : error + option string :=
  match Command_Payload command with
  | None => inr None
  | Some payload =>
      match json_Marshal payload with
      | inl err => inl err
      | inr bytes => inr (Some bytes)
      end
  end.

(** [sql.NullString] built from a string: valid unless the string is empty. *)
Definition NullString (s : string) : option string :=
  if bool_decide (s = EmptyString) then None else Some s.

(** The event [e] built from a command before the insert. *)
Definition newEvent (ctx : Context) (command : Command) (data : option string) : Event :=
  {| ID := EmptyString;
     Seq := 0;
     PreviousAggregateSequence := 0;
     PreviousAggregateTypeSequence := 0;
     CreationDate := 0;
     Typ := Command_Type command;
     Data := data;
     EditorService := "eventstore.v2";
     EditorUser := Command_Creator command;
     Version := Aggregate_Version (Command_Aggregate command);
     AggregateID := Aggregate_ID (Command_Aggregate command);
     AggregateType := Aggregate_Type (Command_Aggregate command);
     ResourceOwner := NullString (Aggregate_ResourceOwner (Command_Aggregate command));
     InstanceID := resolveInstanceID ctx command |}.

(** The bind parameters Push passes for [e]; [e.Aggregate().ResourceOwner] is
    the string of the NullString. *)
Definition insertArgs (e : Event) (data : option string) : InsertArgs :=
  {| p1_event_type := Typ e;
     p2_aggregate_type := AggregateType e;
     p3_aggregate_id := AggregateID e;
     p4_aggregate_version := Version e;
     p5_event_data := data;
     p6_editor_user := EditorUser e;
     p7_editor_service := "zitadel";
     p8_resource_owner := default EmptyString (ResourceOwner e);
     p9_instance_id := InstanceID e |}.

(** The nullable [Sequence] type the two previous sequences are scanned
    through: NULL reads as 0, a BIGINT is converted to the unsigned 64-bit
    integer. *)
Definition Sequence_Scan (value : option Z) : Z :=
  match value with
  | None => 0
  | Some v => v mod 2 ^ 64
  end.

(** [Scan] of the RETURNING columns into [e]. *)
Definition scanReturning (e : Event) (row : EventRow) : Event :=
  {| ID := event_id row;
     Seq := event_sequence row;
     PreviousAggregateSequence := Sequence_Scan (previous_aggregate_sequence row);
     PreviousAggregateTypeSequence := Sequence_Scan (previous_aggregate_type_sequence row);
     CreationDate := creation_date row;
     Typ := Typ e;
     Data := Data e;
     EditorService := EditorService e;
     EditorUser := EditorUser e;
     Version := Version e;
     AggregateID := AggregateID e;
     AggregateType := AggregateType e;
     ResourceOwner := Some (resource_owner row);
     InstanceID := instance_id row |}.

(** One iteration of the loop over the commands: command number [i] is
    statement number [i] of the transaction.  [Scan] fails on a negative
    [event_sequence], [e.Seq] being unsigned; the error takes the path of a
    failed insert. *)
Definition pushCommand (ctx : Context) (env : TxEnv) (i : nat) (rows : list EventRow)
    (command : Command) : error + (Event * EventRow) :=
  match marshalPayload command with
  | inl err => inl err
  | inr data =>
      let e := newEvent ctx command data in
      match crdbInsert env i rows (insertArgs e data) with
      | inl err => inl (ThrowInternal (Some err) "SQL-SBP37" "unable to create event")
      | inr row =>
          if event_sequence row <? 0
          then inl (ThrowInternal (Some (GoError "sql: Scan error on column event_sequence"))
                      "SQL-SBP37" "unable to create event")
          else inr (scanReturning e row, row)
      end
  end.

(** The loop over the commands from index [i] on.  It yields the slots of
    [events] it assigned (nil for the command that failed and those after
    it), the collected unique constraints, the events table as the
    transaction sees it, and the error it returned with, if any. *)
Fixpoint pushCommands (ctx : Context) (env : TxEnv) (i : nat) (rows : list EventRow)
    (commands : list Command)
    : list (option Event) * list UniqueConstraint * list EventRow * option error :=
  match commands with
  | [] => ([], [], rows, None)
  | command :: rest =>
      match pushCommand ctx env i rows command with
      | inl err => (replicate (length commands) None, [], rows, Some err)
      | inr (e, row) =>
          let '(events, uniqueConstraints, rows', err) :=
            pushCommands ctx env (S i) (rows ++ [row]) rest in
          (Some e :: events, Command_UniqueConstraints command ++ uniqueConstraints, rows', err)
      end
  end.

(** The function Push runs inside the transaction. *)
Definition pushTx (ctx : Context) (env : TxEnv) (db : DB) (commands : list Command)
    : list (option Event) * (error + DB) :=
  let '(events, uniqueConstraints, rows, err) := pushCommands ctx env 0 (events db) commands in
  match err with
  | Some err => (events, inl err)
  | None =>
      match handleUniqueConstraints ctx env (length commands) (unique_constraints db) uniqueConstraints with
      | inl err => (events, inl err)
      | inr tbl => (events, inr {| events := rows; unique_constraints := tbl |})
      end
  end.

(** [Push].  [crdb.ExecuteTx] (cockroach-go) is BEGIN, the function, then
    COMMIT if it returned nil and ROLLBACK with its error otherwise; one
    attempt of the transaction is modelled.  The result is the [events]
    slice, the error and the store afterwards. *)
Definition Push (ctx : Context) (env : TxEnv) (db : DB) (commands : list Command)
    : list (option Event) * option error * DB :=
  let '(events, err, db') :=
    match begin_fault env with
    | Some err => (replicate (length commands) None, Some err, db)
    | None =>
        match pushTx ctx env db commands with
        | (events, inl err) => (events, Some err, db)
        | (events, inr db') =>
            match commit_fault env with
            | Some err => (events, Some err, db)
            | None => (events, None, db')
            end
        end
    end in
  let err :=
    match err with
    | Some err =>
        if IsCaosError err then Some err
        else Some (ThrowInternal (Some err) "SQL-DjgtG" "unable to store events")
    | None => None
    end in
  (events, err, db').

(** ** What Push promises about a batch *)




(** The statements of a batch: one insert per command, then one statement
    per unique constraint. *)
Definition statements (commands : list Command) : nat :=
  (length commands + length (commands ≫= Command_UniqueConstraints))%nat.

Definition a_statement_fails (env : TxEnv) (commands : list Command) : Prop :=
  ∃ k, (k < statements commands)%nat ∧ is_Some (stmt_fault env k).

Definition is_Add (uc : UniqueConstraint) : bool :=
  match Action uc with
  | UniqueConstraintAdd => true
  | _ => false
  end.

(** The storage statement [handleUniqueConstraints] issues for a constraint. *)
Definition constraintStatement (ctx : Context) (env : TxEnv) (n : nat)
    (tbl : list UniqueRow) (uc : UniqueConstraint) : error + list UniqueRow :=
  match Action uc with
  | UniqueConstraintAdd =>
      uniqueInsert env n tbl (UniqueType uc) (ToLower (UniqueField uc)) (ctx_InstanceID ctx)
  | UniqueConstraintRemove =>
      uniqueDelete env n tbl (UniqueType uc) (ToLower (UniqueField uc)) (ctx_InstanceID ctx)
  | UniqueConstraintInstanceRemove =>
      uniqueDeleteInstance env n tbl (ctx_InstanceID ctx)
  end.

(** The error [handleUniqueConstraints] makes of the storage error [d] of
    the statement of [uc]. *)
Definition constraint_error (uc : UniqueConstraint) (d : error) : error :=
  if is_Add uc && isUniqueViolationError d
  then ThrowAlreadyExists (Some d) "SQL-M0dsf" (ErrorMessage uc)
  else
    match Action uc with
    | UniqueConstraintAdd => ThrowInternal (Some d) "SQL-dM9ds" "unable to create unique constraint"
    | UniqueConstraintRemove => ThrowInternal (Some d) "SQL-6n88i" "unable to remove unique constraint"
    | UniqueConstraintInstanceRemove =>
        ThrowInternal (Some d) "SQL-6n88i" "unable to remove unique constraints of instance"
    end.

(** The row an Add constraint stands for. *)
Definition lowercased_row (ctx : Context) (uc : UniqueConstraint) : UniqueRow :=
  {| unique_type := UniqueType uc;
     unique_field := ToLower (UniqueField uc);
     unique_instance_id := ctx_InstanceID ctx |}.



(** The stores Push can build, starting from the empty one. *)
Inductive pushed : DB → Prop :=
| pushed_empty : pushed {| events := []; unique_constraints := [] |}
| pushed_Push ctx env db commands :
    pushed db → pushed (Push ctx env db commands).2.

End Push.

(** ** Filter *)

Definition orderByEventSequence (desc : bool) : string :=
  if desc then " ORDER BY crdb_internal_mvcc_timestamp DESC, event_sequence DESC"
  else " ORDER BY crdb_internal_mvcc_timestamp, event_sequence".

(** *** What the storage engine does with an ORDER BY clause *)

Inductive Direction := ASC | DESC.

Fixpoint strip_prefix (p s : string) : option string :=
  match p, s with
  | EmptyString, _ => Some s
  | String a p', String b s' => if bool_decide (a = b) then strip_prefix p' s' else None
  | String _ _, EmptyString => None
  end.

(** Splitting at each [", "]. *)
Fixpoint split_terms (cur s : string) : list string :=
  match s with
  | EmptyString => [cur]
  | String ","%char (String " "%char rest) => cur :: split_terms EmptyString rest
  | String c rest => split_terms (cur +:+ String c EmptyString) rest
  end.

Definition parse_order_term (t : string) : string * Direction :=
  let n := String.length t in
  if bool_decide (String.substring (n - 5)%nat 5 t = " DESC")
  then (String.substring 0 (n - 5)%nat t, DESC)
  else (t, ASC).

Definition parse_order_by (clause : string) : option (list (string * Direction)) :=
  match strip_prefix " ORDER BY " clause with
  | Some terms => Some (parse_order_term <$> split_terms EmptyString terms)
  | None => None
  end.

(** The columns of [eventstore.events] a clause of [orderByEventSequence]
    can name. *)
Definition sort_column (name : string) : option (EventRow → Z) :=
  if bool_decide (name = "crdb_internal_mvcc_timestamp") then Some crdb_internal_mvcc_timestamp
  else if bool_decide (name = "event_sequence") then Some event_sequence
  else None.

Fixpoint resolve_order_by (terms : list (string * Direction))
    : option (list ((EventRow → Z) * Direction)) :=
  match terms with
  | [] => Some []
  | (name, d) :: rest =>
      match sort_column name, resolve_order_by rest with
      | Some f, Some keys => Some ((f, d) :: keys)
      | _, _ => None
      end
  end.

(** [a] may stand before [b] under the sort keys, compared left to right. *)
Fixpoint order_le (keys : list ((EventRow → Z) * Direction)) (a b : EventRow) : bool :=
  match keys with
  | [] => true
  | (f, d) :: rest =>
      let '(x, y) := match d with ASC => (f a, f b) | DESC => (f b, f a) end in
      if x <? y then true
      else if y <? x then false
      else order_le rest a b
  end.

Definition order_by (keys : list ((EventRow → Z) * Direction)) (rows : list EventRow)
    : list EventRow :=
  merge_sort (λ a b : EventRow, order_le keys a b) rows.

(** [eventstore.SearchQueryBuilder], as far as [Filter] looks at it: the
    ordering flag, the limit (0 for none) and the WHERE condition its filters
    stand for. *)
Record SearchQueryBuilder := {
  Desc : bool;
  Limit : nat;
  Where : EventRow → bool
}.

(** Modelled from the spec: the shared helper [query] of the package is not
    among the files at hand.  For [Filter] it runs [eventQuery], the WHERE
    condition of the filters, the clause of [orderByEventSequence] and the
    limit; [fault] is the error the storage engine answers with, if any. *)
Definition query (fault : option error) (searchQuery : SearchQueryBuilder)
    (rows : list EventRow) : error + list EventRow :=
  match fault with
  | Some err => inl err
  | None =>
      match parse_order_by (orderByEventSequence (Desc searchQuery)) ≫= resolve_order_by with
      | None => inl (GoError "syntax error in ORDER BY")
      | Some keys =>
          let selected := order_by keys (filter (λ r, Where searchQuery r = true) rows) in
          inr (match Limit searchQuery with
               | O => selected
               | limit => take limit selected
               end)
      end
  end.

(** The event scanned from a row of [eventQuery]: the creation date is
    [hlc_to_timestamp(crdb_internal_mvcc_timestamp)], the commit timestamp
    read as a wall-clock time; the [id] column is not selected. *)
Definition scanEvent (row : EventRow) : Event :=
  {| ID := EmptyString;
     Seq := event_sequence row;
     PreviousAggregateSequence := Sequence_Scan (previous_aggregate_sequence row);
     PreviousAggregateTypeSequence := Sequence_Scan (previous_aggregate_type_sequence row);
     CreationDate := crdb_internal_mvcc_timestamp row;
     Typ := event_type row;
     Data := event_data row;
     EditorService := editor_service row;
     EditorUser := editor_user row;
     Version := aggregate_version row;
     AggregateID := aggregate_id row;
     AggregateType := aggregate_type row;
     ResourceOwner := Some (resource_owner row);
     InstanceID := instance_id row |}.

(** [Filter] *)
Definition Filter (fault : option error) (searchQuery : SearchQueryBuilder)
    (rows : list EventRow) : error + list Event :=
  match query fault searchQuery rows with
  | inl err => inl err
  | inr selected => inr (scanEvent <$> selected)
  end.

(** ** What Filter promises about the order of its result *)

(** Commit order of two events of a result: commit timestamp first, then
    sequence. *)
Definition commit_order (a b : Event) : Prop :=
  CreationDate a < CreationDate b ∨ (CreationDate a = CreationDate b ∧ Seq a ≤ Seq b).

Definition sequence_order (a b : Event) : Prop := Seq a ≤ Seq b.

(** The ordering flag read as "replay": ascending is asked for by leaving
    [Desc] unset. *)
Definition replay (searchQuery : SearchQueryBuilder) : bool := negb (Desc searchQuery).

(** The sort keys the clause of [orderByEventSequence] stands for. *)
Definition commit_keys (desc : bool) : list ((EventRow → Z) * Direction) :=
  let d := if desc then DESC else ASC in
  [(crdb_internal_mvcc_timestamp, d); (event_sequence, d)].

(** Three events of two aggregates, committed at 10, 20 and 30. *)
Definition interleaved : list EventRow :=
  let row (aggregate : string) (ts seq : Z) :=
    {| event_id := EmptyString; event_type := "added"; aggregate_type := "user";
       aggregate_id := aggregate; aggregate_version := "v1"; creation_date := ts;
       event_data := None; editor_user := EmptyString; editor_service := "zitadel";
       resource_owner := "org"; instance_id := "i1"; event_sequence := seq;
       previous_aggregate_sequence := None; previous_aggregate_type_sequence := None;
       crdb_internal_mvcc_timestamp := ts |} in
  [row "u1" 10 1; row "u1" 20 2; row "u2" 30 1].

End Eventstore.

(* ===================================================================== *)
(** * The statement runtime of the projection handler *)
(* ===================================================================== *)

Module Handler.
Import Errors.

(** The part of an [eventstore.Event] every concrete event gives access to:
    [Aggregate()], [CreationDate()] and [Sequence()]. *)
Record BaseEvent := {
  Aggregate : Eventstore.Aggregate;
  CreationDate : Z;
  Sequence : Z
}.

(** [domain.SessionState]; the projection writes [SessionStateActive] only. *)
Inductive SessionState := SessionStateActive.

(** SQL values of the projection tables. *)
Inductive Value :=
| VNull
| VText (s : string)
| VTimestamp (t : Z)
| VInt64 (n : Z)
| VBool (b : bool)
| VEnum (s : SessionState)
| VTextArray (l : list string)
| VJSONB (m : gmap string string).

#[global] Instance SessionState_eq_dec : EqDecision SessionState.
Proof. solve_decision. Defined.

#[global] Instance Value_eq_dec : EqDecision Value.
Proof. solve_decision. Defined.

(** A row of a projection table: column name to value. *)
Abbreviation Row := (gmap string Value).

(** The value of a column of a statement: plain, or wrapped by
    [handler.OnlySetValueOnInsert(table, value)]. *)
Inductive ColumnValue :=
| Plain (v : Value)
| OnlySetValueOnInsert (table : string) (v : Value).

Coercion Plain : Value >-> ColumnValue.

Record Column := {
  Column_Name : string;
  Column_Value : ColumnValue
}.

Definition NewCol (name : string) (value : ColumnValue) : Column :=
  {| Column_Name := name; Column_Value := value |}.

Inductive Condition :=
| NewCond (name : string) (value : Value)
| NewLessThanCond (name : string) (value : Value).

(** The table mutation a statement stands for. *)
Inductive Mutation :=
| Create (values : list Column)
| Upsert (conflictCols values : list Column)
| Update (values : list Column) (conditions : list Condition)
| Delete (conditions : list Condition).

(** [handler.Statement]: the event it was reduced from and what to execute. *)
Record Statement := {
  Statement_Event : BaseEvent;
  Execute : Mutation
}.

Definition NewCreateStatement (e : BaseEvent) (values : list Column) : Statement :=
  {| Statement_Event := e; Execute := Create values |}.

Definition NewUpsertStatement (e : BaseEvent) (conflictCols values : list Column) : Statement :=
  {| Statement_Event := e; Execute := Upsert conflictCols values |}.

Definition NewUpdateStatement (e : BaseEvent) (values : list Column)
    (conditions : list Condition) : Statement :=
  {| Statement_Event := e; Execute := Update values conditions |}.

Definition NewDeleteStatement (e : BaseEvent) (conditions : list Condition) : Statement :=
  {| Statement_Event := e; Execute := Delete conditions |}.

(** [handler.NewTable(columns, handler.NewPrimaryKey(...))], as far as the
    statements depend on it. *)
Record Table := {
  Table_Columns : list string;
  PrimaryKey : list string
}.

Definition value_of (c : Column) : Value :=
  match Column_Value c with
  | Plain v => v
  | OnlySetValueOnInsert _ v => v
  end.

Definition only_on_insert (c : Column) : bool :=
  match Column_Value c with
  | Plain _ => false
  | OnlySetValueOnInsert _ _ => true
  end.

(** [SET (c1, ..) = (v1, ..)] on one row. *)
Definition set_columns (values : list Column) (row : Row) : Row :=
  foldr (λ c r, <[Column_Name c := value_of c]> r) row values.

(** SQL comparison of a stored value with a bind parameter: NULL on either
    side makes the comparison unknown, which selects nothing. *)
Definition sql_eq (x v : Value) : bool :=
  match x, v with
  | VNull, _ | _, VNull => false
  | _, _ => bool_decide (x = v)
  end.

Definition sql_lt (x v : Value) : bool :=
  match x, v with
  | VTimestamp a, VTimestamp b => a <? b
  | VInt64 a, VInt64 b => a <? b
  | VText a, VText b => String.ltb a b
  | _, _ => false
  end.

Definition holds (row : Row) (cond : Condition) : bool :=
  match cond with
  | NewCond name v => sql_eq (default VNull (row !! name)) v
  | NewLessThanCond name v => sql_lt (default VNull (row !! name)) v
  end.

Definition matches (conditions : list Condition) (row : Row) : bool :=
  forallb (holds row) conditions.

(** Two rows agree on the columns of a key. *)
Definition same_key (key : list string) (a b : Row) : bool :=
  bool_decide ((λ c, a !! c) <$> key = (λ c, b !! c) <$> key).

(** The columns an upsert assigns to a row that is already there: all but
    the conflict target and the columns marked set-only-on-insert. *)
Definition update_columns (key : list string) (values : list Column) : list Column :=
  filter (λ c, (Column_Name c ∉ key) ∧ (only_on_insert c = false)) values.

(** Modelled from the spec: the execution of statements belongs to the
    handler package, which is not among the files at hand.  Following the
    spec (4.3):
    - Create inserts, and is a no-op when a row with the same primary key is
      already there (replay of an applied event);
    - Upsert is insert-or-update by the conflict columns, the columns marked
      set-only-on-insert keeping their stored value on update;
    - Update assigns the columns on every row its condition set selects, zero
      rows being tolerated;
    - Delete removes the rows its condition set selects, zero rows being
      tolerated. *)
Definition exec (tbl : Table) (m : Mutation) (rows : list Row) : list Row :=
  match m with
  | Create values =>
      let new := set_columns values ∅ in
      if existsb (same_key (PrimaryKey tbl) new) rows then rows else rows ++ [new]
  | Upsert conflictCols values =>
      let key := Column_Name <$> conflictCols in
      let new := set_columns values ∅ in
      if existsb (same_key key new) rows
      then (λ r, if same_key key new r then set_columns (update_columns key values) r else r) <$> rows
      else rows ++ [new]
  | Update values conditions =>
      (λ r, if matches conditions r then set_columns values r else r) <$> rows
  | Delete conditions =>
      filter (λ r, matches conditions r = false) rows
  end.

(** A statement the storage engine accepts: an upsert names each column
    once. *)
Definition well_formed (m : Mutation) : Prop :=
  match m with
  | Upsert _ values => NoDup (Column_Name <$> values)
  | _ => True
  end.

(** Executing the statement a second time changes nothing. *)
Definition idempotent (tbl : Table) (statement : Statement) : Prop :=
  ∀ rows, exec tbl (Execute statement) (exec tbl (Execute statement) rows)
          = exec tbl (Execute statement) rows.

(** Column [col] is among [values], and marked set-only-on-insert. *)
Definition marked_only_on_insert (col : string) (values : list Column) : Prop :=
  ∃ c, c ∈ values ∧ Column_Name c = col ∧
    ∀ c', c' ∈ values → Column_Name c' = col → only_on_insert c' = true.

(** Executing the statement leaves column [col] of every row that is
    already in the table as it is. *)
Definition keeps_column (col : string) (tbl : Table) (statement : Statement) : Prop :=
  ∀ rows i (row : Row), rows !! i = Some row →
    ∃ row' : Row, exec tbl (Execute statement) rows !! i = Some row' ∧ row' !! col = row !! col.

End Handler.

(* ===================================================================== *)
(** * The execution and session projections *)
(* ===================================================================== *)

Module Projection.
Import Errors Repository Handler.
Export Eventstore(Aggregate_ID, Aggregate_Type, Aggregate_ResourceOwner,
                  Aggregate_InstanceID, Aggregate_Version).

(** The concrete event types a reducer may be handed.  [OtherEvent] stands
    for every implementation of [eventstore.Event] not listed. *)
Inductive Event :=
| exec_SetEvent (e : BaseEvent) (Targets Includes : list string)
| exec_RemovedEvent (e : BaseEvent)
| instance_InstanceRemovedEvent (e : BaseEvent)
| session_AddedEvent (e : BaseEvent) (User : string)
| session_UserCheckedEvent (e : BaseEvent) (UserID : string) (CheckedAt : Z)
| session_PasswordCheckedEvent (e : BaseEvent) (CheckedAt : Z)
| session_IntentCheckedEvent (e : BaseEvent) (CheckedAt : Z)
| session_WebAuthNCheckedEvent (e : BaseEvent) (CheckedAt : Z) (UserVerified : bool)
| session_TOTPCheckedEvent (e : BaseEvent) (CheckedAt : Z)
| session_TokenSetEvent (e : BaseEvent) (TokenID : string)
| session_MetadataSetEvent (e : BaseEvent) (Metadata : gmap string string)
| session_TerminateEvent (e : BaseEvent)
| user_HumanPasswordChangedEvent (e : BaseEvent)
| OtherEvent (e : BaseEvent).

(** The dynamic type a type assertion looks at. *)
Inductive RuntimeType :=
| T_exec_SetEvent
| T_exec_RemovedEvent
| T_instance_InstanceRemovedEvent
| T_session_AddedEvent
| T_session_UserCheckedEvent
| T_session_PasswordCheckedEvent
| T_session_IntentCheckedEvent
| T_session_WebAuthNCheckedEvent
| T_session_TOTPCheckedEvent
| T_session_TokenSetEvent
| T_session_MetadataSetEvent
| T_session_TerminateEvent
| T_user_HumanPasswordChangedEvent
| T_other.

#[global] Instance RuntimeType_eq_dec : EqDecision RuntimeType.
Proof. solve_decision. Defined.

Definition runtime_type (event : Event) : RuntimeType :=
  match event with
  | exec_SetEvent _ _ _ => T_exec_SetEvent
  | exec_RemovedEvent _ => T_exec_RemovedEvent
  | instance_InstanceRemovedEvent _ => T_instance_InstanceRemovedEvent
  | session_AddedEvent _ _ => T_session_AddedEvent
  | session_UserCheckedEvent _ _ _ => T_session_UserCheckedEvent
  | session_PasswordCheckedEvent _ _ => T_session_PasswordCheckedEvent
  | session_IntentCheckedEvent _ _ => T_session_IntentCheckedEvent
  | session_WebAuthNCheckedEvent _ _ _ => T_session_WebAuthNCheckedEvent
  | session_TOTPCheckedEvent _ _ => T_session_TOTPCheckedEvent
  | session_TokenSetEvent _ _ => T_session_TokenSetEvent
  | session_MetadataSetEvent _ _ => T_session_MetadataSetEvent
  | session_TerminateEvent _ => T_session_TerminateEvent
  | user_HumanPasswordChangedEvent _ => T_user_HumanPasswordChangedEvent
  | OtherEvent _ => T_other
  end.

(** [handler.Reduce], [handler.EventReducer], [handler.AggregateReducer].
    The session projection spells the last field [EventRedusers]. *)
Definition Reduce := Event → option Statement * option error.

Record EventReducer := {
  EventReducer_Event : EventType;
  EventReducer_Reduce : Reduce
}.

Record AggregateReducer := {
  AggregateReducer_Aggregate : AggregateType;
  EventReducers : list EventReducer
}.

(** Modelled from the spec: [reduceInstanceRemovedHelper] is declared in a
    file of the package that is not at hand.  By the spec it is the reducer
    variant that deletes by instance ID alone, and like every reducer it
    reports an event of the wrong shape as an invalid argument. *)
Definition reduceInstanceRemovedHelper (instanceIDCol : string) : Reduce :=
  λ event,
  match event with
  | instance_InstanceRemovedEvent e =>
      (Some (NewDeleteStatement e [NewCond instanceIDCol (VText (Aggregate_InstanceID (Aggregate e)))]),
       None)
  | _ =>
      (None, Some (ThrowInvalidArgumentf None EmptyString "reduce.wrong.event.type %s"
                     [instance_InstanceRemovedEventType]))
  end.

(** ** executionProjection *)

Definition ExecutionTable := "projections.executions".
Definition ExecutionIDCol := "id".
Definition ExecutionCreationDateCol := "creation_date".
Definition ExecutionChangeDateCol := "change_date".
Definition ExecutionResourceOwnerCol := "resource_owner".
Definition ExecutionInstanceIDCol := "instance_id".
Definition ExecutionSequenceCol := "sequence".
Definition ExecutionTargetsCol := "targets".
Definition ExecutionIncludesCol := "includes".

Definition executionProjection_Init : Table :=
  {| Table_Columns :=
       [ExecutionIDCol; ExecutionCreationDateCol; ExecutionChangeDateCol;
        ExecutionResourceOwnerCol; ExecutionInstanceIDCol; ExecutionSequenceCol;
        ExecutionTargetsCol; ExecutionIncludesCol];
     PrimaryKey := [ExecutionInstanceIDCol; ExecutionResourceOwnerCol; ExecutionIDCol] |}.

Definition reduceExecutionSet : Reduce :=
  λ event,
  match event with
  | exec_SetEvent e Targets Includes =>
      let columns := [
        NewCol ExecutionInstanceIDCol (VText (Aggregate_InstanceID (Aggregate e)));
        NewCol ExecutionResourceOwnerCol (VText (Aggregate_ResourceOwner (Aggregate e)));
        NewCol ExecutionIDCol (VText (Aggregate_ID (Aggregate e)));
        NewCol ExecutionCreationDateCol (OnlySetValueOnInsert ExecutionTable (VTimestamp (CreationDate e)));
        NewCol ExecutionChangeDateCol (VTimestamp (CreationDate e));
        NewCol ExecutionSequenceCol (VInt64 (Sequence e));
        NewCol ExecutionTargetsCol (VTextArray Targets);
        NewCol ExecutionIncludesCol (VTextArray Includes)
      ] in
      (Some (NewUpsertStatement e (take 3 columns) columns), None)
  | _ =>
      (None, Some (ThrowInvalidArgumentf None "HANDL-jiozfjitr5" "reduce.wrong.event.type% s"
                     [exec_SetEventType]))
  end.

Definition reduceExecutionRemoved : Reduce :=
  λ event,
  match event with
  | exec_RemovedEvent e =>
      (Some (NewDeleteStatement e [
         NewCond ExecutionInstanceIDCol (VText (Aggregate_InstanceID (Aggregate e)));
         NewCond ExecutionResourceOwnerCol (VText (Aggregate_ResourceOwner (Aggregate e)));
         NewCond ExecutionIDCol (VText (Aggregate_ID (Aggregate e)))
       ]), None)
  | _ =>
      (None, Some (ThrowInvalidArgumentf None "HANDL-t51ipx55r2" "reduce.wrong.event.type %s"
                     [exec_RemovedEventType]))
  end.

Definition executionProjection_Reducers : list AggregateReducer := [
  {| AggregateReducer_Aggregate := exec_AggregateType;
     EventReducers := [
       {| EventReducer_Event := exec_SetEventType; EventReducer_Reduce := reduceExecutionSet |};
       {| EventReducer_Event := exec_RemovedEventType; EventReducer_Reduce := reduceExecutionRemoved |}
     ] |};
  {| AggregateReducer_Aggregate := instance_AggregateType;
     EventReducers := [
       {| EventReducer_Event := instance_InstanceRemovedEventType;
          EventReducer_Reduce := reduceInstanceRemovedHelper ExecutionInstanceIDCol |}
     ] |}
].

(** ** sessionProjection *)

Definition SessionsProjectionTable := "projections.sessions4".
Definition SessionColumnID := "id".
Definition SessionColumnCreationDate := "creation_date".
Definition SessionColumnChangeDate := "change_date".
Definition SessionColumnSequence := "sequence".
Definition SessionColumnState := "state".
Definition SessionColumnResourceOwner := "resource_owner".
Definition SessionColumnInstanceID := "instance_id".
Definition SessionColumnCreator := "creator".
Definition SessionColumnUserID := "user_id".
Definition SessionColumnUserCheckedAt := "user_checked_at".
Definition SessionColumnPasswordCheckedAt := "password_checked_at".
Definition SessionColumnIntentCheckedAt := "intent_checked_at".
Definition SessionColumnWebAuthNCheckedAt := "webauthn_checked_at".
Definition SessionColumnWebAuthNUserVerified := "webauthn_user_verified".
Definition SessionColumnTOTPCheckedAt := "totp_checked_at".
Definition SessionColumnMetadata := "metadata".
Definition SessionColumnTokenID := "token_id".

(** Modelled from the spec: [SMSColumnInstanceID] is declared by another
    projection of the package; it names that table's instance ID column. *)
Definition SMSColumnInstanceID := "instance_id".

Definition sessionProjection_Init : Table :=
  {| Table_Columns :=
       [SessionColumnID; SessionColumnCreationDate; SessionColumnChangeDate;
        SessionColumnSequence; SessionColumnState; SessionColumnResourceOwner;
        SessionColumnInstanceID; SessionColumnCreator; SessionColumnUserID;
        SessionColumnUserCheckedAt; SessionColumnPasswordCheckedAt;
        SessionColumnIntentCheckedAt; SessionColumnWebAuthNCheckedAt;
        SessionColumnWebAuthNUserVerified; SessionColumnTOTPCheckedAt;
        SessionColumnMetadata; SessionColumnTokenID];
     PrimaryKey := [SessionColumnInstanceID; SessionColumnID] |}.

(** The condition set every session update and delete but the last uses. *)
Definition sessionConditions (e : BaseEvent) : list Condition := [
  NewCond SessionColumnID (VText (Aggregate_ID (Aggregate e)));
  NewCond SessionColumnInstanceID (VText (Aggregate_InstanceID (Aggregate e)))
].

Definition reduceSessionAdded : Reduce :=
  λ event,
  match event with
  | session_AddedEvent e User =>
      (Some (NewCreateStatement e [
         NewCol SessionColumnID (VText (Aggregate_ID (Aggregate e)));
         NewCol SessionColumnInstanceID (VText (Aggregate_InstanceID (Aggregate e)));
         NewCol SessionColumnCreationDate (VTimestamp (CreationDate e));
         NewCol SessionColumnChangeDate (VTimestamp (CreationDate e));
         NewCol SessionColumnResourceOwner (VText (Aggregate_ResourceOwner (Aggregate e)));
         NewCol SessionColumnState (VEnum SessionStateActive);
         NewCol SessionColumnSequence (VInt64 (Sequence e));
         NewCol SessionColumnCreator (VText User)
       ]), None)
  | _ =>
      (None, Some (ThrowInvalidArgumentf None "HANDL-Sfrgf" "reduce.wrong.event.type %s"
                     [session_AddedType]))
  end.

Definition reduceUserChecked : Reduce :=
  λ event,
  match event with
  | session_UserCheckedEvent e UserID CheckedAt =>
      (Some (NewUpdateStatement e [
         NewCol SessionColumnChangeDate (VTimestamp (CreationDate e));
         NewCol SessionColumnSequence (VInt64 (Sequence e));
         NewCol SessionColumnUserID (VText UserID);
         NewCol SessionColumnUserCheckedAt (VTimestamp CheckedAt)
       ] (sessionConditions e)), None)
  | _ =>
      (None, Some (ThrowInvalidArgumentf None "HANDL-saDg5" "reduce.wrong.event.type %s"
                     [session_UserCheckedType]))
  end.

Definition reducePasswordChecked : Reduce :=
  λ event,
  match event with
  | session_PasswordCheckedEvent e CheckedAt =>
      (Some (NewUpdateStatement e [
         NewCol SessionColumnChangeDate (VTimestamp (CreationDate e));
         NewCol SessionColumnSequence (VInt64 (Sequence e));
         NewCol SessionColumnPasswordCheckedAt (VTimestamp CheckedAt)
       ] (sessionConditions e)), None)
  | _ =>
      (None, Some (ThrowInvalidArgumentf None "HANDL-SDgrb" "reduce.wrong.event.type %s"
                     [session_PasswordCheckedType]))
  end.

Definition reduceIntentChecked : Reduce :=
  λ event,
  match event with
  | session_IntentCheckedEvent e CheckedAt =>
      (Some (NewUpdateStatement e [
         NewCol SessionColumnChangeDate (VTimestamp (CreationDate e));
         NewCol SessionColumnSequence (VInt64 (Sequence e));
         NewCol SessionColumnIntentCheckedAt (VTimestamp CheckedAt)
       ] (sessionConditions e)), None)
  | _ =>
      (None, Some (ThrowInvalidArgumentf None "HANDL-SDgr2" "reduce.wrong.event.type %s"
                     [session_IntentCheckedType]))
  end.

Definition reduceWebAuthNChecked : Reduce :=
  λ event,
  match event with
  | session_WebAuthNCheckedEvent e CheckedAt UserVerified =>
      (Some (NewUpdateStatement e [
         NewCol SessionColumnChangeDate (VTimestamp (CreationDate e));
         NewCol SessionColumnSequence (VInt64 (Sequence e));
         NewCol SessionColumnWebAuthNCheckedAt (VTimestamp CheckedAt);
         NewCol SessionColumnWebAuthNUserVerified (VBool UserVerified)
       ] (sessionConditions e)), None)
  | _ =>
      (None, Some (ThrowInvalidArgumentf None "HANDL-WieM4" "reduce.wrong.event.type %s"
                     [session_WebAuthNCheckedType]))
  end.

Definition reduceTOTPChecked : Reduce :=
  λ event,
  match event with
  | session_TOTPCheckedEvent e CheckedAt =>
      (Some (NewUpdateStatement e [
         NewCol SessionColumnChangeDate (VTimestamp (CreationDate e));
         NewCol SessionColumnSequence (VInt64 (Sequence e));
         NewCol SessionColumnTOTPCheckedAt (VTimestamp CheckedAt)
       ] (sessionConditions e)), None)
  | _ =>
      (None, Some (ThrowInvalidArgumentf None "HANDL-Oqu8i" "reduce.wrong.event.type %s"
                     [session_TOTPCheckedType]))
  end.

Definition reduceTokenSet : Reduce :=
  λ event,
  match event with
  | session_TokenSetEvent e TokenID =>
      (Some (NewUpdateStatement e [
         NewCol SessionColumnChangeDate (VTimestamp (CreationDate e));
         NewCol SessionColumnSequence (VInt64 (Sequence e));
         NewCol SessionColumnTokenID (VText TokenID)
       ] (sessionConditions e)), None)
  | _ =>
      (None, Some (ThrowInvalidArgumentf None "HANDL-SAfd3" "reduce.wrong.event.type %s"
                     [session_TokenSetType]))
  end.

Definition reduceMetadataSet : Reduce :=
  λ event,
  match event with
  | session_MetadataSetEvent e Metadata =>
      (Some (NewUpdateStatement e [
         NewCol SessionColumnChangeDate (VTimestamp (CreationDate e));
         NewCol SessionColumnSequence (VInt64 (Sequence e));
         NewCol SessionColumnMetadata (VJSONB Metadata)
       ] (sessionConditions e)), None)
  | _ =>
      (None, Some (ThrowInvalidArgumentf None "HANDL-SAfd3" "reduce.wrong.event.type %s"
                     [session_MetadataSetType]))
  end.

Definition reduceSessionTerminated : Reduce :=
  λ event,
  match event with
  | session_TerminateEvent e =>
      (Some (NewDeleteStatement e (sessionConditions e)), None)
  | _ =>
      (None, Some (ThrowInvalidArgumentf None "HANDL-SAftn" "reduce.wrong.event.type %s"
                     [session_TerminateType]))
  end.

Definition reducePasswordChanged : Reduce :=
  λ event,
  match event with
  | user_HumanPasswordChangedEvent e =>
      (Some (NewUpdateStatement e [
         NewCol SessionColumnPasswordCheckedAt VNull
       ] [
         NewCond SessionColumnUserID (VText (Aggregate_ID (Aggregate e)));
         NewLessThanCond SessionColumnPasswordCheckedAt (VTimestamp (CreationDate e))
       ]), None)
  | _ =>
      (None, Some (ThrowInvalidArgumentf None "HANDL-Deg3d" "reduce.wrong.event.type %s"
                     [user_HumanPasswordChangedType]))
  end.

Definition sessionProjection_Reducers : list AggregateReducer := [
  {| AggregateReducer_Aggregate := session_AggregateType;
     EventReducers := [
       {| EventReducer_Event := session_AddedType; EventReducer_Reduce := reduceSessionAdded |};
       {| EventReducer_Event := session_UserCheckedType; EventReducer_Reduce := reduceUserChecked |};
       {| EventReducer_Event := session_PasswordCheckedType; EventReducer_Reduce := reducePasswordChecked |};
       {| EventReducer_Event := session_IntentCheckedType; EventReducer_Reduce := reduceIntentChecked |};
       {| EventReducer_Event := session_WebAuthNCheckedType; EventReducer_Reduce := reduceWebAuthNChecked |};
       {| EventReducer_Event := session_TOTPCheckedType; EventReducer_Reduce := reduceTOTPChecked |};
       {| EventReducer_Event := session_TokenSetType; EventReducer_Reduce := reduceTokenSet |};
       {| EventReducer_Event := session_MetadataSetType; EventReducer_Reduce := reduceMetadataSet |};
       {| EventReducer_Event := session_TerminateType; EventReducer_Reduce := reduceSessionTerminated |}
     ] |};
  {| AggregateReducer_Aggregate := instance_AggregateType;
     EventReducers := [
       {| EventReducer_Event := instance_InstanceRemovedEventType;
          EventReducer_Reduce := reduceInstanceRemovedHelper SMSColumnInstanceID |}
     ] |};
  {| AggregateReducer_Aggregate := user_AggregateType;
     EventReducers := [
       {| EventReducer_Event := user_HumanPasswordChangedType; EventReducer_Reduce := reducePasswordChanged |}
     ] |}
].

(** ** Reducing a batch *)

(** The reducers a projection registered, with the table they write to. *)
Record projection := {
  Name : string;
  Init : Table;
  Reducers : list AggregateReducer
}.

Definition executionProjection : projection :=
  {| Name := ExecutionTable; Init := executionProjection_Init;
     Reducers := executionProjection_Reducers |}.

Definition sessionProjection : projection :=
  {| Name := SessionsProjectionTable; Init := sessionProjection_Init;
     Reducers := sessionProjection_Reducers |}.

(** Every reducer function a projection registered. *)
Definition registered (p : projection) : list Reduce :=
  EventReducer_Reduce <$> (Reducers p ≫= EventReducers).

(** Modelled from the spec: the catch-up loop belongs to the handler
    package.  By the spec (4.3) each event of the batch is handed to the
    reducer its type is mapped to, and the first reducer error halts the
    batch: the statements reduced so far are kept, no later event is
    reduced.  [dispatch] is the mapping from an event to its reducer, none
    for an event the projection did not subscribe to, which is skipped. *)
Fixpoint reduceBatch (dispatch : Event → option Reduce) (events : list Event)
    : list Statement * option error :=
  match events with
  | [] => ([], None)
  | event :: rest =>
      match dispatch event with
      | None => reduceBatch dispatch rest
      | Some reduce =>
          match reduce event with
          | (_, Some err) => ([], Some err)
          | (None, None) => reduceBatch dispatch rest
          | (Some statement, None) =>
              let '(statements, err) := reduceBatch dispatch rest in
              (statement :: statements, err)
          end
      end
  end.

(** ** What the reducers promise *)

Definition projections : list projection := [executionProjection; sessionProjection].

(** A statement of projection [p] can be applied again, and an upsert of the
    execution projection keeps the creation date of the rows it finds. *)
Definition statements_replayable (p : projection) (statement : Statement) : Prop :=
  idempotent (Init p) statement ∧
  (p = executionProjection →
   ∀ conflictCols values, Execute statement = Upsert conflictCols values →
     marked_only_on_insert ExecutionCreationDateCol values ∧
     keeps_column ExecutionCreationDateCol (Init p) statement).

(** The reducer turns events of one runtime type into a statement; for an
    event of any other type it returns no statement and an InvalidArgument
    error, on which a batch stops with the statements reduced before. *)
Definition wrong_type_is_invalid_argument (reduce : Reduce) : Prop :=
  ∃ expected : RuntimeType, ∀ event,
    (runtime_type event = expected → ∃ statement, reduce event = (Some statement, None)) ∧
    (runtime_type event ≠ expected →
       ∃ err, reduce event = (None, Some err) ∧ kind_of err = Some InvalidArgument ∧
         ∀ dispatch pre post statements,
           dispatch event = Some reduce →
           reduceBatch dispatch pre = (statements, None) →
           reduceBatch dispatch (pre ++ event :: post) = (statements, Some err)).

(** The session row belongs to the user of the event and its password check
    is older than the event. *)
Definition password_check_outdated (e : BaseEvent) (row : Row) : bool :=
  match row !! SessionColumnUserID, row !! SessionColumnPasswordCheckedAt with
  | Some (VText user), Some (VTimestamp checked) =>
      bool_decide (user = Aggregate_ID (Aggregate e)) && (checked <? CreationDate e)
  | _, _ => false
  end.

(** The statement sets [password_checked_at] to NULL on the rows with an
    outdated password check and changes nothing else. *)
Definition clears_outdated_password_checks (e : BaseEvent) (statement : Statement) : Prop :=
  ∀ rows,
    let rows' := exec sessionProjection_Init (Execute statement) rows in
    length rows' = length rows ∧
    ∀ i (row : Row), rows !! i = Some row →
      ∃ row' : Row, rows' !! i = Some row' ∧
        if password_check_outdated e row
        then row' !! SessionColumnPasswordCheckedAt = Some VNull ∧
             ∀ col, col ≠ SessionColumnPasswordCheckedAt → row' !! col = row !! col
        else row' = row.

End Projection.

(* ===================================================================== *)
(** * The query layer: execution.go and org.go *)
(* ===================================================================== *)

Module Query.
Import Errors Handler.

Record table := {
  table_name : string;
  instanceIDCol : string
}.

Record Column := {
  name : string;
  Column_table : table
}.

Definition executionTable : table :=
  {| table_name := Projection.ExecutionTable;
     instanceIDCol := Projection.ExecutionInstanceIDCol |}.

Definition ExecutionColumnID : Column :=
  {| name := Projection.ExecutionIDCol; Column_table := executionTable |}.
Definition ExecutionColumnCreationDate : Column :=
  {| name := Projection.ExecutionCreationDateCol; Column_table := executionTable |}.
Definition ExecutionColumnChangeDate : Column :=
  {| name := Projection.ExecutionChangeDateCol; Column_table := executionTable |}.
Definition ExecutionColumnResourceOwner : Column :=
  {| name := Projection.ExecutionResourceOwnerCol; Column_table := executionTable |}.
Definition ExecutionColumnInstanceID : Column :=
  {| name := Projection.ExecutionInstanceIDCol; Column_table := executionTable |}.
Definition ExecutionColumnSequence : Column :=
  {| name := Projection.ExecutionSequenceCol; Column_table := executionTable |}.
Definition ExecutionColumnTargets : Column :=
  {| name := Projection.ExecutionTargetsCol; Column_table := executionTable |}.
Definition ExecutionColumnIncludes : Column :=
  {| name := Projection.ExecutionIncludesCol; Column_table := executionTable |}.

Record Execution := {
  ID : string;
  CreationDate : Z;
  ChangeDate : Z;
  ResourceOwner : string;
  Sequence : Z;
  Targets : list string;
  Includes : list string
}.

(** [sq.Eq]: every listed column equals its value. *)
Definition Eq := list (Column * Value).

Definition eval_Eq (eq : Eq) (row : Row) : bool :=
  forallb (λ cv : Column * Value, sql_eq (default VNull (row !! name cv.1)) cv.2) eq.

(** [SearchRequest] and [SearchQuery] are declared elsewhere in the package.
    A search query adds a condition on the row; the request adds an ordering
    (a comparison of rows, if a sorting column is set), an offset and a limit
    (0 for none). *)
Record SearchRequest := {
  Offset : nat;
  Limit : nat;
  Sorting : option (Row → Row → bool)
}.

Definition SearchQuery := Row → bool.

(** [ExecutionSearchQueries] and [OrgSearchQueries] *)
Record SearchQueries := {
  Request : SearchRequest;
  Queries : list SearchQuery
}.

(** A SELECT of the builder: the conditions added with [Where] are a
    conjunction; ordering, offset and limit come last. *)
Record SelectBuilder := {
  wheres : list (Row → bool);
  orderBy : option (Row → Row → bool);
  offset : nat;
  limit : nat
}.

Definition Select : SelectBuilder :=
  {| wheres := []; orderBy := None; offset := 0%nat; limit := 0%nat |}.

Definition addWhere (cond : Row → bool) (query : SelectBuilder) : SelectBuilder :=
  {| wheres := wheres query ++ [cond]; orderBy := orderBy query;
     offset := offset query; limit := limit query |}.

(** [(q *SearchQueries) toQuery(query)] *)
Definition toQuery (q : SearchQueries) (query : SelectBuilder) : SelectBuilder :=
  let query :=
    {| wheres := wheres query; orderBy := Sorting (Request q);
       offset := Offset (Request q); limit := Limit (Request q) |} in
  foldl (λ query sq, addWhere sq query) query (Queries q).

(** Running a SELECT on a table. *)
Definition run (query : SelectBuilder) (rows : list Row) : list Row :=
  let selected := filter (λ r, forallb (λ cond, cond r) (wheres query) = true) rows in
  let ordered :=
    match orderBy query with
    | Some le => merge_sort (λ a b : Row, le a b) selected
    | None => selected
    end in
  let skipped := drop (offset query) ordered in
  match limit query with
  | O => skipped
  | n => take n skipped
  end.

(** The context of the call: [authz.GetInstance(ctx).InstanceID()]. *)
Record Context := { ctx_InstanceID : string }.

(** The rows the statement of [SearchExecutions] selects. *)
Definition SearchExecutions_rows (ctx : Context) (queries : SearchQueries)
    (rows : list Row) : list Row :=
  let eq : Eq := [(ExecutionColumnInstanceID, VText (ctx_InstanceID ctx))] in
  run (addWhere (eval_Eq eq) (toQuery queries Select)) rows.

Section Orgs.

(** [projection_old.OrgProjectionTable] and [projection_old.OrgColumnInstanceID]:
    the names the org projection gives its table and its instance ID column. *)
Variables OrgProjectionTable OrgColumnInstanceID_name : string.

Definition orgsTable : table :=
  {| table_name := OrgProjectionTable; instanceIDCol := OrgColumnInstanceID_name |}.

Definition OrgColumnInstanceID : Column :=
  {| name := OrgColumnInstanceID_name; Column_table := orgsTable |}.

(** The rows the statement of [SearchOrgs] selects. *)
Definition SearchOrgs_rows (ctx : Context) (queries : SearchQueries)
    (rows : list Row) : list Row :=
  let eq : Eq := [(OrgColumnInstanceID, VText (ctx_InstanceID ctx))] in
  run (addWhere (eval_Eq eq) (toQuery queries Select)) rows.

End Orgs.

(** The scan function of [prepareExecutionQuery] on the first row of the
    result, [None] standing for [sql.ErrNoRows]; a column of another type
    than the field scanned into is a scan error. *)
Definition scanExecutionRow (row : Row) : option Execution :=
  match row !! Projection.ExecutionIDCol, row !! Projection.ExecutionCreationDateCol,
        row !! Projection.ExecutionChangeDateCol, row !! Projection.ExecutionResourceOwnerCol,
        row !! Projection.ExecutionSequenceCol with
  | Some (VText id), Some (VTimestamp creation), Some (VTimestamp change),
    Some (VText owner), Some (VInt64 seq) =>
      let array c :=
        match row !! c with
        | Some (VTextArray l) => l
        | _ => []
        end in
      Some {| ID := id; CreationDate := creation; ChangeDate := change;
              ResourceOwner := owner; Sequence := seq;
              Targets := array Projection.ExecutionTargetsCol;
              Includes := array Projection.ExecutionIncludesCol |}
  | _, _, _, _, _ => None
  end.

Definition scanExecution (result : list Row) : error + Execution :=
  match result with
  | [] => inl (ThrowNotFound (Some (GoError "sql: no rows in result set"))
                 "QUERY-qzn1xycesh" "Errors.Execution.NotFound")
  | row :: _ =>
      match scanExecutionRow row with
      | Some execution => inr execution
      | None => inl (ThrowInternal (Some (GoError "sql: Scan error")) "QUERY-f8sjvm4tb8" "Errors.Internal")
      end
  end.

(** The rows the statement of [GetExecutionByID] selects. *)
Definition GetExecutionByID_rows (ctx : Context) (rows : list Row)
    (id resourceOwner : string) : list Row :=
  let eq : Eq := [
    (ExecutionColumnID, VText id);
    (ExecutionColumnResourceOwner, VText resourceOwner);
    (ExecutionColumnInstanceID, VText resourceOwner)
  ] in
  run (addWhere (eval_Eq eq) Select) rows.

(** [GetExecutionByID] *)
Definition GetExecutionByID (ctx : Context) (rows : list Row)
    (id resourceOwner : string) : error + Execution :=
  scanExecution (GetExecutionByID_rows ctx rows id resourceOwner).

(** The row belongs to the instance. *)
Definition of_instance (instance : string) (row : Row) : Prop :=
  row !! Projection.ExecutionInstanceIDCol = Some (VText instance).

End Query.

(* ===================================================================== *)
(** * Sample data *)
(* ===================================================================== *)

Module Sample.
Import Errors Eventstore.

(** [strings.ToLower] on ASCII text. *)
Definition lower (c : ascii) : ascii :=
  let n := nat_of_ascii c in
  if (65 <=? n)%nat && (n <=? 90)%nat then ascii_of_nat (n + 32) else c.

Fixpoint ToLower (s : string) : string :=
  match s with
  | EmptyString => EmptyString
  | String c rest => String (lower c) (ToLower rest)
  end.

Definition ctx : Context := {| ctx_InstanceID := "i1" |}.

(** A storage engine without faults, using lib/pq. *)
Definition env : TxEnv :=
  {| driver := LibPQ;
     begin_fault := None;
     stmt_fault := λ _, None;
     statement_timestamp := λ n, 1000 + Z.of_nat n;
     gen_random_uuid := λ _, "00000000-0000-0000-0000-000000000000";
     commit_fault := None;
     commit_timestamp := 2000 |}.

(** The same engine losing the connection at statement [k]. *)
Definition env_failing_at (k : nat) : TxEnv :=
  {| driver := LibPQ;
     begin_fault := None;
     stmt_fault := λ n, if bool_decide (n = k) then Some (GoError "driver: bad connection") else None;
     statement_timestamp := statement_timestamp env;
     gen_random_uuid := gen_random_uuid env;
     commit_fault := None;
     commit_timestamp := 2000 |}.

Definition user (i owner : string) : Aggregate :=
  {| Aggregate_ID := i; Aggregate_Type := "user"; Aggregate_ResourceOwner := owner;
     Aggregate_InstanceID := EmptyString; Aggregate_Version := "v1" |}.

Definition username (field : string) : UniqueConstraint :=
  {| UniqueType := "usernames"; UniqueField := field; Action := UniqueConstraintAdd;
     ErrorMessage := "Errors.User.AlreadyExists" |}.

Definition UserCreated (i owner name : string) : Command :=
  {| Command_Aggregate := user i owner;
     Command_Creator := "admin";
     Command_Type := "user.created";
     Command_Payload := Some (Marshalable "{}");
     Command_UniqueConstraints := [username name] |}.

Definition UserRenamed (i owner : string) : Command :=
  {| Command_Aggregate := user i owner;
     Command_Creator := "admin";
     Command_Type := "user.renamed";
     Command_Payload := Some (Marshalable "{}");
     Command_UniqueConstraints := [] |}.

Definition empty : DB := {| events := []; unique_constraints := [] |}.

(** The store after u1 was created as "Bob" in org1. *)
Definition with_bob : DB := (Push ToLower ctx env empty [UserCreated "u1" "org1" "Bob"]).2.

(** u1 renamed and u2 created on top of the store with Bob. *)
Definition batch : list Command :=
  [UserRenamed "u1" "org2"; UserCreated "u2" "org1" "Alice"].

(** A second user asking for the name BOB. *)
Definition duplicate : list Command := [UserCreated "u2" "org1" "BOB"].


(** An execution of instance i1, a changed password, session and execution
    rows. *)
Definition an_execution : Handler.BaseEvent :=
  {| Handler.Aggregate :=
       {| Aggregate_ID := "request"; Aggregate_Type := "execution";
          Aggregate_ResourceOwner := "i1"; Aggregate_InstanceID := "i1";
          Aggregate_Version := "v1" |};
     Handler.CreationDate := 100;
     Handler.Sequence := 1 |}.

Definition password_changed (user : string) (changed : Z) : Handler.BaseEvent :=
  {| Handler.Aggregate :=
       {| Aggregate_ID := user; Aggregate_Type := "user";
          Aggregate_ResourceOwner := "org1"; Aggregate_InstanceID := "i1";
          Aggregate_Version := "v1" |};
     Handler.CreationDate := changed;
     Handler.Sequence := 7 |}.

Definition session (i user : string) (checked : Handler.Value) : gmap string Handler.Value :=
  <[Projection.SessionColumnID := Handler.VText i]>
  (<[Projection.SessionColumnInstanceID := Handler.VText "i1"]>
  (<[Projection.SessionColumnUserID := Handler.VText user]>
  (<[Projection.SessionColumnPasswordCheckedAt := checked]> ∅))).

Definition execution_row (i owner instance : string) (created : Z)
    : gmap string Handler.Value :=
  <[Projection.ExecutionIDCol := Handler.VText i]>
  (<[Projection.ExecutionCreationDateCol := Handler.VTimestamp created]>
  (<[Projection.ExecutionChangeDateCol := Handler.VTimestamp created]>
  (<[Projection.ExecutionResourceOwnerCol := Handler.VText owner]>
  (<[Projection.ExecutionInstanceIDCol := Handler.VText instance]>
  (<[Projection.ExecutionSequenceCol := Handler.VInt64 1]>
  (<[Projection.ExecutionTargetsCol := Handler.VTextArray ["target"]]>
  (<[Projection.ExecutionIncludesCol := Handler.VNull]> ∅))))))).

(** The executions table with the execution "request" of two instances. *)
Definition two_tenants : list (gmap string Handler.Value) :=
  [execution_row "request" "i1" "i1" 10; execution_row "request" "i2" "i2" 20].

End Sample.

(* ===================================================================== *)
(** * More about the stores Push builds *)
(* ===================================================================== *)

Module EventstoreInvariants.
Import Errors Eventstore.

(** The storage engine and the driver answer with their own errors, never
    with a typed error of the application. *)
Definition foreign_faults (env : TxEnv) : Prop :=
  (∀ err, begin_fault env = Some err → IsCaosError err = false) ∧
  (∀ err, commit_fault env = Some err → IsCaosError err = false) ∧
  (∀ n err, stmt_fault env n = Some err → IsCaosError err = false).

(** The error is typed, and of the Internal kind unless it is the
    AlreadyExists error of an Add constraint of one of the commands, which
    then carries the message of that constraint and the uniqueness violation
    as its parent. *)
Definition internal_or_already_exists (commands : list Command) (err : error) : Prop :=
  IsCaosError err = true ∧
  (kind_of err = Some Internal ∨
   (kind_of err = Some AlreadyExists ∧
    ∃ c uc d, c ∈ commands ∧ uc ∈ Command_UniqueConstraints c ∧
      Action uc = UniqueConstraintAdd ∧
      message_of err = Some (Text (ErrorMessage uc)) ∧
      parent_of err = Some d ∧ isUniqueViolationError d = true)).

(** The returned event continues the chain of its aggregate instance. *)
Definition chained (e : Event) : Prop :=
  1 ≤ Seq e ≤ max_int64 ∧ PreviousAggregateSequence e = Seq e - 1.

(** All events of an aggregate instance have one resource owner. *)
Definition one_resource_owner (rows : list EventRow) : Prop :=
  ∀ r1 r2, r1 ∈ rows → r2 ∈ rows →
    aggregate_type r1 = aggregate_type r2 → aggregate_id r1 = aggregate_id r2 →
    instance_id r1 = instance_id r2 →
    resource_owner r1 = resource_owner r2.

(** The rows of an instance. *)
Definition instance_rows (inst : string) (rows : list EventRow) : list EventRow :=
  filter (λ r, instance_id r = inst) rows.

(** The two tables hold the same rows for the instance of every command. *)
Definition same_instances (ctx : Context) (commands : list Command)
    (rows1 rows2 : list EventRow) : Prop :=
  ∀ c, c ∈ commands →
    instance_rows (resolveInstanceID ctx c) rows1 = instance_rows (resolveInstanceID ctx c) rows2.

(** What the slice of events holds when the transaction ran once and [new]
    are the rows it inserted on top of [rows], one statement per command
    from statement 0 on: slot [j] of an inserted command holds the event built
    from command [j] and completed from the row returned for it, which is
    row [j] of [new]; the other slots are nil; and if not every command was
    inserted, the transaction did not begin or the insert of the first
    command without a row failed. *)
Definition filled_prefix (ctx : Context) (env : TxEnv) (rows : list EventRow)
    (commands : list Command) (evs : list (option Event)) (new : list EventRow) : Prop :=
  length evs = length commands ∧
  (length new ≤ length commands)%nat ∧
  (∀ j c, (j < length new)%nat → commands !! j = Some c →
     ∃ data row,
       marshalPayload c = inr data ∧
       crdbInsert env j (rows ++ take j new) (insertArgs (newEvent ctx c data) data) = inr row ∧
       new !! j = Some row ∧
       evs !! j = Some (Some (scanReturning (newEvent ctx c data) row))) ∧
  (∀ j, (length new ≤ j < length commands)%nat → evs !! j = Some None) ∧
  ((length new < length commands)%nat →
     is_Some (begin_fault env) ∨
     ∃ c err, commands !! length new = Some c ∧
       pushCommand ctx env (length new) (rows ++ new) c = inl err).

(** No two rows of the unique constraints table are equal, and every
    stored field is a lowercased text. *)
Definition unique_table_ok (ToLower : string → string) (tbl : list UniqueRow) : Prop :=
  NoDup tbl ∧ ∀ row, row ∈ tbl → ∃ s, unique_field row = ToLower s.

(** [remove] withdraws what [add] claims: same type, same field up to case. *)
Definition withdraws (ToLower : string → string) (add remove : UniqueConstraint) : Prop :=
  Action add = UniqueConstraintAdd ∧ Action remove = UniqueConstraintRemove ∧
  UniqueType add = UniqueType remove ∧
  ToLower (UniqueField add) = ToLower (UniqueField remove).

End EventstoreInvariants.

(* ===================================================================== *)
(** * The SQL text helpers of crdb.go *)
(* ===================================================================== *)

Module SQLText.
Import Errors.

(** Go strings are byte sequences; slicing is by byte index. *)
Abbreviation bytes := (list ascii).

(** [s[a:b]] for [a <= b <= len(s)]. *)
Definition slice (s : bytes) (a b : nat) : bytes := take (b - a) (drop a s).

(** [strconv.Itoa] of a non-negative int. *)
Definition Itoa (n : nat) : bytes := String.list_ascii_of_string (pretty n).

(** [placeholder.FindAllStringIndex(query, -1)] for the expression [\?]:
    the [start, end) of every question mark, from the left. *)
Fixpoint FindAllStringIndex_from (pos : nat) (query : bytes) : list (nat * nat) :=
  match query with
  | [] => []
  | c :: rest =>
      if bool_decide (c = "?"%char)
      then (pos, S pos) :: FindAllStringIndex_from (S pos) rest
      else FindAllStringIndex_from (S pos) rest
  end.

Definition FindAllStringIndex (query : bytes) : list (nat * nat) :=
  FindAllStringIndex_from 0 query.

(** The loop [for i, l := range occurances] from index [i] on. *)
Fixpoint placeholder_range (query : bytes) (occurances : list (nat * nat)) (i : nat)
    (rest : list (nat * nat)) (replaced : bytes) : bytes :=
  match rest with
  | [] => replaced
  | l :: rest' =>
      let nextIDX :=
        if (i <? length occurances - 1)%nat
        then (default (0%nat, 0%nat) (occurances !! (i + 1)%nat)).1
        else length query in
      placeholder_range query occurances (S i) rest'
        (replaced ++ "$"%char :: Itoa (i + 1) ++ slice query l.2 nextIDX)
  end.

(** [placeholder]: replaces all "?" with postgres placeholders. *)
Definition placeholder (query : string) : string :=
  let q := String.list_ascii_of_string query in
  let occurances := FindAllStringIndex q in
  match occurances with
  | [] => query
  | first :: _ =>
      String.string_of_list_ascii
        (placeholder_range q occurances 0 occurances (slice q 0 first.1))
  end.

(** What [placeholder] is meant to do, read from the left: the k-th question
    mark becomes [$k], every other byte stays. *)
Fixpoint number_from (k : nat) (query : bytes) : bytes :=
  match query with
  | [] => []
  | c :: rest =>
      if bool_decide (c = "?"%char)
      then "$"%char :: Itoa k ++ number_from (S k) rest
      else c :: number_from k rest
  end.

End SQLText.

(* ===================================================================== *)
(** * Regular expressions, as far as crdb.go uses them *)
(* ===================================================================== *)

Module Regexp.
Import SQLText.

(** The syntax tree of an expression (the operators of [regexp/syntax] that
    [instanceRegexp] compiles to). *)
Inductive Regexp :=
| NoMatch
| EmptyMatch
| Literal (c : ascii)
| CharRange (lo hi : ascii)
| Alternate (r1 r2 : Regexp)
| Concat (r1 r2 : Regexp)
| Star (r : Regexp).

(** [r{1,}] *)
Definition Plus (r : Regexp) : Regexp := Concat r (Star r).

(** A literal string. *)
Definition Literals (s : string) : Regexp :=
  foldr (λ c r, Concat (Literal c) r) EmptyMatch (String.list_ascii_of_string s).

Definition in_range (lo hi c : ascii) : bool :=
  (N_of_ascii lo <=? N_of_ascii c)%N && (N_of_ascii c <=? N_of_ascii hi)%N.

(** The texts an expression matches in full. *)
Inductive lang : Regexp → bytes → Prop :=
| lang_EmptyMatch : lang EmptyMatch []
| lang_Literal c : lang (Literal c) [c]
| lang_CharRange lo hi c : in_range lo hi c = true → lang (CharRange lo hi) [c]
| lang_Alternate_l r1 r2 s : lang r1 s → lang (Alternate r1 r2) s
| lang_Alternate_r r1 r2 s : lang r2 s → lang (Alternate r1 r2) s
| lang_Concat r1 r2 s1 s2 : lang r1 s1 → lang r2 s2 → lang (Concat r1 r2) (s1 ++ s2)
| lang_Star_nil r : lang (Star r) []
| lang_Star_cons r s1 s2 : lang r s1 → lang (Star r) s2 → lang (Star r) (s1 ++ s2).

(** Matching by derivatives. *)
Fixpoint nullable (r : Regexp) : bool :=
  match r with
  | NoMatch => false
  | EmptyMatch => true
  | Literal _ => false
  | CharRange _ _ => false
  | Alternate r1 r2 => nullable r1 || nullable r2
  | Concat r1 r2 => nullable r1 && nullable r2
  | Star _ => true
  end.

Fixpoint deriv (c : ascii) (r : Regexp) : Regexp :=
  match r with
  | NoMatch => NoMatch
  | EmptyMatch => NoMatch
  | Literal c' => if bool_decide (c = c') then EmptyMatch else NoMatch
  | CharRange lo hi => if in_range lo hi c then EmptyMatch else NoMatch
  | Alternate r1 r2 => Alternate (deriv c r1) (deriv c r2)
  | Concat r1 r2 =>
      if nullable r1
      then Alternate (Concat (deriv c r1) r2) (deriv c r2)
      else Concat (deriv c r1) r2
  | Star r => Concat (deriv c r) (Star r)
  end.

(** Some prefix of [s] is matched by [r]. *)
Fixpoint matchPrefix (r : Regexp) (s : bytes) : bool :=
  nullable r ||
  match s with
  | [] => false
  | c :: s' => matchPrefix (deriv c r) s'
  end.

(** [MatchString] of a compiled expression: the text contains a match of the expression
    (the expression is not anchored). *)
Fixpoint MatchBytes (r : Regexp) (s : bytes) : bool :=
  matchPrefix r s ||
  match s with
  | [] => false
  | _ :: s' => MatchBytes r s'
  end.

Definition MatchString (r : Regexp) (s : string) : bool :=
  MatchBytes r (String.list_ascii_of_string s).

End Regexp.

(* ===================================================================== *)
(** * CreateInstance *)
(* ===================================================================== *)

Module Instance.
Import Errors SQLText Regexp.

(** The class [[0-9a-zA-Z]]. *)
Definition class : Regexp :=
  Alternate (CharRange "0" "9") (Alternate (CharRange "a" "z") (CharRange "A" "Z")).

(** [regexp.MustCompile(`eventstore\.i_[0-9a-zA-Z]{1,}_seq`)] *)
Definition instanceRegexp : Regexp :=
  Concat (Literals "eventstore.i_") (Concat (Plus class) (Literals "_seq")).

(** What the database answers while [CreateInstance] runs: the error of
    [row.Scan], if any, and the error of [ExecContext], if any. *)
Record InstanceEnv := {
  scan_fault : option error;
  exec_fault : option error;
}.

(** [SELECT CONCAT('eventstore.i_', $1::TEXT, '_seq')] *)
Definition CONCAT (instanceID : string) : string :=
  "eventstore.i_" +:+ instanceID +:+ "_seq".

(** [CreateInstance]: the statements handed to [ExecContext], and the error.
    [sequenceName] stays the empty string when [row.Scan] fails, and the
    expression is then not consulted.  The wrapper [db.QueryRowContext] of
    package database is taken to run the query, hand its row to the function
    and return what the function returns. *)
Definition CreateInstance (env : InstanceEnv) (instanceID : string)
    : list string * option error :=
  let '(sequenceName, err) :=
    match scan_fault env with
    | Some e => (EmptyString, Some e)
    | None => (CONCAT instanceID, None)
    end in
  let err :=
    if bool_decide (err ≠ None) || negb (MatchString instanceRegexp sequenceName)
    then Some (ThrowInvalidArgument err "SQL-7gtFA" "Errors.InvalidArgument")
    else None in
  match err with
  | Some e => ([], Some e)
  | None =>
      let stmt := "CREATE SEQUENCE " +:+ sequenceName in
      match exec_fault env with
      | Some e => ([stmt], Some (ThrowInternal (Some e) "SQL-7gtFA" "Errors.Internal"))
      | None => ([stmt], None)
      end
  end.

(** The characters of the class [[0-9a-zA-Z]]. *)
Definition alphanumeric (c : ascii) : Prop :=
  in_range "0" "9" c = true ∨ in_range "a" "z" c = true ∨ in_range "A" "Z" c = true.

(** A sequence name as the expression describes it. *)
Definition sequence_name (m : bytes) : Prop :=
  ∃ p, m = String.list_ascii_of_string "eventstore.i_" ++ p
             ++ String.list_ascii_of_string "_seq"
       ∧ p ≠ [] ∧ Forall alphanumeric p.

(** The text contains a sequence name. *)
Definition contains_sequence_name (s : string) : Prop :=
  ∃ u m v, String.list_ascii_of_string s = u ++ m ++ v ∧ sequence_name m.

End Instance.

(* ===================================================================== *)
(** * Package initialise *)
(* ===================================================================== *)

Module Initialise.
Import Errors.

(** The package variables the statement files are read into. *)
Inductive Var :=
| createUserStmt
| grantStmt
| databaseStmt
| createEventstoreStmt
| createProjectionsStmt
| createSystemStmt
| createEncryptionKeysStmt
| createEventsStmt
| createSystemSequenceStmt
| createUniqueConstraints.

#[global] Instance Var_eq_dec : EqDecision Var.
Proof. solve_decision. Defined.

Definition Globals := Var → string.

(** Assignment to a package variable. *)
Definition store (v : Var) (s : string) (g : Globals) : Globals :=
  λ v', if decide (v' = v) then s else g v'.

(** [embed.FS]: the embedded files by path. *)
Definition FS := gmap string string.

(** [stmts.ReadFile(name)]; the error stands for the [*fs.PathError]. *)
Definition ReadFile (stmts : FS) (name : string) : option string * option error :=
  match stmts !! name with
  | Some content => (Some content, None)
  | None => (None, Some (GoError "file does not exist"))
  end.

(** [readStmt]: [string(stmt)] of a nil slice is the empty string. *)
Definition readStmt (stmts : FS) (typ step : string) : string * option error :=
  let '(stmt, err) := ReadFile stmts ("sql/" +:+ typ +:+ "/" +:+ step +:+ ".sql") in
  (default EmptyString stmt, err).

(** [v, err = readStmt(typ, step); if err != nil { return err }], followed
    by the rest of the function. *)
Definition assign (v : Var) (r : string * option error) (g : Globals)
    (rest : Globals → Globals * option error) : Globals * option error :=
  let g := store v r.1 g in
  match r.2 with
  | Some err => (g, Some err)
  | None => rest g
  end.

(** [readStmts]: the package variables after the call, and the error. *)
Definition readStmts (stmts : FS) (typ : string) (g : Globals) : Globals * option error :=
  assign createUserStmt (readStmt stmts typ "01_user") g (λ g,
  assign databaseStmt (readStmt stmts typ "02_database") g (λ g,
  assign grantStmt (readStmt stmts typ "03_grant_user") g (λ g,
  assign createEventstoreStmt (readStmt stmts typ "04_eventstore") g (λ g,
  assign createProjectionsStmt (readStmt stmts typ "05_projections") g (λ g,
  assign createSystemStmt (readStmt stmts typ "06_system") g (λ g,
  assign createEncryptionKeysStmt (readStmt stmts typ "07_encryption_keys_table") g (λ g,
  assign createEventsStmt (readStmt stmts typ "08_events_table") g (λ g,
  assign createSystemSequenceStmt (readStmt stmts typ "09_system_sequence") g (λ g,
  assign createUniqueConstraints (readStmt stmts typ "10_unique_constraints_table") g (λ g,
  (g, None))))))))))).

Section Steps.

(** What is reached through [*sql.DB], and [database.Config]. *)
Variables DB Config : Type.

(** [config.Type()] *)
Variable Config_Type : Config → string.

(** [database.Connect(config, true)] *)
Variable Connect : Config → bool → error + DB.

(** A step, a function of the database handle and the configuration that
    returns an error; it reads the package variables and works on the
    database. *)
Definition Step := Globals → DB → Config → DB * option error.

(** [Init] *)
Fixpoint Init (g : Globals) (db : DB) (config : Config) (steps : list Step)
    : DB * option error :=
  match steps with
  | [] => (db, None)
  | step :: steps =>
      match step g db config with
      | (db, Some err) => (db, Some err)
      | (db, None) => Init g db config steps
      end
  end.

(** [initialise]: the package variables and the database after the call
    (none if no connection was made), and the error.  The result of
    [readStmts] is dropped; the deferred [db.Close()] is left out. *)
Definition initialise (stmts : FS) (g : Globals) (config : Config) (steps : list Step)
    : Globals * option DB * option error :=
  let g := (readStmts stmts (Config_Type config) g).1 in
  match Connect config true with
  | inl err => (g, None, Some err)
  | inr db =>
      let '(db, err) := Init g db config steps in
      (g, Some db, err)
  end.

End Steps.

(** The statement files in the order they are read, with the variable each
    is read into. *)
Definition statement_files : list (Var * string) := [
  (createUserStmt, "01_user");
  (databaseStmt, "02_database");
  (grantStmt, "03_grant_user");
  (createEventstoreStmt, "04_eventstore");
  (createProjectionsStmt, "05_projections");
  (createSystemStmt, "06_system");
  (createEncryptionKeysStmt, "07_encryption_keys_table");
  (createEventsStmt, "08_events_table");
  (createSystemSequenceStmt, "09_system_sequence");
  (createUniqueConstraints, "10_unique_constraints_table")
].

Definition statement_path (typ step : string) : string :=
  "sql/" +:+ typ +:+ "/" +:+ step +:+ ".sql".

(** Reading the files of a list one after the other, stopping at the first
    that is missing. *)
Fixpoint read_files (stmts : FS) (typ : string) (files : list (Var * string))
    (g : Globals) : Globals * option error :=
  match files with
  | [] => (g, None)
  | (v, step) :: files =>
      assign v (readStmt stmts typ step) g (read_files stmts typ files)
  end.

End Initialise.

(* ===================================================================== *)
(** * What the statements of the projections do to a table *)
(* ===================================================================== *)

Module ProjectionInvariants.
Import Errors Repository Handler Projection.

#[global] Instance AggregateType_eq_dec : EqDecision AggregateType.
Proof. solve_decision. Defined.

(** The primary key of a row. *)
Definition primary_key (tbl : Table) (row : Row) : list (option Value) :=
  (λ c, row !! c) <$> PrimaryKey tbl.

(** No two rows of the table have the same primary key. *)
Definition keys_unique (tbl : Table) (rows : list Row) : Prop :=
  NoDup (primary_key tbl <$> rows).

(** The reducers a projection registered for the events of an aggregate. *)
Definition reducers_of (p : projection) (a : AggregateType) : list Reduce :=
  EventReducer_Reduce <$>
    (filter (λ r, AggregateReducer_Aggregate r = a) (Reducers p) ≫= EventReducers).

(** The key columns of the aggregate an event belongs to. *)
Definition aggregate_key (e : BaseEvent) : Row :=
  {[ "id" := VText (Aggregate_ID (Aggregate e));
     "instance_id" := VText (Aggregate_InstanceID (Aggregate e));
     "resource_owner" := VText (Aggregate_ResourceOwner (Aggregate e)) ]}.

(** The row is the one of the event's aggregate: session or execution. *)
Definition row_of (p : projection) (e : BaseEvent) (row : Row) : Prop :=
  primary_key (Init p) row = primary_key (Init p) (aggregate_key e).

#[global] Instance row_of_dec p e row : Decision (row_of p e row).
Proof. unfold row_of. apply _. Defined.

(** The rows of the other sessions or executions, in table order. *)
Definition other_rows (p : projection) (e : BaseEvent) (rows : list Row) : list Row :=
  filter (λ r, ¬ row_of p e r) rows.

(** The statement cannot change the primary key of a row or add a second
    row for a key. *)
Definition respects_key (tbl : Table) (m : Mutation) : Prop :=
  match m with
  | Create _ => True
  | Upsert conflictCols _ => Column_Name <$> conflictCols = PrimaryKey tbl
  | Update values _ => Forall (λ c, Column_Name c ∉ PrimaryKey tbl) values
  | Delete _ => True
  end.

#[global] Instance respects_key_dec tbl m : Decision (respects_key tbl m).
Proof. destruct m; simpl; apply _. Defined.

End ProjectionInvariants.

(* ===================================================================== *)
(** * What the queries select *)
(* ===================================================================== *)

Module QuerySelection.
Import Errors Handler Query.

(** The rows of a table that belong to the instance, by the given instance
    ID column. *)
Definition rows_of_instance (instanceIDCol instance : string) (rows : list Row) : list Row :=
  filter (λ r, r !! instanceIDCol = Some (VText instance)) rows.

(** The row [GetExecutionByID] asks for: the execution with the ID, whose
    resource owner and instance ID both are the resource owner given. *)
Definition requested (id resourceOwner : string) (row : Row) : Prop :=
  row !! Projection.ExecutionIDCol = Some (VText id) ∧
  row !! Projection.ExecutionResourceOwnerCol = Some (VText resourceOwner) ∧
  row !! Projection.ExecutionInstanceIDCol = Some (VText resourceOwner).

#[global] Instance requested_dec id resourceOwner row : Decision (requested id resourceOwner row).
Proof. unfold requested. apply _. Defined.

(** The row has a creation date. *)
Definition created (row : Row) : Prop :=
  ∃ t, row !! Projection.ExecutionCreationDateCol = Some (VTimestamp t).

End QuerySelection.

(* ===================================================================== *)
(** * The events of the idpintent aggregate *)
(* ===================================================================== *)

Module Idpintent.
Import Errors Eventstore.

Section Idpintent.

(** [instanceEventTypePrefix] is declared in another file of the package. *)
Variable instanceEventTypePrefix : string.

(** [eventstore.BaseEvent], embedded in every event, with the three methods
    of a command it provides: [Aggregate()], [Creator()] and [Type()]. *)
Variable BaseEvent : Type.
Variable BaseEvent_Aggregate : BaseEvent → Aggregate.
Variable BaseEvent_Creator : BaseEvent → string.
Variable BaseEvent_Type : BaseEvent → string.

(** [crypto.CryptoValue] *)
Variable CryptoValue : Type.

Definition StartedEventType := instanceEventTypePrefix +:+ "started".
Definition SucceededEventType := instanceEventTypePrefix +:+ "succeeded".
Definition LDAPSucceededEventType := instanceEventTypePrefix +:+ "ldap.succeeded".
Definition FailedEventType := instanceEventTypePrefix +:+ "failed".

(** The four event structs; a nil pointer is [None], a byte slice its text. *)
Inductive IntentEvent :=
| StartedEvent (base : BaseEvent) (SuccessURL FailureURL : option string) (IDPID : string)
| SucceededEvent (base : BaseEvent) (IDPUser : string)
    (IDPUserID IDPUserName UserID : string)
    (IDPAccessToken : option CryptoValue) (IDPIDToken : string)
| LDAPSucceededEvent (base : BaseEvent) (IDPUser : string)
    (IDPUserID IDPUserName UserID : string)
    (EntryAttributes : gmap string (list string))
| FailedEvent (base : BaseEvent) (Reason : string).

Definition base_of (e : IntentEvent) : BaseEvent :=
  match e with
  | StartedEvent base _ _ _ => base
  | SucceededEvent base _ _ _ _ _ _ => base
  | LDAPSucceededEvent base _ _ _ _ _ => base
  | FailedEvent base _ => base
  end.

(** [Payload()]: the event itself, never nil. *)
Definition Payload (e : IntentEvent) : option IntentEvent :=
  match e with
  | StartedEvent _ _ _ _ => Some e
  | SucceededEvent _ _ _ _ _ _ _ => Some e
  | LDAPSucceededEvent _ _ _ _ _ _ => Some e
  | FailedEvent _ _ => Some e
  end.

(** [UniqueConstraints()]: nil for each of the four events. *)
Definition UniqueConstraints (e : IntentEvent) : list UniqueConstraint :=
  match e with
  | StartedEvent _ _ _ _ => []
  | SucceededEvent _ _ _ _ _ _ _ => []
  | LDAPSucceededEvent _ _ _ _ _ _ => []
  | FailedEvent _ _ => []
  end.

(** What [json.Marshal] makes of an event handed to it as payload. *)
Variable json_Marshal_event : IntentEvent → Eventstore.Payload.

(** An event as the [eventstore.Command] Push is handed. *)
Definition Command_of (e : IntentEvent) : Command :=
  {| Command_Aggregate := BaseEvent_Aggregate (base_of e);
     Command_Creator := BaseEvent_Creator (base_of e);
     Command_Type := BaseEvent_Type (base_of e);
     Command_Payload := json_Marshal_event <$> Payload e;
     Command_UniqueConstraints := UniqueConstraints e |}.

End Idpintent.

End Idpintent.

(* ===================================================================== *)
(** * The scopes of the Google provider form *)
(* ===================================================================== *)

Module Console.

Section ProviderGoogle.

(** [String.prototype.trim] *)
Variable trim : string → string.

(** [MatChipInputEvent]: the text of the input element of the chip input,
    if there is one, and the value entered. *)
Record MatChipInputEvent := {
  inputElement : option string;
  value : string
}.

(** [addScope].  [scopes] is [this.scopesList?.value], [None] when it is
    null or undefined; the result is the array and the text of the input
    element afterwards. *)
Definition addScope (event : MatChipInputEvent) (scopes : option (list string))
    : option (list string) * option string :=
  let input := inputElement event in
  let value := trim (value event) in
  if bool_decide (value ≠ EmptyString)
  then match scopes with
       | Some l => (Some (l ++ [value]), (λ _, EmptyString) <$> input)
       | None => (scopes, input)
       end
  else (scopes, input).

(** [Array.prototype.indexOf]: the first index of the element, or -1. *)
Fixpoint indexOf_from (i : Z) (l : list string) (uri : string) : Z :=
  match l with
  | [] => -1
  | x :: l => if bool_decide (x = uri) then i else indexOf_from (i + 1) l uri
  end.

Definition indexOf (l : list string) (uri : string) : Z := indexOf_from 0 l uri.

(** [l.splice(index, 1)] for an index that is not negative. *)
Definition splice1 (l : list string) (index : Z) : list string :=
  take (Z.to_nat index) l ++ drop (Z.to_nat index + 1) l.

(** [removeScope] *)
Definition removeScope (uri : string) (scopes : option (list string)) : option (list string) :=
  match scopes with
  | Some l =>
      let index := indexOf l uri in
      if 0 <=? index then Some (splice1 l index) else Some l
  | None => None
  end.

End ProviderGoogle.

End Console.

(* ===================================================================== *)
(** * More sample data *)
(* ===================================================================== *)

Module Fixtures.
Import Errors Eventstore.
Import Sample.

(** A store of instance i2, and the store with Bob next to its event. *)
Definition other_instance : DB :=
  (Push ToLower {| ctx_InstanceID := "i2" |} env empty [UserCreated "u9" "org9" "Zed"]).2.

Definition with_bob_and_others : DB :=
  {| events := events other_instance ++ events with_bob;
     unique_constraints := unique_constraints with_bob |}.

(** Giving a user name back. *)
Definition release (field : string) : UniqueConstraint :=
  {| UniqueType := "usernames"; UniqueField := field; Action := UniqueConstraintRemove;
     ErrorMessage := EmptyString |}.

(** A database that answers [CreateInstance] without errors. *)
Definition healthy : Instance.InstanceEnv :=
  {| Instance.scan_fault := None; Instance.exec_fault := None |}.

(** Package variables before [readStmts], and two steps on a database that
    counts the steps it has seen. *)
Definition unset : Initialise.Globals := λ _, EmptyString.

Definition migrate : Initialise.Step nat unit := λ _ db _, (S db, None).

Definition refuse : Initialise.Step nat unit :=
  λ _ db _, (db, Some (GoError "permission denied")).

Definition unreachable : unit → bool → error + nat :=
  λ _ _, inl (GoError "connection refused").

(** A session of instance i1. *)
Definition a_session : Handler.BaseEvent :=
  {| Handler.Aggregate :=
       {| Aggregate_ID := "s1"; Aggregate_Type := "session";
          Aggregate_ResourceOwner := "org1"; Aggregate_InstanceID := "i1";
          Aggregate_Version := "v1" |};
     Handler.CreationDate := 10;
     Handler.Sequence := 1 |}.

(** [trim] on text padded with spaces. *)
Fixpoint trimStart (s : string) : string :=
  match s with
  | String " " rest => trimStart rest
  | _ => s
  end.

Definition trim (s : string) : string :=
  String.rev (trimStart (String.rev (trimStart s))).

Definition chip : Console.MatChipInputEvent :=
  {| Console.inputElement := Some " openid"; Console.value := " openid" |}.

End Fixtures.

(* ===================================================================== *)
(** * Properties of the event store *)
(* ===================================================================== *)

Module EventstoreProperties.
Import Errors Eventstore.

(** ** The latest row and the insert *)

Lemma latest_None rows :
  order_by_event_sequence_desc_limit_1 rows = None ↔ rows = [].
Proof.
  destruct rows as [|r rest]; simpl; [done|].
  destruct (order_by_event_sequence_desc_limit_1 rest); [case_match|]; done.
Qed.

Lemma latest_Some rows best :
  order_by_event_sequence_desc_limit_1 rows = Some best →
  best ∈ rows ∧ ∀ r, r ∈ rows → event_sequence r ≤ event_sequence best.
Proof.
  revert best. induction rows as [|r rest IH]; intros best; simpl; [done|].
  destruct (order_by_event_sequence_desc_limit_1 rest) as [b|] eqn:Hrest.
  - destruct (IH b eq_refl) as [Hin Hmax].
    destruct (Z.ltb_spec (event_sequence r) (event_sequence b)); intros [= <-].
    + split; [by right|]. intros x [->|Hx]%elem_of_cons; [lia|auto].
    + split; [by left|]. intros x [->|Hx]%elem_of_cons; [lia|].
      specialize (Hmax x Hx). lia.
  - intros [= <-]. apply latest_None in Hrest as ->.
    split; [by left|]. intros x [->|Hx]%elem_of_cons; [lia|]. by apply elem_of_nil in Hx.
Qed.

Lemma of_aggregate_true ty i inst r :
  of_aggregate ty i inst r = true ↔
  aggregate_type r = ty ∧ aggregate_id r = i ∧ instance_id r = inst.
Proof.
  unfold of_aggregate. rewrite !andb_true_iff, !bool_decide_eq_true. tauto.
Qed.

Lemma crdbInsert_inr env n rows a row :
  crdbInsert env n rows a = inr row →
  stmt_fault env n = None ∧
  let agg := order_by_event_sequence_desc_limit_1
               (filter (λ r, of_aggregate (p2_aggregate_type a) (p3_aggregate_id a)
                               (p9_instance_id a) r = true) rows) in
  event_type row = p1_event_type a ∧
  aggregate_type row = p2_aggregate_type a ∧
  aggregate_id row = p3_aggregate_id a ∧
  instance_id row = p9_instance_id a ∧
  event_data row = p5_event_data a ∧
  event_sequence row = default 0 (event_sequence <$> agg) + 1 ∧
  resource_owner row = default (p8_resource_owner a) (resource_owner <$> agg) ∧
  event_sequence row ≤ max_int64.
Proof.
  unfold crdbInsert. destruct (stmt_fault env n); [done|].
  unfold select_previous_data, COALESCE; simpl.
  destruct (Z.ltb_spec max_int64
    (default 0 (event_sequence <$> order_by_event_sequence_desc_limit_1
       (filter (λ r, of_aggregate (p2_aggregate_type a) (p3_aggregate_id a)
                       (p9_instance_id a) r = true) rows)) + 1)); [done|].
  intros [= <-]; simpl. done.
Qed.

Lemma crdbInsert_next_sequence env n rows a row :
  crdbInsert env n rows a = inr row → next_sequence rows row.
Proof.
  intros (_ & Hty & Hag & Hid & Hinst & _ & Hseq & _)%crdbInsert_inr.
  unfold next_sequence, sequences_of. rewrite Hag, Hid, Hinst.
  destruct (order_by_event_sequence_desc_limit_1 _) as [best|] eqn:Hbest; simpl in Hseq.
  - right. apply latest_Some in Hbest as [Hin Hmax].
    exists (event_sequence best). split_and!; [|
      by intros s (x & -> & Hx)%list_elem_of_fmap; apply Hmax | done].
    apply list_elem_of_fmap. eauto.
  - left. apply latest_None in Hbest. by rewrite Hbest.
Qed.

Lemma crdbInsert_resource_owner env n rows a row :
  crdbInsert env n rows a = inr row →
  inherits_resource_owner rows (p8_resource_owner a) row.
Proof.
  intros (_ & Hty & Hag & Hid & Hinst & _ & _ & Hro & _)%crdbInsert_inr.
  unfold inherits_resource_owner, latest_of. rewrite Hag, Hid, Hinst.
  destruct (order_by_event_sequence_desc_limit_1 _) as [best|] eqn:Hbest; simpl in Hro.
  - left. apply latest_Some in Hbest as [[Hin Hkey]%list_elem_of_filter Hmax].
    exists best. split_and!; try done.
    intros r Hr Hk. apply Hmax. by apply list_elem_of_filter.
  - right. apply latest_None in Hbest. split; [|done].
    intros r Hr. destruct (of_aggregate _ _ _ r) eqn:Hk; [|done].
    assert (r ∈ filter (λ r, of_aggregate (p2_aggregate_type a) (p3_aggregate_id a)
                               (p9_instance_id a) r = true) rows) as Hin
      by by apply list_elem_of_filter.
    rewrite Hbest in Hin. by apply elem_of_nil in Hin.
Qed.

(** ** Gapless sequences are kept by the insert *)

Lemma gapless_insert env n rows a row :
  gapless rows → crdbInsert env n rows a = inr row → gapless (rows ++ [row]).
Proof.
  intros Hgap Hins ty i inst. specialize (Hgap ty i inst).
  pose proof (crdbInsert_next_sequence _ _ _ _ _ Hins) as Hnext.
  unfold sequences_of in *. rewrite filter_app, fmap_app.
  rewrite filter_cons, filter_nil.
  destruct (decide (of_aggregate ty i inst row = true)) as [Hkey|Hkey]; simpl;
    [|by rewrite !app_nil_r].
  apply of_aggregate_true in Hkey as (<- & <- & <-).
  rewrite length_app; simpl. rewrite Nat.add_1_r, seqZ_S, <- Hgap. f_equal. f_equal.
  unfold next_sequence, sequences_of in Hnext.
  destruct Hnext as [[Hnil ->]|(m & Hm & Hmax & ->)].
  - rewrite Hnil. done.
  - set (l := event_sequence <$> _) in *.
    remember (length l) as k eqn:Hk.
    assert (m ≤ Z.of_nat k) as Hle.
    { rewrite Hgap in Hm. apply elem_of_seqZ in Hm. lia. }
    assert (Z.of_nat k ≤ m) as Hge.
    { destruct k as [|k]; [rewrite Hgap in Hm; apply elem_of_seqZ in Hm; lia|].
      apply Hmax. rewrite Hgap. apply elem_of_seqZ. lia. }
    lia.
Qed.

Lemma gapless_appended env rows new :
  gapless rows →
  (∀ j row, new !! j = Some row → ∃ n a, crdbInsert env n (rows ++ take j new) a = inr row) →
  gapless (rows ++ new).
Proof.
  intros Hgap. induction new as [|x new IH] using rev_ind; intros Hnew.
  - by rewrite app_nil_r.
  - rewrite app_assoc.
    destruct (Hnew (length new) x) as (n & a & Hins).
    { by rewrite lookup_app_r, Nat.sub_diag by lia. }
    rewrite take_app_length in Hins.
    eapply gapless_insert; [|done]. apply IH. intros j row Hj.
    destruct (Hnew j row) as (n' & a' & Hins'); [by apply lookup_app_l_Some|].
    exists n', a'. rewrite take_app_le in Hins'; [done|].
    apply lookup_lt_Some in Hj. lia.
Qed.

(** ** The loop over the commands *)

Lemma pushCommands_length ctx env i rows cmds evs ucs rows' err :
  pushCommands ctx env i rows cmds = (evs, ucs, rows', err) → length evs = length cmds.
Proof.
  revert i rows evs ucs rows' err.
  induction cmds as [|c rest IH]; intros i rows evs ucs rows' err; simpl.
  - by intros [= <- _ _ _].
  - destruct (pushCommand ctx env i rows c) as [e|[e row]].
    + intros [= <- _ _ _]. simpl. by rewrite length_replicate.
    + destruct (pushCommands ctx env (S i) (rows ++ [row]) rest)
        as [[[evs0 ucs0] rows0] err0] eqn:Hrec.
      intros [= <- _ _ _]. simpl. f_equal. eauto.
Qed.

Lemma pushCommands_ok ctx env i rows cmds evs ucs rows' :
  pushCommands ctx env i rows cmds = (evs, ucs, rows', None) →
  ∃ new,
    rows' = rows ++ new ∧ length new = length cmds ∧
    ucs = cmds ≫= Command_UniqueConstraints ∧
    ∀ j c, cmds !! j = Some c →
      ∃ data row,
        marshalPayload c = inr data ∧
        crdbInsert env (i + j) (rows ++ take j new) (insertArgs (newEvent ctx c data) data)
          = inr row ∧
        new !! j = Some row ∧
        evs !! j = Some (Some (scanReturning (newEvent ctx c data) row)).
Proof.
  revert i rows evs ucs rows'.
  induction cmds as [|c rest IH]; intros i rows evs ucs rows'; simpl.
  - intros [= <- <- <-]. exists []. rewrite app_nil_r. repeat split; done.
  - unfold pushCommand at 1.
    destruct (marshalPayload c) as [e|data] eqn:Hdata; [done|].
    destruct (crdbInsert env i rows _) as [e|row] eqn:Hins; [done|].
    destruct (event_sequence row <? 0); [done|].
    destruct (pushCommands ctx env (S i) (rows ++ [row]) rest)
      as [[[evs0 ucs0] rows0] err0] eqn:Hrec.
    intros [= <- <- <- ->].
    destruct (IH _ _ _ _ _ Hrec) as (new & -> & Hlen & -> & Hnew).
    exists (row :: new). rewrite <- app_assoc. simpl. repeat split; [by f_equal|].
    intros [|j] c' Hc; simpl in *.
    + injection Hc as <-. exists data, row. rewrite Nat.add_0_r, app_nil_r. done.
    + destruct (Hnew j c' Hc) as (data' & row' & ? & Hins' & ? & ?).
      exists data', row'. repeat split; try done.
      rewrite <- Hins'. f_equal; [lia|]. by rewrite <- app_assoc.
Qed.


Section WithToLower.

Variable ToLower : string → string.

(** ** The ways Push can end *)

Lemma Push_cases ctx env db commands evs err db' :
  Push ToLower ctx env db commands = (evs, err, db') →
  (is_Some err ∧ db' = db) ∨
  (err = None ∧ begin_fault env = None ∧ commit_fault env = None ∧
   ∃ ucs rows tbl,
     pushCommands ctx env 0 (events db) commands = (evs, ucs, rows, None) ∧
     handleUniqueConstraints ToLower ctx env (length commands) (unique_constraints db) ucs
       = inr tbl ∧
     db' = {| events := rows; unique_constraints := tbl |}).
Proof.
  unfold Push, pushTx.
  destruct (begin_fault env) as [e|].
  { intros [= <- <- <-]. left. split; [|done]. destruct (IsCaosError e); eauto. }
  destruct (pushCommands ctx env 0 (events db) commands)
    as [[[evs0 ucs0] rows0] [e|]] eqn:Hloop.
  { intros [= <- <- <-]. left. split; [|done]. destruct (IsCaosError e); eauto. }
  destruct (handleUniqueConstraints ToLower ctx env (length commands)
              (unique_constraints db) ucs0) as [e|tbl] eqn:Huc.
  { intros [= <- <- <-]. left. split; [|done]. destruct (IsCaosError e); eauto. }
  destruct (commit_fault env) as [e|].
  { intros [= <- <- <-]. left. split; [|done]. destruct (IsCaosError e); eauto. }
  intros [= <- <- <-]. right. split_and!; [done..|]. by eexists _, _, _.
Qed.

Lemma Push_appended ctx env db commands evs err db' :
  Push ToLower ctx env db commands = (evs, err, db') →
  ∃ new, events db' = events db ++ new ∧
    ∀ j row, new !! j = Some row →
      ∃ n a, crdbInsert env n (events db ++ take j new) a = inr row.
Proof.
  intros [[_ ->]|(-> & _ & _ & ucs & rows & tbl & Hloop & _ & ->)]%Push_cases.
  - exists []. by rewrite app_nil_r.
  - apply pushCommands_ok in Hloop as (new & -> & Hlen & _ & Hnew). exists new. split; [done|].
    intros j row Hj.
    assert (is_Some (commands !! j)) as [c Hc].
    { apply lookup_lt_is_Some. apply lookup_lt_Some in Hj. lia. }
    destruct (Hnew j c Hc) as (data & row' & _ & Hins & Hrow & _).
    assert (row' = row) as -> by congruence. eauto.
Qed.

Lemma pushed_gapless db : pushed ToLower db → gapless (events db).
Proof.
  induction 1 as [|ctx env db commands Hdb IH]; [done|].
  destruct (Push ToLower ctx env db commands) as [[evs err] db'] eqn:HPush. simpl.
  apply Push_appended in HPush as (new & -> & Hnew).
  by eapply gapless_appended.
Qed.

(** ** The unique constraints *)

Lemma handleUniqueConstraints_eq ctx env n tbl ucs :
  handleUniqueConstraints ToLower ctx env n tbl ucs
  = handleUniqueConstraints_range ToLower ctx env n tbl ucs.
Proof. by destruct ucs. Qed.

Lemma handleUniqueConstraint_statement ctx env n tbl uc :
  handleUniqueConstraint ToLower ctx env n tbl uc
  = match constraintStatement ToLower ctx env n tbl uc with
    | inr tbl' => inr tbl'
    | inl d => inl (constraint_error uc d)
    end.
Proof.
  unfold handleUniqueConstraint, constraintStatement, constraint_error, is_Add.
  destruct (Action uc); simpl.
  - destruct (uniqueInsert _ _ _ _ _ _) as [d|?]; [|done]. by destruct (isUniqueViolationError d).
  - by destruct (uniqueDelete _ _ _ _ _ _).
  - by destruct (uniqueDeleteInstance _ _ _ _).
Qed.

Lemma constraint_error_kind uc d :
  IsCaosError (constraint_error uc d) = true ∧
  parent_of (constraint_error uc d) = Some d ∧
  if is_Add uc && isUniqueViolationError d
  then kind_of (constraint_error uc d) = Some AlreadyExists ∧
       message_of (constraint_error uc d) = Some (Text (ErrorMessage uc))
  else kind_of (constraint_error uc d) = Some Internal.
Proof.
  unfold constraint_error, is_Add.
  destruct (Action uc), (isUniqueViolationError d); done.
Qed.

Lemma constraintStatement_inr ctx env n tbl uc tbl' :
  constraintStatement ToLower ctx env n tbl uc = inr tbl' → stmt_fault env n = None.
Proof.
  unfold constraintStatement, uniqueInsert, uniqueDelete, uniqueDeleteInstance.
  by destruct (Action uc), (stmt_fault env n).
Qed.


Lemma handleUniqueConstraints_range_no_fault ctx env n tbl ucs tbl' :
  handleUniqueConstraints_range ToLower ctx env n tbl ucs = inr tbl' →
  ∀ j, (j < length ucs)%nat → stmt_fault env (n + j) = None.
Proof.
  revert n tbl. induction ucs as [|uc ucs IH]; intros n tbl; simpl; [intros; lia|].
  rewrite handleUniqueConstraint_statement.
  destruct (constraintStatement ToLower ctx env n tbl uc) as [d|t] eqn:Hst; [done|].
  intros Hrest [|j] Hj.
  - rewrite Nat.add_0_r. by eapply constraintStatement_inr.
  - replace (n + S j)%nat with (S n + j)%nat by lia. eapply IH; [done|lia].
Qed.




(** ** The claims about Push *)


(** C2.  A Push that fails leaves the store as it found it, and the failure
    of any statement of the batch, be it the insert of an event or the
    application of a unique constraint, makes Push fail: no part of a failing
    batch is in the store afterwards. *)
Theorem Push_all_or_nothing ctx env db commands evs err db' :
  Push ToLower ctx env db commands = (evs, err, db') →
  is_Some err ∨ a_statement_fails env commands →
  is_Some err ∧ db' = db.
Proof.
  intros HPush Hfail.
  destruct (Push_cases _ _ _ _ _ _ _ HPush)
    as [?|(-> & _ & _ & ucs & rows & tbl & Hloop & Huc & ->)]; [done|].
  destruct Hfail as [[? [=]]|(k & Hk & Hfault)]. exfalso.
  apply pushCommands_ok in Hloop as (new & -> & Hlen & -> & Hnew).
  rewrite handleUniqueConstraints_eq in Huc.
  destruct (decide (k < length commands)%nat) as [Hlt|Hge].
  - destruct (lookup_lt_is_Some_2 commands k Hlt) as [c Hc].
    destruct (Hnew k c Hc) as (data & row & _ & Hins & _).
    apply crdbInsert_inr in Hins as [Hnone _]. simpl in Hnone.
    rewrite Hnone in Hfault. by destruct Hfault.
  - unfold statements in Hk.
    pose proof (handleUniqueConstraints_range_no_fault _ _ _ _ _ _ Huc
                  (k - length commands)%nat) as Hnone.
    replace (length commands + (k - length commands))%nat with k in Hnone by lia.
    rewrite Hnone in Hfault by lia. by destruct Hfault.
Qed.




End WithToLower.

(** ** Filter *)

Lemma Sorted_take {A} (R : relation A) (l : list A) n : Sorted R l → Sorted R (take n l).
Proof.
  intros H. revert n. induction H as [|x l Hl IH Hhd]; intros [|n]; simpl; try by constructor.
  constructor; [done|]. destruct Hhd; destruct n; simpl; by constructor.
Qed.

Lemma order_le_total keys : Total (λ a b : EventRow, order_le keys a b).
Proof.
  intros a b. induction keys as [|[f d] keys IH]; simpl; [by left|].
  destruct d; destruct (Z.ltb_spec (f a) (f b)), (Z.ltb_spec (f b) (f a)); simpl; try lia; auto.
Qed.

Lemma order_by_sorted keys rows :
  Sorted (λ a b : EventRow, order_le keys a b) (order_by keys rows).
Proof. apply Sorted_merge_sort, order_le_total. Qed.

Lemma orderByEventSequence_keys desc :
  parse_order_by (orderByEventSequence desc) ≫= resolve_order_by = Some (commit_keys desc).
Proof. by destruct desc. Qed.

Lemma order_le_commit_order desc (a b : EventRow) :
  order_le (commit_keys desc) a b →
  if desc then commit_order (scanEvent b) (scanEvent a)
  else commit_order (scanEvent a) (scanEvent b).
Proof.
  unfold commit_order; destruct desc; simpl;
    repeat match goal with |- context [?x <? ?y] => destruct (Z.ltb_spec x y) end;
    simpl; intros; try done; lia.
Qed.

Lemma query_sorted fault searchQuery rows selected :
  query fault searchQuery rows = inr selected →
  Sorted (λ a b : EventRow, order_le (commit_keys (Desc searchQuery)) a b) selected.
Proof.
  unfold query. destruct fault; [done|].
  rewrite orderByEventSequence_keys. intros [= <-].
  destruct (Limit searchQuery); [|apply Sorted_take]; apply order_by_sorted.
Qed.

Lemma not_sequence_alone desc :
  ∃ evs, Filter None {| Desc := desc; Limit := 0; Where := λ _, true |} interleaved = inr evs ∧
    ¬ Sorted (if desc then flip sequence_order else sequence_order) evs.
Proof.
  destruct desc; eexists; (split; [vm_compute; reflexivity|]).
  - intros [_ H]%Sorted_inv.
    apply HdRel_inv in H. unfold flip, sequence_order in H. simpl in H. lia.
  - intros [[_ H]%Sorted_inv _]%Sorted_inv.
    apply HdRel_inv in H. unfold sequence_order in H. simpl in H. lia.
Qed.

(** C5.  The events Filter returns are in commit order, commit timestamp
    first and sequence second: ascending for a replay, descending otherwise.
    The order is not that of the sequence alone: on the store [interleaved]
    the result is out of sequence order for either value of the flag. *)
Theorem Filter_commit_order fault searchQuery rows evs :
  Filter fault searchQuery rows = inr evs →
  (if replay searchQuery then Sorted commit_order evs else Sorted (flip commit_order) evs) ∧
  ∀ desc, ∃ evs',
    Filter None {| Desc := desc; Limit := 0; Where := λ _, true |} interleaved = inr evs' ∧
    ¬ Sorted (if desc then flip sequence_order else sequence_order) evs'.
Proof.
  intros HFilter. split; [|apply not_sequence_alone].
  revert HFilter. unfold Filter.
  destruct (query fault searchQuery rows) as [?|selected] eqn:Hq; [done|].
  intros [= <-]. apply query_sorted in Hq. unfold replay.
  destruct (Desc searchQuery) eqn:Hdesc; simpl;
    (eapply Sorted_fmap; [|exact Hq]);
    intros a b Hab; exact (order_le_commit_order _ a b Hab).
Qed.

End EventstoreProperties.

(* ===================================================================== *)
(** * The event store on sample batches *)
(* ===================================================================== *)

Module EventstoreSamples.
Import Errors Eventstore EventstoreProperties.
Import Sample.

Example Push_batch_sequences :
  event_sequence <$> events (Push ToLower ctx env with_bob batch).2 = [1; 2; 1].
Proof. vm_compute. reflexivity. Qed.

Example Push_batch_resource_owners :
  resource_owner <$> events (Push ToLower ctx env with_bob batch).2 = ["org1"; "org1"; "org1"].
Proof. vm_compute. reflexivity. Qed.

Example Push_stores_lowercased :
  unique_constraints with_bob
  = [{| unique_type := "usernames"; unique_field := "bob"; unique_instance_id := "i1" |}].
Proof. vm_compute. reflexivity. Qed.

Example Push_batch_stores_lowercased :
  unique_constraints (Push ToLower ctx env with_bob batch).2
  = [{| unique_type := "usernames"; unique_field := "bob"; unique_instance_id := "i1" |};
     {| unique_type := "usernames"; unique_field := "alice"; unique_instance_id := "i1" |}].
Proof. vm_compute. reflexivity. Qed.

Example Push_duplicate_AlreadyExists :
  (Push ToLower ctx env with_bob duplicate).1.2
  = Some (ThrowAlreadyExists (Some (PqError "23505")) "SQL-M0dsf" "Errors.User.AlreadyExists")
  ∧ (Push ToLower ctx env with_bob duplicate).2 = with_bob.
Proof. vm_compute. done. Qed.

Example Push_lost_connection_rolls_back :
  (Push ToLower ctx (env_failing_at 1) empty [UserCreated "u1" "org1" "Bob"; UserRenamed "u1" "org1"]).2
  = empty.
Proof. vm_compute. reflexivity. Qed.


Lemma Push_all_or_nothing_witness :
  let commands := [UserCreated "u1" "org1" "Bob"; UserRenamed "u1" "org1"] in
  let r := Push ToLower ctx (env_failing_at 1) empty commands in
  Push ToLower ctx (env_failing_at 1) empty commands = (r.1.1, r.1.2, r.2) ∧
  (is_Some r.1.2 ∨ a_statement_fails (env_failing_at 1) commands) ∧
  is_Some r.1.2 ∧ r.2 = empty.
Proof.
  intros commands r.
  assert (a_statement_fails (env_failing_at 1) commands) as Hfails.
  { exists 1%nat. split; [vm_compute; lia|]. eexists. vm_compute. reflexivity. }
  split; [reflexivity|]. split; [by right|].
  exact (Push_all_or_nothing ToLower ctx (env_failing_at 1) empty commands r.1.1 r.1.2 r.2
           eq_refl (or_intror Hfails)).
Defined.




Lemma Filter_commit_order_witness :
  let searchQuery := {| Desc := false; Limit := 2; Where := λ _, true |} in
  Filter None searchQuery interleaved = inr (scanEvent <$> take 2 interleaved) ∧
  (if replay searchQuery
   then Sorted commit_order (scanEvent <$> take 2 interleaved)
   else Sorted (flip commit_order) (scanEvent <$> take 2 interleaved)) ∧
  ∀ desc, ∃ evs',
    Filter None {| Desc := desc; Limit := 0; Where := λ _, true |} interleaved = inr evs' ∧
    ¬ Sorted (if desc then flip sequence_order else sequence_order) evs'.
Proof.
  intros searchQuery.
  assert (Filter None searchQuery interleaved = inr (scanEvent <$> take 2 interleaved)) as HFilter
    by (vm_compute; reflexivity).
  split; [exact HFilter|].
  exact (Filter_commit_order None searchQuery interleaved _ HFilter).
Defined.

End EventstoreSamples.

(* ===================================================================== *)
(** * Properties of the statements and the reducers *)
(* ===================================================================== *)

Module ProjectionProperties.
Import Errors Repository Handler Projection.

#[local] Arguments matches : simpl never.

(** ** Assigning columns *)

Lemma set_columns_lookup_notin values (row : Row) k :
  k ∉ Column_Name <$> values → set_columns values row !! k = row !! k.
Proof.
  induction values as [|c values IH]; simpl; [done|].
  intros [Hne Hnotin]%not_elem_of_cons. rewrite lookup_insert_ne by done. auto.
Qed.

Lemma set_columns_lookup_in values (row row' : Row) k :
  k ∈ Column_Name <$> values → set_columns values row !! k = set_columns values row' !! k.
Proof.
  induction values as [|c values IH]; simpl; [by intros ?%elem_of_nil|].
  intros Hin. destruct (decide (Column_Name c = k)) as [<-|Hne].
  - by rewrite !lookup_insert_eq.
  - rewrite !lookup_insert_ne by done. apply IH.
    apply elem_of_cons in Hin as [?|?]; [congruence|done].
Qed.

Lemma set_columns_idemp values (row : Row) :
  set_columns values (set_columns values row) = set_columns values row.
Proof.
  apply map_eq. intros k. destruct (decide (k ∈ Column_Name <$> values)).
  - by apply set_columns_lookup_in.
  - by rewrite set_columns_lookup_notin.
Qed.

Lemma set_columns_lookup_elem values (row : Row) c :
  NoDup (Column_Name <$> values) → c ∈ values →
  set_columns values row !! Column_Name c = Some (value_of c).
Proof.
  induction values as [|c' values IH]; simpl; [by intros _ ?%elem_of_nil|].
  intros [Hnotin Hnodup]%NoDup_cons [->|Hin]%elem_of_cons.
  - by rewrite lookup_insert_eq.
  - rewrite lookup_insert_ne; [by apply IH|].
    intros Heq. apply Hnotin. rewrite Heq. by apply list_elem_of_fmap_2.
Qed.

Lemma set_columns_id values (row : Row) :
  (∀ c, c ∈ values → row !! Column_Name c = Some (value_of c)) →
  set_columns values row = row.
Proof.
  induction values as [|c values IH]; simpl; [done|].
  intros H. rewrite IH by (intros; apply H; by right).
  apply insert_id, H. by left.
Qed.

(** ** Keys *)

Lemma same_key_refl key (row : Row) : same_key key row row = true.
Proof. unfold same_key. by apply bool_decide_eq_true. Qed.

Lemma same_key_update key values (new row : Row) :
  same_key key new (set_columns (update_columns key values) row) = same_key key new row.
Proof.
  unfold same_key. apply bool_decide_ext.
  assert ((λ c, set_columns (update_columns key values) row !! c) <$> key
          = (λ c, row !! c) <$> key) as ->; [|done].
  apply list_fmap_ext. intros i k Hk. apply set_columns_lookup_notin.
  intros (c & -> & [Hc _]%list_elem_of_filter)%list_elem_of_fmap.
  apply Hc. by eapply list_elem_of_lookup_2.
Qed.

Lemma existsb_true {A} (f : A → bool) l : existsb f l = true ↔ ∃ x, x ∈ l ∧ f x = true.
Proof.
  rewrite existsb_exists. split; intros (x & ? & ?); exists x; by rewrite ?list_elem_of_In in *.
Qed.

(** ** Every kind of statement can be executed again *)

Lemma exec_idempotent tbl m rows :
  well_formed m → exec tbl m (exec tbl m rows) = exec tbl m rows.
Proof.
  destruct m as [values|conflictCols values|values conditions|conditions]; simpl; intros Hwf.
  - destruct (existsb _ rows) eqn:Hex; [by rewrite Hex|].
    rewrite existsb_app; simpl. by rewrite same_key_refl, orb_true_r.
  - set (key := Column_Name <$> conflictCols). set (new := set_columns values ∅).
    set (f := λ r : Row,
           if same_key key new r then set_columns (update_columns key values) r else r).
    assert (∀ r, same_key key new (f r) = same_key key new r) as Hkey.
    { intros r. unfold f. destruct (same_key key new r) eqn:Hr; [|done].
      by rewrite same_key_update. }
    assert (∀ r, f (f r) = f r) as Hff.
    { intros r. unfold f at 1. rewrite Hkey. unfold f.
      destruct (same_key key new r); [|done]. apply set_columns_idemp. }
    destruct (existsb (same_key key new) rows) eqn:Hex.
    + assert (existsb (same_key key new) (f <$> rows) = true) as ->.
      { apply existsb_true in Hex as (x & Hx & Hk). apply existsb_true.
        exists (f x). split; [by apply list_elem_of_fmap_2|]. by rewrite Hkey. }
      rewrite <- list_fmap_compose. apply list_fmap_ext. intros i r _. apply Hff.
    + rewrite existsb_app; simpl. rewrite same_key_refl, orb_true_r.
      rewrite fmap_app; simpl. f_equal.
      * rewrite <- (list_fmap_id rows) at 2. apply list_fmap_ext. intros i r Hr. unfold f.
        destruct (same_key key new r) eqn:Hk; [|done].
        assert (existsb (same_key key new) rows = true) as Hcontra; [|congruence].
        apply existsb_true. exists r. split; [by eapply list_elem_of_lookup_2|done].
      * unfold f. rewrite same_key_refl. f_equal. apply set_columns_id.
        intros c [_ Hc]%list_elem_of_filter. by apply set_columns_lookup_elem.
  - rewrite <- list_fmap_compose. apply list_fmap_ext. intros i r _. simpl.
    destruct (matches conditions r) eqn:Hr; [|by rewrite Hr].
    destruct (matches conditions (set_columns values r)); [apply set_columns_idemp|done].
  - induction rows as [|r rows IH]; [done|].
    rewrite filter_cons. case_decide as Hr; [|done].
    rewrite filter_cons, decide_True by done. by f_equal.
Qed.

(** ** The registered reducers *)

Ltac registered_cases H :=
  unfold registered in H; simpl in H;
  repeat (apply elem_of_cons in H as [->|H]); [..|by apply elem_of_nil in H].

Ltac projection_cases H :=
  unfold projections in H;
  repeat (apply elem_of_cons in H as [->|H]); [..|by apply elem_of_nil in H].

Lemma reduceBatch_halts dispatch pre event post reduce statements err s :
  dispatch event = Some reduce →
  reduce event = (s, Some err) →
  reduceBatch dispatch pre = (statements, None) →
  reduceBatch dispatch (pre ++ event :: post) = (statements, Some err).
Proof.
  intros Hd Hr. revert statements. induction pre as [|x pre IH]; intros statements; simpl.
  - intros [= <-]. rewrite Hd, Hr. by destruct s.
  - destruct (dispatch x) as [r|]; [|by apply IH].
    destruct (r x) as [[st|] [e|]]; try done; [|by apply IH].
    destruct (reduceBatch dispatch pre) as [sts e'] eqn:Hpre.
    intros [= <- ->]. by rewrite (IH sts eq_refl).
Qed.

Lemma registered_well_formed p reduce event statement :
  p ∈ projections → reduce ∈ registered p →
  reduce event = (Some statement, None) → well_formed (Execute statement).
Proof.
  intros Hp Hr. projection_cases Hp; registered_cases Hr;
    destruct event; intros [= <-]; try exact I.
  apply (bool_decide_unpack _). vm_compute. reflexivity.
Qed.

Lemma reduceExecutionSet_keeps_creation_date e Targets Includes statement :
  reduceExecutionSet (exec_SetEvent e Targets Includes) = (Some statement, None) →
  keeps_column ExecutionCreationDateCol executionProjection_Init statement.
Proof.
  intros [= <-] rows i row Hrow. simpl.
  match goal with |- context [existsb ?f rows] => destruct (existsb f rows) end.
  - rewrite list_lookup_fmap, Hrow. simpl.
    match goal with |- context [same_key ?k ?n row] => destruct (same_key k n row) end;
      [|by eexists].
    eexists. split; [done|]. by rewrite !lookup_insert_ne by done.
  - exists row. split; [|done]. by apply lookup_app_l_Some.
Qed.

Lemma sql_eq_VText (x : option Value) s :
  sql_eq (default VNull x) (VText s)
  = match x with Some (VText s') => bool_decide (s' = s) | _ => false end.
Proof.
  destruct x as [[]|]; simpl; try done.
  apply bool_decide_ext. naive_solver.
Qed.

Lemma reducePasswordChanged_matches e (row : Row) :
  matches [NewCond SessionColumnUserID (VText (Aggregate_ID (Aggregate e)));
           NewLessThanCond SessionColumnPasswordCheckedAt (VTimestamp (CreationDate e))] row
  = password_check_outdated e row.
Proof.
  unfold matches, password_check_outdated, forallb, holds.
  rewrite sql_eq_VText, andb_true_r.
  destruct (row !! SessionColumnUserID) as [[]|]; try done.
  destruct (row !! SessionColumnPasswordCheckedAt) as [[]|]; simpl; try done;
    by rewrite andb_false_r.
Qed.

(** ** The claims about the projections *)

(** C6.  Applying the statement a registered reducer of the execution or
    session projection produced a second time leaves the table as the first
    application left it.  In the upsert of the execution projection the
    column creation_date is marked set-only-on-insert, and executing the
    upsert leaves the creation_date of every row already in the table as it
    is, so an upsert repeated for a primary key keeps the creation date that
    was inserted first. *)
Theorem statements_idempotent p reduce event statement :
  p ∈ projections → reduce ∈ registered p →
  reduce event = (Some statement, None) →
  statements_replayable p statement.
Proof.
  intros Hp Hr Hreduce. split.
  - intros rows. apply exec_idempotent. by eapply registered_well_formed.
  - intros -> conflictCols values Hupsert.
    registered_cases Hr; destruct event; simplify_eq/=. split.
    + eexists. split; [by do 3 right; left|]. split; [done|].
      intros c' Hc'. repeat (apply elem_of_cons in Hc' as [->|Hc']); try done.
      by apply elem_of_nil in Hc'.
    + by eapply reduceExecutionSet_keeps_creation_date.
Qed.

(** C7.  Every reducer registered by the execution or the session projection
    expects one runtime type of event; handed an event of any other runtime
    type it returns no statement and an error of the InvalidArgument kind,
    and the batch the event is part of halts with that error instead of
    skipping the event. *)
Theorem reducers_reject_wrong_type p reduce :
  p ∈ projections → reduce ∈ registered p → wrong_type_is_invalid_argument reduce.
Proof.
  intros Hp Hr.
  projection_cases Hp; registered_cases Hr;
    match goal with
    | |- wrong_type_is_invalid_argument ?r =>
        match r with
        | reduceExecutionSet => exists T_exec_SetEvent
        | reduceExecutionRemoved => exists T_exec_RemovedEvent
        | reduceInstanceRemovedHelper _ => exists T_instance_InstanceRemovedEvent
        | reduceSessionAdded => exists T_session_AddedEvent
        | reduceUserChecked => exists T_session_UserCheckedEvent
        | reducePasswordChecked => exists T_session_PasswordCheckedEvent
        | reduceIntentChecked => exists T_session_IntentCheckedEvent
        | reduceWebAuthNChecked => exists T_session_WebAuthNCheckedEvent
        | reduceTOTPChecked => exists T_session_TOTPCheckedEvent
        | reduceTokenSet => exists T_session_TokenSetEvent
        | reduceMetadataSet => exists T_session_MetadataSetEvent
        | reduceSessionTerminated => exists T_session_TerminateEvent
        | reducePasswordChanged => exists T_user_HumanPasswordChangedEvent
        end
    end;
    intros event; (split; [intros Hty|intros Hty]);
    destruct event; simpl in Hty; try done;
    try (by eexists);
    (eexists; split_and!; [reflexivity|reflexivity|];
     intros dispatch pre post statements Hd Hpre;
     by eapply reduceBatch_halts).
Qed.

(** C10.  For a HumanPasswordChanged event the session projection produces
    an update which sets password_checked_at to NULL on exactly the session
    rows whose user_id is the aggregate ID of the event and whose
    password_checked_at is strictly earlier than the creation date of the
    event; every other row, and every other column of the rows it selects, is
    left as it is. *)
Theorem reducePasswordChanged_frame e :
  ∃ statement,
    reducePasswordChanged (user_HumanPasswordChangedEvent e) = (Some statement, None) ∧
    clears_outdated_password_checks e statement.
Proof.
  eexists. split; [reflexivity|]. intros rows rows'. subst rows'. simpl.
  split; [by rewrite length_fmap|]. intros i row Hrow.
  rewrite list_lookup_fmap, Hrow. simpl. eexists. split; [reflexivity|].
  rewrite reducePasswordChanged_matches.
  destruct (password_check_outdated e row); [|done].
  split; [by rewrite lookup_insert_eq|]. intros col Hcol. by rewrite lookup_insert_ne.
Qed.

End ProjectionProperties.

(* ===================================================================== *)
(** * The projections on sample events *)
(* ===================================================================== *)

Module ProjectionSamples.
Import Errors Repository Handler Projection ProjectionProperties.
Import Sample.

Example reducePasswordChanged_sessions :
  ∃ statement,
    reducePasswordChanged (user_HumanPasswordChangedEvent (password_changed "u1" 50))
      = (Some statement, None) ∧
    exec sessionProjection_Init (Execute statement)
      [session "s1" "u1" (VTimestamp 40); session "s2" "u1" (VTimestamp 60);
       session "s3" "u2" (VTimestamp 40); session "s4" "u1" VNull]
    = [session "s1" "u1" VNull; session "s2" "u1" (VTimestamp 60);
       session "s3" "u2" (VTimestamp 40); session "s4" "u1" VNull].
Proof. eexists. split; reflexivity. Qed.

Lemma statements_idempotent_witness :
  let event := exec_SetEvent an_execution ["target"] [] in
  let statement := default (NewDeleteStatement an_execution []) (reduceExecutionSet event).1 in
  executionProjection ∈ projections ∧
  reduceExecutionSet ∈ registered executionProjection ∧
  reduceExecutionSet event = (Some statement, None) ∧
  statements_replayable executionProjection statement.
Proof.
  intros event statement.
  assert (executionProjection ∈ projections) as Hp by apply list_elem_of_here.
  assert (reduceExecutionSet ∈ registered executionProjection) as Hr by apply list_elem_of_here.
  split_and!; [exact Hp|exact Hr|reflexivity|].
  exact (statements_idempotent executionProjection reduceExecutionSet event statement
           Hp Hr eq_refl).
Defined.

Lemma reducers_reject_wrong_type_witness :
  sessionProjection ∈ projections ∧
  reduceSessionAdded ∈ registered sessionProjection ∧
  wrong_type_is_invalid_argument reduceSessionAdded.
Proof.
  assert (sessionProjection ∈ projections) as Hp
    by apply list_elem_of_further, list_elem_of_here.
  assert (reduceSessionAdded ∈ registered sessionProjection) as Hr by apply list_elem_of_here.
  split_and!; [exact Hp|exact Hr|].
  exact (reducers_reject_wrong_type sessionProjection reduceSessionAdded Hp Hr).
Defined.

End ProjectionSamples.

(* ===================================================================== *)
(** * Properties of the query layer *)
(* ===================================================================== *)

Module QueryProperties.
Import Errors Handler Query.
Import Sample(execution_row, two_tenants).

Lemma run_subseteq (query : SelectBuilder) rows (row : Row) :
  row ∈ run query rows →
  row ∈ rows ∧ ∀ cond, cond ∈ wheres query → cond row = true.
Proof.
  unfold run. intros Hin.
  assert (row ∈ match orderBy query with
                | Some le => merge_sort (λ a b : Row, le a b)
                               (filter (λ r, forallb (λ cond, cond r) (wheres query) = true) rows)
                | None => filter (λ r, forallb (λ cond, cond r) (wheres query) = true) rows
                end) as Hord.
  { destruct (limit query); [|apply subseteq_take in Hin];
      by apply (subseteq_drop (offset query)). }
  assert (row ∈ filter (λ r, forallb (λ cond, cond r) (wheres query) = true) rows) as Hsel.
  { destruct (orderBy query); [|done]. by rewrite merge_sort_Permutation in Hord. }
  apply list_elem_of_filter in Hsel as [Hall Hrow]. split; [done|].
  intros cond Hcond. rewrite forallb_forall in Hall. apply Hall. by apply list_elem_of_In.
Qed.

Lemma scoped_by_instance (query : SelectBuilder) col instance rows (row : Row) :
  row ∈ run (addWhere (eval_Eq [(col, VText instance)]) query) rows →
  row !! name col = Some (VText instance).
Proof.
  intros [_ Hconds]%run_subseteq.
  specialize (Hconds (eval_Eq [(col, VText instance)])). simpl in Hconds.
  rewrite elem_of_app, list_elem_of_singleton in Hconds.
  specialize (Hconds (or_intror eq_refl)). unfold eval_Eq in Hconds. simpl in Hconds.
  rewrite andb_true_r, ProjectionProperties.sql_eq_VText in Hconds.
  destruct (row !! name col) as [[]|]; try done. by apply bool_decide_eq_true in Hconds as ->.
Qed.

(** The two searches are scoped by the instance of the calling context. *)
Lemma SearchExecutions_scoped ctx queries rows (row : Row) :
  row ∈ SearchExecutions_rows ctx queries rows → of_instance (ctx_InstanceID ctx) row.
Proof. apply scoped_by_instance. Qed.

Lemma SearchOrgs_scoped orgs instanceIDCol ctx queries rows (row : Row) :
  row ∈ SearchOrgs_rows orgs instanceIDCol ctx queries rows →
  row !! instanceIDCol = Some (VText (ctx_InstanceID ctx)).
Proof. apply scoped_by_instance. Qed.

(** [GetExecutionByID] does not look at the calling context. *)
Lemma GetExecutionByID_any_context ctx ctx' rows i resourceOwner :
  GetExecutionByID ctx rows i resourceOwner = GetExecutionByID ctx' rows i resourceOwner.
Proof. reflexivity. Qed.

(** C4.  [GetExecutionByID] filters instance_id by its resourceOwner argument
    and not by the instance of the calling context: called in the context of
    instance i1 with resource owner i2, it selects and returns the execution
    of instance i2. *)
Theorem GetExecutionByID_crosses_instances :
  let ctx := {| ctx_InstanceID := "i1" |} in
  GetExecutionByID_rows ctx two_tenants "request" "i2" = [execution_row "request" "i2" "i2" 20] ∧
  GetExecutionByID ctx two_tenants "request" "i2"
  = inr {| ID := "request"; CreationDate := 20; ChangeDate := 20; ResourceOwner := "i2";
           Sequence := 1; Targets := ["target"]; Includes := [] |} ∧
  ¬ of_instance (ctx_InstanceID ctx) (execution_row "request" "i2" "i2" 20).
Proof.
  intros ctx. split_and!.
  - reflexivity.
  - reflexivity.
  - unfold of_instance.
    assert (execution_row "request" "i2" "i2" 20 !! Projection.ExecutionInstanceIDCol
            = Some (VText "i2")) as -> by reflexivity.
    intros [=].
Qed.

End QueryProperties.

(* ===================================================================== *)
(** * Invariants of the stores Push builds *)
(* ===================================================================== *)

Module EventstoreInvariantsProperties.
Import Errors Eventstore EventstoreProperties EventstoreInvariants.

Lemma pushCommands_err ctx env i rows cmds evs ucs rows' err :
  pushCommands ctx env i rows cmds = (evs, ucs, rows', Some err) →
  IsCaosError err = false ∨ (IsCaosError err = true ∧ kind_of err = Some Internal).
Proof.
  revert i rows evs ucs rows'.
  induction cmds as [|c rest IH]; intros i rows evs ucs rows'; simpl; [done|].
  unfold pushCommand at 1.
  destruct (marshalPayload c) as [e|data] eqn:Hdata.
  { intros [= _ _ _ <-]. left. unfold marshalPayload in Hdata.
    destruct (Command_Payload c) as [[]|]; simpl in Hdata; by simplify_eq. }
  destruct (crdbInsert env i rows _) as [e|row]; [intros [= _ _ _ <-]; by right|].
  destruct (event_sequence row <? 0); [intros [= _ _ _ <-]; by right|].
  destruct (pushCommands ctx env (S i) (rows ++ [row]) rest)
    as [[[evs0 ucs0] rows0] err0] eqn:Hrec.
  intros [= _ _ _ ->]. eauto.
Qed.

Lemma filter_all {A} (P : A → Prop) `{∀ x, Decision (P x)} (l : list A) :
  (∀ x, x ∈ l → P x) → filter P l = l.
Proof.
  induction l as [|x l IH]; intros Hall; [done|].
  rewrite filter_cons, decide_True by (apply Hall; by left).
  f_equal. apply IH. intros y Hy. apply Hall. by right.
Qed.

Lemma appended_invariant (P : list EventRow → Prop) env rows new :
  (∀ rows n a row, P rows → crdbInsert env n rows a = inr row → P (rows ++ [row])) →
  P rows →
  (∀ j row, new !! j = Some row → ∃ n a, crdbInsert env n (rows ++ take j new) a = inr row) →
  P (rows ++ new).
Proof.
  intros Hstep Hrows. induction new as [|x new IH] using rev_ind; intros Hnew.
  - by rewrite app_nil_r.
  - rewrite app_assoc.
    destruct (Hnew (length new) x) as (n & a & Hins).
    { by rewrite lookup_app_r, Nat.sub_diag by lia. }
    rewrite take_app_length in Hins.
    eapply Hstep; [|done]. apply IH. intros j row Hj.
    destruct (Hnew j row) as (n' & a' & Hins'); [by apply lookup_app_l_Some|].
    exists n', a'. rewrite take_app_le in Hins'; [done|].
    apply lookup_lt_Some in Hj. lia.
Qed.

Lemma inserted_prefix env rows new j :
  (∀ j row, new !! j = Some row → ∃ n a, crdbInsert env n (rows ++ take j new) a = inr row) →
  ∀ j' row, take j new !! j' = Some row →
    ∃ n a, crdbInsert env n (rows ++ take j' (take j new)) a = inr row.
Proof.
  intros Hnew j' row Hrow. apply lookup_take_Some in Hrow as [Hrow Hlt].
  rewrite take_take, Nat.min_l by lia. by apply Hnew.
Qed.

Lemma gapless_positive rows r : gapless rows → r ∈ rows → 1 ≤ event_sequence r.
Proof.
  intros Hgap Hr.
  assert (event_sequence r ∈ sequences_of (aggregate_type r) (aggregate_id r) (instance_id r) rows)
    as Hin.
  { unfold sequences_of. apply list_elem_of_fmap. exists r. split; [done|].
    apply list_elem_of_filter. split; [|done]. by apply of_aggregate_true. }
  rewrite Hgap in Hin. apply elem_of_seqZ in Hin. lia.
Qed.

Lemma crdbInsert_previous env n rows a row :
  crdbInsert env n rows a = inr row →
  previous_aggregate_sequence row
  = event_sequence <$> order_by_event_sequence_desc_limit_1
      (filter (λ r, of_aggregate (p2_aggregate_type a) (p3_aggregate_id a)
                      (p9_instance_id a) r = true) rows).
Proof.
  unfold crdbInsert. destruct (stmt_fault env n); [done|].
  destruct (max_int64 <? _); [done|]. by intros [= <-].
Qed.

Lemma crdbInsert_chained env n rows a row :
  gapless rows → crdbInsert env n rows a = inr row →
  1 ≤ event_sequence row ≤ max_int64 ∧
  Sequence_Scan (previous_aggregate_sequence row) = event_sequence row - 1.
Proof.
  intros Hgap Hins. rewrite (crdbInsert_previous _ _ _ _ _ Hins).
  apply crdbInsert_inr in Hins as (_ & _ & _ & _ & _ & _ & Hseq & _ & Hmax). simpl in Hseq.
  destruct (order_by_event_sequence_desc_limit_1 _) as [best|] eqn:Hbest; simpl in *.
  - apply latest_Some in Hbest as [[_ Hin]%list_elem_of_filter _].
    pose proof (gapless_positive _ _ Hgap Hin). unfold max_int64 in *.
    rewrite Z.mod_small by lia. lia.
  - unfold max_int64. lia.
Qed.

Lemma one_resource_owner_insert env n rows a row :
  one_resource_owner rows → crdbInsert env n rows a = inr row →
  one_resource_owner (rows ++ [row]).
Proof.
  intros Hone Hins.
  assert (∀ r, r ∈ rows → aggregate_type r = aggregate_type row →
            aggregate_id r = aggregate_id row → instance_id r = instance_id row →
            resource_owner r = resource_owner row) as Hnew.
  { intros r Hr Hty Hid Hinst.
    destruct (crdbInsert_resource_owner _ _ _ _ _ Hins) as [(prev & (Hp & Hk & _) & ->)|[Hnone _]].
    - apply of_aggregate_true in Hk as (? & ? & ?). apply Hone; congruence.
    - specialize (Hnone r Hr).
      assert (of_aggregate (aggregate_type row) (aggregate_id row) (instance_id row) r = true)
        by by apply of_aggregate_true.
      congruence. }
  intros r1 r2 [H1|H1%list_elem_of_singleton]%elem_of_app
               [H2|H2%list_elem_of_singleton]%elem_of_app ? ? ?; subst; auto.
  symmetry. by apply Hnew.
Qed.

Lemma of_aggregate_of_instance p2 p3 p9 rows :
  filter (λ r, of_aggregate p2 p3 p9 r = true) rows
  = filter (λ r, of_aggregate p2 p3 p9 r = true) (instance_rows p9 rows).
Proof.
  unfold instance_rows. rewrite list_filter_filter. apply list_filter_iff.
  intros r. rewrite of_aggregate_true. intuition congruence.
Qed.

Lemma of_aggregate_type_of_instance p2 p9 rows :
  filter (λ r, of_aggregate_type p2 p9 r = true) rows
  = filter (λ r, of_aggregate_type p2 p9 r = true) (instance_rows p9 rows).
Proof.
  unfold instance_rows. rewrite list_filter_filter. apply list_filter_iff.
  intros r. unfold of_aggregate_type. rewrite andb_true_iff, !bool_decide_eq_true.
  intuition congruence.
Qed.

Lemma crdbInsert_of_instance env n rows1 rows2 a :
  instance_rows (p9_instance_id a) rows1 = instance_rows (p9_instance_id a) rows2 →
  crdbInsert env n rows1 a = crdbInsert env n rows2 a.
Proof.
  intros Hview. unfold crdbInsert, select_previous_data.
  rewrite (of_aggregate_of_instance _ _ _ rows1), (of_aggregate_type_of_instance _ _ rows1).
  rewrite (of_aggregate_of_instance _ _ _ rows2), (of_aggregate_type_of_instance _ _ rows2).
  by rewrite Hview.
Qed.

Lemma pushCommands_of_instances ctx env i rows1 rows2 cmds evs ucs rows1' err :
  same_instances ctx cmds rows1 rows2 →
  pushCommands ctx env i rows1 cmds = (evs, ucs, rows1', err) →
  ∃ new, rows1' = rows1 ++ new ∧
    pushCommands ctx env i rows2 cmds = (evs, ucs, rows2 ++ new, err).
Proof.
  revert i rows1 rows2 evs ucs rows1' err.
  induction cmds as [|c rest IH]; intros i rows1 rows2 evs ucs rows1' err Hsame; simpl.
  { intros [= <- <- <- <-]. exists []. by rewrite !app_nil_r. }
  unfold pushCommand.
  destruct (marshalPayload c) as [e|data].
  { intros [= <- <- <- <-]. exists []. by rewrite !app_nil_r. }
  rewrite <- (crdbInsert_of_instance env i rows1 rows2) by (apply Hsame; by left).
  destruct (crdbInsert env i rows1 _) as [e|row].
  { intros [= <- <- <- <-]. exists []. by rewrite !app_nil_r. }
  destruct (event_sequence row <? 0).
  { intros [= <- <- <- <-]. exists []. by rewrite !app_nil_r. }
  destruct (pushCommands ctx env (S i) (rows1 ++ [row]) rest)
    as [[[evs0 ucs0] rows0] err0] eqn:Hrec.
  intros [= <- <- <- <-].
  assert (same_instances ctx rest (rows1 ++ [row]) (rows2 ++ [row])) as Hsame'.
  { intros c' Hc'. unfold instance_rows. rewrite !filter_app. f_equal. apply Hsame. by right. }
  destruct (IH _ _ _ _ _ _ _ Hsame' Hrec) as (new & -> & Hrec2).
  exists (row :: new). rewrite Hrec2, <- !app_assoc. done.
Qed.

Lemma pushCommands_filled_prefix ctx env i rows cmds evs ucs rows' err :
  pushCommands ctx env i rows cmds = (evs, ucs, rows', err) →
  ∃ new,
    length evs = length cmds ∧ (length new ≤ length cmds)%nat ∧
    (∀ j c, (j < length new)%nat → cmds !! j = Some c →
       ∃ data row,
         marshalPayload c = inr data ∧
         crdbInsert env (i + j) (rows ++ take j new) (insertArgs (newEvent ctx c data) data)
           = inr row ∧
         new !! j = Some row ∧
         evs !! j = Some (Some (scanReturning (newEvent ctx c data) row))) ∧
    (∀ j, (length new ≤ j < length cmds)%nat → evs !! j = Some None) ∧
    ((length new < length cmds)%nat →
       ∃ c e, cmds !! length new = Some c ∧
         pushCommand ctx env (i + length new) (rows ++ new) c = inl e) ∧
    (err = None → length new = length cmds).
Proof.
  revert i rows evs ucs rows' err.
  induction cmds as [|c rest IH]; intros i rows evs ucs rows' err; simpl.
  - intros [= <- _ _ <-]. exists []. simpl.
    split_and!; [done|lia|intros; lia|intros; lia|lia|done].
  - destruct (pushCommand ctx env i rows c) as [e|[e row]] eqn:Hone.
    + intros [= <- _ _ <-]. exists []. simpl. rewrite length_replicate.
      split_and!; [done|lia|intros; lia| | |done].
      * intros j Hj. apply (lookup_replicate_2 (S (length rest))). lia.
      * intros _. exists c, e. by rewrite Nat.add_0_r, app_nil_r.
    + destruct (pushCommands ctx env (S i) (rows ++ [row]) rest)
        as [[[evs0 ucs0] rows0] err0] eqn:Hrec.
      intros [= <- _ _ <-].
      destruct (IH _ _ _ _ _ _ Hrec) as (new & Hlen & Hle & Hnew & Hnil & Hfail & Hok).
      exists (row :: new). simpl. split_and!; [by f_equal|lia| | | |].
      * intros [|j] c' Hj Hc; simpl in *.
        -- injection Hc as <-. unfold pushCommand in Hone.
           destruct (marshalPayload c) as [?|data]; [done|].
           destruct (crdbInsert env i rows _) as [?|row'] eqn:Hins; [done|].
           destruct (event_sequence row' <? 0); [done|]. injection Hone as <- <-.
           exists data, row'. by rewrite Nat.add_0_r, app_nil_r.
        -- destruct (Hnew j c' ltac:(lia) Hc) as (data' & row' & ? & Hins' & ? & ?).
           exists data', row'. split_and!; try done.
           rewrite <- Hins'. f_equal; [lia|]. by rewrite <- app_assoc.
      * intros [|j] Hj; [lia|]. simpl. apply Hnil. lia.
      * intros Hlt. destruct Hfail as (c' & e' & Hc' & He'); [lia|].
        exists c', e'. split; [done|]. rewrite <- He'. f_equal; [lia|].
        by rewrite <- app_assoc.
      * intros Herr. f_equal. by apply Hok.
Qed.

Section WithToLower.
Variable ToLower : string → string.

Lemma handleUniqueConstraints_range_err ctx env n tbl ucs err :
  handleUniqueConstraints_range ToLower ctx env n tbl ucs = inl err →
  ∃ uc d m tbl', uc ∈ ucs ∧ constraintStatement ToLower ctx env m tbl' uc = inl d ∧
    err = constraint_error uc d.
Proof.
  revert n tbl. induction ucs as [|uc ucs IH]; intros n tbl; simpl; [done|].
  rewrite handleUniqueConstraint_statement.
  destruct (constraintStatement ToLower ctx env n tbl uc) as [d|t] eqn:Hst.
  - intros [= <-]. exists uc, d, n, tbl. split_and!; [by left|done..].
  - intros (uc' & d & m & tbl' & Hin & ? & ?)%IH. exists uc', d, m, tbl'. split_and!; [by right|done..].
Qed.

Lemma constraint_error_internal_or_already_exists commands c uc d :
  c ∈ commands → uc ∈ Command_UniqueConstraints c →
  internal_or_already_exists commands (constraint_error uc d).
Proof.
  intros Hc Huc. destruct (constraint_error_kind uc d) as (Hcaos & Hparent & Hkind).
  split; [done|]. destruct (is_Add uc && isUniqueViolationError d) eqn:Hb; [|by left].
  right. destruct Hkind as [Hk Hm]. split; [done|].
  apply andb_true_iff in Hb as [Hadd Hviol]. exists c, uc, d. split_and!; try done.
  unfold is_Add in Hadd. by destruct (Action uc).
Qed.

Lemma Push_error_internal_or_already_exists ctx env db commands evs err db' :
  foreign_faults env →
  Push ToLower ctx env db commands = (evs, Some err, db') →
  internal_or_already_exists commands err.
Proof.
  intros (Hbegin & Hcommit & Hstmt). unfold Push, pushTx.
  destruct (begin_fault env) as [e|] eqn:Hb.
  { rewrite (Hbegin e eq_refl). intros [= _ <- _]. split; [done|by left]. }
  destruct (pushCommands ctx env 0 (events db) commands)
    as [[[evs0 ucs0] rows0] [e|]] eqn:Hloop.
  { apply pushCommands_err in Hloop as [Hf|[Ht Hk]].
    - rewrite Hf. intros [= _ <- _]. split; [done|by left].
    - rewrite Ht. intros [= _ <- _]. split; [done|by left]. }
  apply pushCommands_ok in Hloop as (new & -> & Hlen & -> & Hnew).
  rewrite handleUniqueConstraints_eq.
  destruct (handleUniqueConstraints_range ToLower ctx env (length commands)
              (unique_constraints db) _) as [e|tbl] eqn:Huc.
  { apply handleUniqueConstraints_range_err in Huc as (uc & d & m & tbl' & Hin & Hst & ->).
    apply list_elem_of_bind in Hin as (c & Huc & Hc).
    pose proof (constraint_error_internal_or_already_exists commands c uc d Hc Huc) as Hres.
    destruct Hres as [Hcaos Hres]. rewrite Hcaos. intros [= _ <- _]. by split. }
  destruct (commit_fault env) as [e|] eqn:Hc; [|done].
  rewrite (Hcommit e eq_refl). intros [= _ <- _]. split; [done|by left].
Qed.


Lemma pushed_one_resource_owner db : pushed ToLower db → one_resource_owner (events db).
Proof.
  induction 1 as [|ctx env db commands Hdb IH].
  { intros r1 r2 Hr1. by apply elem_of_nil in Hr1. }
  destruct (Push ToLower ctx env db commands) as [[evs err] db'] eqn:HPush. simpl.
  apply Push_appended in HPush as (new & -> & Hnew).
  eapply (appended_invariant one_resource_owner); [|done..].
  intros; by eapply one_resource_owner_insert.
Qed.

(** X2.  In a store built by Push all events of an aggregate instance have
    the same resource owner: the owner an aggregate got with its first event
    is never changed by a later command, whatever owner that command
    declares. *)
Theorem Push_resource_owner_never_changes ctx env db commands evs err db' :
  pushed ToLower db →
  Push ToLower ctx env db commands = (evs, err, db') →
  one_resource_owner (events db').
Proof.
  intros Hdb HPush.
  change db' with (evs, err, db').2. rewrite <- HPush.
  apply pushed_one_resource_owner. by constructor.
Qed.

(** X3.  On a store built by Push, every event a successful Push returns has
    a sequence between 1 and the largest BIGINT, and its
    PreviousAggregateSequence is that sequence minus 1 (0 for the first event
    of an aggregate instance). *)
Theorem Push_events_chained ctx env db commands evs db' i e :
  pushed ToLower db →
  Push ToLower ctx env db commands = (evs, None, db') →
  evs !! i = Some (Some e) →
  chained e.
Proof.
  intros Hdb HPush Hev.
  apply Push_cases in HPush as [[[? [=]] _]|(_ & _ & _ & ucs & rows & tbl & Hloop & _ & ->)].
  pose proof (pushCommands_length _ _ _ _ _ _ _ _ _ Hloop) as Hlen.
  apply pushCommands_ok in Hloop as (new & -> & Hlen' & _ & Hnew).
  destruct (lookup_lt_is_Some_2 commands i) as [c Hc].
  { apply lookup_lt_Some in Hev. lia. }
  destruct (Hnew i c Hc) as (data & row & _ & Hins & Hrow & Hev').
  assert (e = scanReturning (newEvent ctx c data) row) as -> by congruence.
  unfold chained; simpl. eapply crdbInsert_chained; [|exact Hins].
  eapply gapless_appended; [by apply (pushed_gapless ToLower)|].
  apply inserted_prefix. intros j r Hr.
  destruct (lookup_lt_is_Some_2 commands j) as [c' Hc'].
  { apply lookup_lt_Some in Hr. lia. }
  destruct (Hnew j c' Hc') as (? & r' & _ & ? & ? & _).
  assert (r' = r) as -> by congruence. eauto.
Qed.

(** X4.  Push reads, of the events table, only the rows of the instances its
    commands belong to: on two stores that hold the same events for those
    instances (and the same unique constraints) it returns the same events and
    the same error, and appends the same rows. *)
Theorem Push_reads_own_instances ctx env db1 db2 commands :
  same_instances ctx commands (events db1) (events db2) →
  unique_constraints db1 = unique_constraints db2 →
  let r1 := Push ToLower ctx env db1 commands in
  let r2 := Push ToLower ctx env db2 commands in
  r1.1 = r2.1 ∧
  unique_constraints r1.2 = unique_constraints r2.2 ∧
  ∃ new, events r1.2 = events db1 ++ new ∧ events r2.2 = events db2 ++ new.
Proof.
  intros Hsame Htbl. unfold Push, pushTx. rewrite <- Htbl.
  destruct (begin_fault env) as [e|]; simpl.
  { split_and!; [done..|]. exists []. by rewrite !app_nil_r. }
  destruct (pushCommands ctx env 0 (events db1) commands)
    as [[[evs ucs] rows] err] eqn:Hloop.
  destruct (pushCommands_of_instances _ _ _ _ _ _ _ _ _ _ Hsame Hloop) as (new & -> & ->).
  destruct err as [e|]; simpl.
  { split_and!; [done..|]. exists []. by rewrite !app_nil_r. }
  destruct (handleUniqueConstraints ToLower ctx env _ _ ucs) as [e|tbl]; simpl.
  { split_and!; [done..|]. exists []. by rewrite !app_nil_r. }
  destruct (commit_fault env) as [e|]; simpl.
  { split_and!; [done..|]. exists []. by rewrite !app_nil_r. }
  split_and!; [done..|]. by exists new.
Qed.

(** X5.  In one run of the transaction, whatever way Push ends, the slice
    it returns has one slot per command; the slots of the commands inserted
    before the first failure hold, in the order of the commands, the event
    built from the command and completed from the row inserted for it, and
    the slots from the failing command on are nil.  If Push returns no error
    every slot is filled. *)
Theorem Push_returns_filled_prefix ctx env db commands :
  ∃ new,
    filled_prefix ctx env (events db) commands
      (Push ToLower ctx env db commands).1.1 new ∧
    ((Push ToLower ctx env db commands).1.2 = None → length new = length commands).
Proof.
  unfold Push, pushTx.
  destruct (begin_fault env) as [e|] eqn:Hbegin.
  { exists []. split; [|by destruct (IsCaosError e)]. cbn [fst snd]. unfold filled_prefix.
    simpl. rewrite length_replicate.
    split_and!; [done|lia|intros; lia| |by left; eexists].
    intros j Hj. apply lookup_replicate_2. lia. }
  destruct (pushCommands ctx env 0 (events db) commands)
    as [[[evs ucs] rows] err] eqn:Hloop.
  apply pushCommands_filled_prefix in Hloop
    as (new & Hlen & Hle & Hnew & Hnil & Hfail & Hok).
  exists new.
  assert (filled_prefix ctx env (events db) commands evs new) as Hfilled.
  { split_and!; [done..|]. intros Hlt. right. by apply Hfail. }
  destruct err as [e|]; cbn [fst snd].
  { split; [done|]. by destruct (IsCaosError e). }
  destruct (handleUniqueConstraints ToLower ctx env _ _ ucs) as [e|tbl]; cbn [fst snd].
  { split; [done|]. by destruct (IsCaosError e). }
  destruct (commit_fault env) as [e|]; cbn [fst snd]; (split; [done|]); intros; by apply Hok.
Qed.

Lemma handleUniqueConstraint_table_ok ctx env n tbl uc tbl' :
  unique_table_ok ToLower tbl →
  handleUniqueConstraint ToLower ctx env n tbl uc = inr tbl' →
  unique_table_ok ToLower tbl'.
Proof.
  intros [Hnodup Hlower]. unfold handleUniqueConstraint.
  destruct (Action uc).
  - unfold uniqueInsert. destruct (stmt_fault env n) as [e|];
      [by destruct (isUniqueViolationError e)|].
    case_bool_decide as Hin; [by destruct (isUniqueViolationError _)|]. intros [= <-]. split.
    + apply NoDup_app. split_and!; [done| |apply NoDup_singleton].
      intros x Hx Hx'%list_elem_of_singleton. by subst.
    + intros row [Hrow|Hrow%list_elem_of_singleton]%elem_of_app; [auto|].
      subst. by eexists.
  - unfold uniqueDelete. destruct (stmt_fault env n); [done|]. intros [= <-]. split.
    + by apply NoDup_filter.
    + intros row [_ Hrow]%list_elem_of_filter. auto.
  - unfold uniqueDeleteInstance. destruct (stmt_fault env n); [done|]. intros [= <-]. split.
    + by apply NoDup_filter.
    + intros row [_ Hrow]%list_elem_of_filter. auto.
Qed.

Lemma handleUniqueConstraints_table_ok ctx env n tbl ucs tbl' :
  unique_table_ok ToLower tbl →
  handleUniqueConstraints ToLower ctx env n tbl ucs = inr tbl' →
  unique_table_ok ToLower tbl'.
Proof.
  rewrite handleUniqueConstraints_eq. revert n tbl.
  induction ucs as [|uc ucs IH]; intros n tbl Hok; simpl; [by intros [= <-]|].
  destruct (handleUniqueConstraint ToLower ctx env n tbl uc) as [e|t] eqn:Huc; [done|].
  apply IH. by eapply handleUniqueConstraint_table_ok.
Qed.

Lemma pushed_unique_table_ok db :
  pushed ToLower db → unique_table_ok ToLower (unique_constraints db).
Proof.
  induction 1 as [|ctx env db commands Hdb IH].
  { split; [constructor|]. intros row Hrow. by apply elem_of_nil in Hrow. }
  destruct (Push ToLower ctx env db commands) as [[evs err] db'] eqn:HPush. simpl.
  apply Push_cases in HPush as [[_ ->]|(_ & _ & _ & ucs & rows & tbl & _ & Huc & ->)]; [done|].
  by eapply handleUniqueConstraints_table_ok.
Qed.

(** X6.  In a store built by Push the unique constraints table holds no row
    twice, and every field in it is a lowercased text: the uniqueness of
    (type, field, instance) holds up to the case of the field. *)
Theorem Push_unique_table_invariant ctx env db commands evs err db' :
  pushed ToLower db →
  Push ToLower ctx env db commands = (evs, err, db') →
  unique_table_ok ToLower (unique_constraints db').
Proof.
  intros Hdb HPush.
  change db' with (evs, err, db').2. rewrite <- HPush.
  apply pushed_unique_table_ok. by constructor.
Qed.

(** X7.  Adding a unique constraint that is free and removing it again, in
    whatever case the field is written, leaves the unique constraints table as
    it was. *)
Theorem handleUniqueConstraints_add_remove ctx env n tbl add remove :
  withdraws ToLower add remove →
  lowercased_row ToLower ctx add ∉ tbl →
  stmt_fault env n = None → stmt_fault env (S n) = None →
  handleUniqueConstraints ToLower ctx env n tbl [add; remove] = inr tbl.
Proof.
  intros (Hadd & Hremove & Hty & Hfield) Hfree Hn HSn. simpl.
  unfold handleUniqueConstraint. rewrite Hadd, Hremove. unfold uniqueInsert, uniqueDelete.
  rewrite Hn, HSn. fold (lowercased_row ToLower ctx add).
  rewrite bool_decide_eq_false_2 by done. f_equal.
  rewrite filter_app, filter_cons, filter_nil.
  rewrite decide_False, app_nil_r.
  2: { intros H. apply H. simpl. by rewrite Hty, Hfield. }
  apply filter_all. intros [ty f inst] Hr (Hty' & Hf & Hinst). simpl in *. subst.
  apply Hfree. unfold lowercased_row. by rewrite Hty, Hfield.
Qed.

End WithToLower.
End EventstoreInvariantsProperties.

(* ===================================================================== *)
(** * Properties of the SQL text helpers *)
(* ===================================================================== *)

Module SQLTextProperties.
Import Errors SQLText.

Lemma FindAllStringIndex_from_nil pos query :
  FindAllStringIndex_from pos query = [] → "?"%char ∉ query.
Proof.
  revert pos. induction query as [|c rest IH]; intros pos; simpl; [by intros _ ?%elem_of_nil|].
  case_bool_decide; [done|]. intros Hrest%IH. by apply not_elem_of_cons.
Qed.

Lemma FindAllStringIndex_from_cons pos query s e ls :
  FindAllStringIndex_from pos query = (s, e) :: ls →
  ∃ seg rest, query = seg ++ ("?"%char :: rest) ∧ ("?"%char ∉ seg) ∧
    s = (pos + length seg)%nat ∧ e = S s ∧ FindAllStringIndex_from e rest = ls.
Proof.
  revert pos. induction query as [|c query IH]; intros pos; simpl; [done|].
  case_bool_decide as Hc.
  - intros [= <- <- <-]. exists [], query. subst c.
    split_and!; [done|by intros ?%elem_of_nil|simpl; lia|done|done].
  - intros (seg & rest & -> & Hseg & -> & -> & Hls)%IH.
    exists (c :: seg), rest.
    split_and!; [done|by apply not_elem_of_cons|simpl; lia|done|done].
Qed.

Lemma number_from_id k query : "?"%char ∉ query → number_from k query = query.
Proof.
  induction query as [|c query IH]; simpl; [done|].
  intros [Hc Hq]%not_elem_of_cons. rewrite bool_decide_eq_false_2 by done. by rewrite IH.
Qed.

Lemma number_from_app k seg rest :
  "?"%char ∉ seg →
  number_from k (seg ++ "?"%char :: rest) = seg ++ "$"%char :: Itoa k ++ number_from (S k) rest.
Proof.
  induction seg as [|c seg IH]; simpl.
  - done.
  - intros [Hc Hq]%not_elem_of_cons. rewrite bool_decide_eq_false_2 by done. by rewrite IH.
Qed.

Lemma slice_middle (a seg rest : bytes) :
  slice (a ++ seg ++ rest) (length a) (length a + length seg) = seg.
Proof.
  unfold slice. rewrite drop_app_length.
  replace (length a + length seg - length a)%nat with (length seg) by lia.
  by rewrite take_app_length.
Qed.

Lemma placeholder_range_cons query occurances i l rest replaced :
  placeholder_range query occurances i (l :: rest) replaced
  = placeholder_range query occurances (S i) rest
      (replaced ++ "$"%char :: Itoa (i + 1) ++
         slice query l.2
           (if (i <? length occurances - 1)%nat
            then (default (0%nat, 0%nat) (occurances !! (i + 1)%nat)).1
            else length query)).
Proof. done. Qed.

Lemma placeholder_range_numbers (query : bytes) occurances done_ s e ls a rest replaced :
  occurances = done_ ++ (s, e) :: ls →
  query = a ++ "?"%char :: rest →
  s = length a → e = S s →
  FindAllStringIndex_from e rest = ls →
  placeholder_range query occurances (length done_) ((s, e) :: ls) replaced
  = replaced ++ "$"%char :: Itoa (length done_ + 1) ++ number_from (length done_ + 2) rest.
Proof.
  revert done_ s e a rest replaced.
  induction ls as [|[s2 e2] ls IH]; intros done_ s e a rest replaced Hocc Hq Hs He Hls.
  - rewrite placeholder_range_cons. cbn [placeholder_range snd].
    apply FindAllStringIndex_from_nil in Hls.
    rewrite (number_from_id _ _ Hls).
    rewrite Hocc, length_app. simpl.
    rewrite (proj2 (Nat.ltb_ge _ _)) by lia.
    do 3 f_equal. unfold slice. subst. simpl.
    rewrite length_app. simpl.
    replace (S (length a)) with (length (a ++ ["?"%char])) by (rewrite length_app; simpl; lia).
    rewrite (app_assoc a ["?"%char] rest : a ++ "?"%char :: rest = (a ++ ["?"%char]) ++ rest).
    rewrite drop_app_length. apply take_ge. rewrite length_app. simpl. lia.
  - apply FindAllStringIndex_from_cons in Hls as (seg & rest2 & -> & Hseg & -> & -> & Hls).
    rewrite placeholder_range_cons.
    assert (length occurances = (length done_ + S (S (length ls)))%nat) as Hlen
      by (rewrite Hocc, length_app; simpl; lia).
    rewrite Hlen, (proj2 (Nat.ltb_lt _ _)) by lia.
    assert (occurances !! (length done_ + 1)%nat = Some ((e + length seg)%nat, S (e + length seg)))
      as ->.
    { rewrite Hocc, lookup_app_r by lia.
      by replace (length done_ + 1 - length done_)%nat with 1%nat by lia. }
    cbn [from_option id fst snd].
    assert (slice query e (e + length seg) = seg) as ->.
    { assert (query = (a ++ ["?"%char]) ++ seg ++ ("?"%char :: rest2)) as ->
        by (subst query; by rewrite <- app_assoc).
      assert (e = length (a ++ ["?"%char])) as ->
        by (rewrite length_app; simpl; lia).
      apply slice_middle. }
    replace (S (length done_)) with (length (done_ ++ [(s, e)]))
      by (rewrite length_app; simpl; lia).
    rewrite (IH (done_ ++ [(s, e)]) (e + length seg)%nat (S (e + length seg))
                (a ++ "?"%char :: seg) rest2).
    + rewrite length_app. simpl. rewrite number_from_app by done.
      rewrite <- !app_assoc. simpl. rewrite <- !app_assoc.
      replace (length done_ + 1 + 1)%nat with (length done_ + 2)%nat by lia.
      replace (length done_ + 1 + 2)%nat with (S (length done_ + 2))%nat by lia.
      done.
    + by rewrite <- app_assoc.
    + subst query. by rewrite <- app_assoc.
    + rewrite length_app. simpl. lia.
    + done.
    + done.
Qed.

Lemma placeholder_number_from query :
  placeholder query = String.string_of_list_ascii (number_from 1 (String.list_ascii_of_string query)).
Proof.
  unfold placeholder, FindAllStringIndex.
  destruct (FindAllStringIndex_from 0 (String.list_ascii_of_string query)) as [|[s e] ls] eqn:Hocc.
  - apply FindAllStringIndex_from_nil in Hocc.
    by rewrite number_from_id, String.string_of_list_ascii_of_string.
  - f_equal.
    pose proof Hocc as (seg & rest & Hq & Hseg & Hs & He & Hls)%FindAllStringIndex_from_cons.
    rewrite (placeholder_range_numbers _ _ [] s e ls seg rest); try done.
    simpl. rewrite Hq, number_from_app by done. f_equal.
    unfold slice. rewrite drop_0. simpl in Hs. subst s.
    by rewrite Nat.sub_0_r, take_app_length.
Qed.

Lemma pretty_N_char_digit x : pretty_N_char x ≠ "?"%char.
Proof. destruct x as [|p]; [done|]. repeat (destruct p as [p|p|]; try done). Qed.

Lemma pretty_N_go_no_question_mark x s :
  "?"%char ∉ String.list_ascii_of_string s →
  "?"%char ∉ String.list_ascii_of_string (pretty_N_go x s).
Proof.
  revert s. induction (N.lt_wf_0 x) as [x _ IH]; intros s Hs.
  destruct (decide (x = 0)%N) as [->|].
  - by rewrite pretty_N_go_0.
  - rewrite pretty_N_go_step by lia. apply IH.
    + apply N.div_lt; lia.
    + simpl. apply not_elem_of_cons. split; [|done].
      intros Heq. by apply (pretty_N_char_digit (x `mod` 10)%N).
Qed.

Lemma Itoa_no_question_mark n : "?"%char ∉ Itoa n.
Proof.
  unfold Itoa, pretty, pretty_nat, pretty, pretty_N.
  case_decide.
  - simpl. intros [|[]%elem_of_nil]%elem_of_cons. done.
  - apply pretty_N_go_no_question_mark. simpl. by intros ?%elem_of_nil.
Qed.

Lemma number_from_no_question_mark k query : "?"%char ∉ number_from k query.
Proof.
  revert k. induction query as [|c query IH]; intros k; simpl; [by intros ?%elem_of_nil|].
  case_bool_decide.
  - apply not_elem_of_cons. split; [done|].
    rewrite elem_of_app. intros [?%Itoa_no_question_mark|?%IH]; done.
  - apply not_elem_of_cons. split; [congruence|apply IH].
Qed.

(** X10.  [placeholder] numbers the question marks of a query from the left:
    the k-th one becomes [$k] and every other byte is kept, so the result
    is the query with its placeholders renamed to $1, $2, ... *)
Theorem placeholder_numbers query :
  placeholder query
  = String.string_of_list_ascii (number_from 1 (String.list_ascii_of_string query)).
Proof. apply placeholder_number_from. Qed.

(** X11.  The text [placeholder] returns contains no question mark: every
    one of them has been replaced. *)
Theorem placeholder_replaces_all query :
  "?"%char ∉ String.list_ascii_of_string (placeholder query).
Proof.
  rewrite placeholder_number_from, String.list_ascii_of_string_of_list_ascii.
  apply number_from_no_question_mark.
Qed.

End SQLTextProperties.

(* ===================================================================== *)
(** * Properties of CreateInstance *)
(* ===================================================================== *)

Module RegexpProperties.
Import SQLText Regexp.

Lemma nullable_lang r : nullable r = true ↔ lang r [].
Proof.
  split.
  - induction r; simpl; try done; try by constructor.
    + intros [?|?]%orb_true_iff; [apply lang_Alternate_l|apply lang_Alternate_r]; auto.
    + intros [??]%andb_true_iff. apply (lang_Concat _ _ [] []); auto.
  - intros H. remember [] as s eqn:Hs. induction H; simpl; try done.
    + rewrite IHlang by done. done.
    + rewrite IHlang by done. by rewrite orb_true_r.
    + apply app_eq_nil in Hs as [-> ->]. by rewrite IHlang1, IHlang2.
Qed.

Lemma lang_Star_inv r c s :
  lang (Star r) (c :: s) →
  ∃ s1 s2, s = s1 ++ s2 ∧ lang r (c :: s1) ∧ lang (Star r) s2.
Proof.
  intros H. remember (Star r) as r' eqn:Hr. remember (c :: s) as s' eqn:Hs.
  revert s Hs. induction H; intros s' Hs; try done.
  injection Hr as ->. destruct s1 as [|c1 s1].
  - simpl in Hs. by apply IHlang2.
  - injection Hs as -> <-. by exists s1, s2.
Qed.

Lemma lang_Concat_inv r1 r2 s :
  lang (Concat r1 r2) s → ∃ s1 s2, s = s1 ++ s2 ∧ lang r1 s1 ∧ lang r2 s2.
Proof. inversion 1; subst. eauto. Qed.

Lemma deriv_lang c r s : lang (deriv c r) s ↔ lang r (c :: s).
Proof.
  revert s. induction r as [| |c'|lo hi|r1 IH1 r2 IH2|r1 IH1 r2 IH2|r IH]; intros s; simpl.
  - split; inversion 1.
  - split; inversion 1.
  - case_bool_decide as Hc; split; inversion 1; subst; try done; constructor.
  - destruct (in_range lo hi c) eqn:Hc; split; inversion 1; subst; try congruence;
      by constructor.
  - split; inversion 1; subst.
    + apply lang_Alternate_l. by apply IH1.
    + apply lang_Alternate_r. by apply IH2.
    + apply lang_Alternate_l. by apply IH1.
    + apply lang_Alternate_r. by apply IH2.
  - assert (lang (Concat (deriv c r1) r2) s → lang (Concat r1 r2) (c :: s)) as Hstep.
    { inversion 1; subst. apply (lang_Concat _ _ (c :: _)); [by apply IH1|done]. }
    assert (lang (Concat r1 r2) (c :: s) →
            lang (Concat (deriv c r1) r2) s ∨ (lang r1 [] ∧ lang r2 (c :: s))) as Hinv.
    { intros (s1 & s2 & Heq & H1 & H2)%lang_Concat_inv.
      destruct s1 as [|c1 s1]; simpl in Heq.
      - subst s2. by right.
      - injection Heq as <- ->. left. constructor; [by apply IH1|done]. }
    destruct (nullable r1) eqn:Hnull.
    + split.
      * inversion 1; subst; [by apply Hstep|].
        apply (lang_Concat _ _ []); [by apply nullable_lang|by apply IH2].
      * intros [?|[_ ?]]%Hinv; [by apply lang_Alternate_l|].
        apply lang_Alternate_r. by apply IH2.
    + split; [done|]. intros [?|[Hn _]]%Hinv; [done|].
      apply nullable_lang in Hn. congruence.
  - split.
    + inversion 1; subst. apply (lang_Star_cons _ (c :: _)); [by apply IH|done].
    + intros (s1 & s2 & -> & H1 & H2)%lang_Star_inv. constructor; [by apply IH|done].
Qed.

Lemma matchPrefix_lang r s :
  matchPrefix r s = true ↔ ∃ m v, s = m ++ v ∧ lang r m.
Proof.
  revert r. induction s as [|c s IH]; intros r; simpl.
  - rewrite orb_false_r, nullable_lang. split.
    + intros ?. by exists [], [].
    + intros (m & v & [-> ->]%eq_sym%app_eq_nil & ?). done.
  - rewrite orb_true_iff, nullable_lang, IH. split.
    + intros [?|(m & v & -> & ?%deriv_lang)].
      * by exists [], (c :: s).
      * by exists (c :: m), v.
    + intros ([|c' m] & v & Heq & Hm); [by left|right].
      injection Heq as <- ->. exists m, v. split; [done|]. by apply deriv_lang.
Qed.

Lemma MatchBytes_lang r s :
  MatchBytes r s = true ↔ ∃ u m v, s = u ++ m ++ v ∧ lang r m.
Proof.
  induction s as [|c s IH]; cbn [MatchBytes].
  - rewrite orb_false_r, matchPrefix_lang. split.
    + intros (m & v & -> & ?). by exists [], m, v.
    + intros (u & m & v & Heq & ?). symmetry in Heq.
      apply app_eq_nil in Heq as [-> Heq]. exists m, v. done.
  - rewrite orb_true_iff, matchPrefix_lang, IH. split.
    + intros [(m & v & -> & ?)|(u & m & v & -> & ?)].
      * by exists [], m, v.
      * by exists (c :: u), m, v.
    + intros ([|c' u] & m & v & Heq & Hm).
      * left. by exists m, v.
      * right. injection Heq as <- ->. by exists u, m, v.
Qed.

Lemma lang_Literals s m : lang (Literals s) m ↔ m = String.list_ascii_of_string s.
Proof.
  unfold Literals. revert m.
  induction (String.list_ascii_of_string s) as [|c l IH]; intros m; simpl.
  - split; [by inversion 1|intros ->; constructor].
  - split.
    + intros (s1 & s2 & -> & H1 & ->%IH)%lang_Concat_inv. by inversion H1.
    + intros ->. apply (lang_Concat _ _ [c]); [constructor|by apply IH].
Qed.

End RegexpProperties.

Module InstanceProperties.
Import Errors SQLText Regexp RegexpProperties Instance.

Lemma list_ascii_of_string_app a b :
  String.list_ascii_of_string (a +:+ b)
  = String.list_ascii_of_string a ++ String.list_ascii_of_string b.
Proof. induction a as [|c a IH]; simpl; [done|]. by rewrite IH. Qed.

Lemma append_assoc (a b c : string) : (a +:+ b) +:+ c = a +:+ b +:+ c.
Proof.
  induction a as [|x a IH]; [done|].
  change (String x ((a +:+ b) +:+ c) = String x (a +:+ b +:+ c)). by rewrite IH.
Qed.

Lemma CONCAT_bytes instanceID :
  String.list_ascii_of_string (CONCAT instanceID)
  = String.list_ascii_of_string "eventstore.i_"
      ++ String.list_ascii_of_string instanceID ++ String.list_ascii_of_string "_seq".
Proof. unfold CONCAT. by rewrite !list_ascii_of_string_app. Qed.

Lemma lang_class m : lang class m ↔ ∃ c, m = [c] ∧ alphanumeric c.
Proof.
  unfold class, alphanumeric. split.
  - inversion 1 as [| | |? ? ? H1|? ? ? H1| | |]; subst.
    + inversion H1; subst. eauto.
    + inversion H1 as [| | |? ? ? H2|? ? ? H2| | |]; subst; inversion H2; subst; eauto.
  - intros (c & -> & [?|[?|?]]).
    + apply lang_Alternate_l. by constructor.
    + apply lang_Alternate_r, lang_Alternate_l. by constructor.
    + apply lang_Alternate_r, lang_Alternate_r. by constructor.
Qed.

Lemma lang_Star_class m : lang (Star class) m ↔ Forall alphanumeric m.
Proof.
  split.
  - intros H. remember (Star class) as r eqn:Hr. induction H; try done.
    injection Hr as ->. apply Forall_app. split; [|by apply IHlang2].
    apply lang_class in H as (c & -> & ?). by constructor.
  - induction 1 as [|c m Hc _ IH]; [constructor|].
    apply (lang_Star_cons _ [c]); [|done]. apply lang_class. eauto.
Qed.

Lemma lang_Plus_class m : lang (Plus class) m ↔ m ≠ [] ∧ Forall alphanumeric m.
Proof.
  unfold Plus. split.
  - intros (s1 & s2 & -> & (c & -> & Hc)%lang_class & H2%lang_Star_class)%lang_Concat_inv.
    split; [done|]. by constructor.
  - intros [Hne Hall]. destruct Hall as [|c m Hc Hm]; [done|].
    apply (lang_Concat _ _ [c]); [|by apply lang_Star_class]. apply lang_class. eauto.
Qed.

Lemma lang_instanceRegexp m : lang instanceRegexp m ↔ sequence_name m.
Proof.
  unfold instanceRegexp, sequence_name. split.
  - intros (s1 & s2 & -> & ->%lang_Literals & H2)%lang_Concat_inv.
    apply lang_Concat_inv in H2 as (p & s3 & -> & [??]%lang_Plus_class & ->%lang_Literals).
    by exists p.
  - intros (p & -> & ? & ?). constructor; [by apply lang_Literals|].
    constructor; [by apply lang_Plus_class|by apply lang_Literals].
Qed.

Lemma MatchString_instanceRegexp s :
  MatchString instanceRegexp s = true ↔ contains_sequence_name s.
Proof.
  unfold MatchString, contains_sequence_name. rewrite MatchBytes_lang.
  by setoid_rewrite lang_instanceRegexp.
Qed.

Lemma CreateInstance_accepts env instanceID :
  scan_fault env = None →
  contains_sequence_name (CONCAT instanceID) →
  CreateInstance env instanceID
  = (["CREATE SEQUENCE " +:+ CONCAT instanceID],
     (λ e, ThrowInternal (Some e) "SQL-7gtFA" "Errors.Internal") <$> exec_fault env).
Proof.
  intros Hscan Hname%MatchString_instanceRegexp. unfold CreateInstance.
  rewrite Hscan, Hname. simpl. by destruct (exec_fault env).
Qed.

(** X12.  For an instance ID made of one or more letters and digits,
    [CreateInstance] hands exactly one statement to the database, the
    creation of the sequence [eventstore.i_<id>_seq]; it fails only when
    that statement fails, with an Internal error around the cause. *)
Theorem CreateInstance_creates_sequence env instanceID :
  scan_fault env = None →
  instanceID ≠ EmptyString →
  Forall alphanumeric (String.list_ascii_of_string instanceID) →
  CreateInstance env instanceID
  = (["CREATE SEQUENCE eventstore.i_" +:+ instanceID +:+ "_seq"],
     (λ e, ThrowInternal (Some e) "SQL-7gtFA" "Errors.Internal") <$> exec_fault env).
Proof.
  intros Hscan Hne Hall. rewrite CreateInstance_accepts; [done..|].
  exists [], (String.list_ascii_of_string (CONCAT instanceID)), [].
  split; [by rewrite app_nil_r|].
  exists (String.list_ascii_of_string instanceID). split_and!; [apply CONCAT_bytes| |done].
  by destruct instanceID.
Qed.

(** X13.  [CreateInstance] hands no statement to the database exactly when
    reading the sequence name failed or the name contains no text of the
    form [eventstore.i_<letters and digits>_seq]; it then returns an
    InvalidArgument error around the read error. *)
Theorem CreateInstance_rejects env instanceID :
  ((CreateInstance env instanceID).1 = [] ↔
     scan_fault env ≠ None ∨ ¬ contains_sequence_name (CONCAT instanceID)) ∧
  ((CreateInstance env instanceID).1 = [] →
     (CreateInstance env instanceID).2
     = Some (ThrowInvalidArgument (scan_fault env) "SQL-7gtFA" "Errors.InvalidArgument")).
Proof.
  destruct (scan_fault env) as [e|] eqn:Hscan.
  - unfold CreateInstance. rewrite Hscan. simpl. split; [|done]. split; [by left|done].
  - destruct (MatchString instanceRegexp (CONCAT instanceID)) eqn:Hm.
    + pose proof Hm as Hname%MatchString_instanceRegexp.
      rewrite CreateInstance_accepts by done. simpl. split; [|done].
      split; [done|]. by intros [|].
    + assert (¬ contains_sequence_name (CONCAT instanceID)) as Hname.
      { intros ?%MatchString_instanceRegexp. congruence. }
      unfold CreateInstance. rewrite Hscan, Hm. simpl. split; [|done].
      split; [by right|done].
Qed.

(** X14.  With the empty instance ID [CreateInstance] creates nothing and
    returns an InvalidArgument error, whatever the database answers. *)
Theorem CreateInstance_empty_instance_id env :
  CreateInstance env EmptyString
  = ([], Some (ThrowInvalidArgument (scan_fault env) "SQL-7gtFA" "Errors.InvalidArgument")).
Proof. unfold CreateInstance. by destruct (scan_fault env). Qed.

(** X15.  The expression is not anchored: an instance ID that starts with
    letters and digits followed by [_seq] is accepted whatever comes after,
    and the whole of it becomes part of the statement. *)
Theorem CreateInstance_unanchored env prefix rest :
  scan_fault env = None →
  prefix ≠ EmptyString →
  Forall alphanumeric (String.list_ascii_of_string prefix) →
  CreateInstance env (prefix +:+ "_seq" +:+ rest)
  = (["CREATE SEQUENCE eventstore.i_" +:+ prefix +:+ "_seq" +:+ rest +:+ "_seq"],
     (λ e, ThrowInternal (Some e) "SQL-7gtFA" "Errors.Internal") <$> exec_fault env).
Proof.
  intros Hscan Hne Hall. rewrite CreateInstance_accepts; [|done|].
  - unfold CONCAT. by rewrite !append_assoc.
  - exists [], (String.list_ascii_of_string ("eventstore.i_" +:+ prefix +:+ "_seq")),
      (String.list_ascii_of_string (rest +:+ "_seq")).
    split.
    + rewrite CONCAT_bytes, !list_ascii_of_string_app. simpl. by rewrite <- !app_assoc.
    + exists (String.list_ascii_of_string prefix).
      split_and!; [by rewrite !list_ascii_of_string_app| |done].
      by destruct prefix.
Qed.

End InstanceProperties.

(* ===================================================================== *)
(** * Properties of package initialise *)
(* ===================================================================== *)

Module InitialiseProperties.
Import Errors Initialise.

Lemma readStmts_read_files stmts typ g :
  readStmts stmts typ g = read_files stmts typ statement_files g.
Proof. reflexivity. Qed.

Lemma readStmt_Some stmts typ step content :
  stmts !! statement_path typ step = Some content →
  readStmt stmts typ step = (content, None).
Proof. unfold readStmt, ReadFile, statement_path. by intros ->. Qed.

Lemma readStmt_None stmts typ step :
  stmts !! statement_path typ step = None →
  readStmt stmts typ step = (EmptyString, Some (GoError "file does not exist")).
Proof. unfold readStmt, ReadFile, statement_path. by intros ->. Qed.

Lemma store_eq v s g : store v s g v = s.
Proof. unfold store. by rewrite decide_True. Qed.

Lemma store_ne v v' s g : v' ≠ v → store v s g v' = g v'.
Proof. unfold store. intros. by rewrite decide_False. Qed.

(** Reading a list of files leaves the variables outside it alone. *)
Lemma read_files_other stmts typ files g v :
  v ∉ files.*1 → (read_files stmts typ files g).1 v = g v.
Proof.
  revert g. induction files as [|[v' step] files IH]; intros g; simpl; [done|].
  intros [Hne Hv]%not_elem_of_cons. unfold assign.
  destruct (readStmt stmts typ step) as [s [err|]]; simpl.
  - by apply store_ne.
  - rewrite IH by done. by apply store_ne.
Qed.

Lemma read_files_ok stmts typ files g :
  (read_files stmts typ files g).2 = None ↔
  ∀ v step, (v, step) ∈ files → is_Some (stmts !! statement_path typ step).
Proof.
  revert g. induction files as [|[v step] files IH]; intros g; simpl.
  - split; [|done]. by intros _ ? ? ?%elem_of_nil.
  - unfold assign. destruct (stmts !! statement_path typ step) as [content|] eqn:Hfile.
    + rewrite (readStmt_Some _ _ _ _ Hfile). simpl. rewrite IH. split.
      * intros Hall v' step' [[= -> ->]|?]%elem_of_cons; [by rewrite Hfile|by eapply Hall].
      * intros Hall v' step' ?. eapply Hall. by right.
    + rewrite (readStmt_None _ _ _ Hfile). simpl. split; [done|].
      intros Hall. specialize (Hall v step (list_elem_of_here _ _)).
      rewrite Hfile in Hall. by destruct Hall.
Qed.

Lemma read_files_values stmts typ files g v step :
  NoDup files.*1 →
  (read_files stmts typ files g).2 = None →
  (v, step) ∈ files →
  stmts !! statement_path typ step = Some ((read_files stmts typ files g).1 v).
Proof.
  revert g. induction files as [|[v' step'] files IH]; intros g Hnodup Hok Hin;
    [by apply elem_of_nil in Hin|].
  apply NoDup_cons in Hnodup as [Hfresh Hnodup]. simpl in *. unfold assign in *.
  destruct (stmts !! statement_path typ step') as [content|] eqn:Hfile.
  - rewrite (readStmt_Some _ _ _ _ Hfile) in *. simpl in *.
    apply elem_of_cons in Hin as [[= -> ->]|Hin].
    + rewrite read_files_other by done. by rewrite store_eq.
    + by apply IH.
  - by rewrite (readStmt_None _ _ _ Hfile) in Hok.
Qed.

Lemma read_files_missing stmts typ pre v step post g :
  NoDup (pre ++ (v, step) :: post).*1 →
  (∀ v' step', (v', step') ∈ pre → is_Some (stmts !! statement_path typ step')) →
  stmts !! statement_path typ step = None →
  let r := read_files stmts typ (pre ++ (v, step) :: post) g in
  r.2 = Some (GoError "file does not exist") ∧
  r.1 v = EmptyString ∧
  ∀ v' step', (v', step') ∈ post → r.1 v' = g v'.
Proof.
  revert g. induction pre as [|[v0 step0] pre IH]; intros g Hnodup Hpre Hfile; simpl in *.
  - unfold assign. rewrite (readStmt_None _ _ _ Hfile). simpl.
    apply NoDup_cons in Hnodup as [Hfresh _].
    split_and!; [done|by rewrite store_eq|].
    intros v' step' Hin. apply store_ne. intros ->. apply Hfresh.
    apply list_elem_of_fmap. by exists (v, step').
  - apply NoDup_cons in Hnodup as [Hfresh Hnodup]. unfold assign.
    destruct (Hpre v0 step0 (list_elem_of_here _ _)) as [content Hfile0].
    rewrite (readStmt_Some _ _ _ _ Hfile0). simpl.
    destruct (IH (store v0 content g) Hnodup) as (Herr & Hv & Hpost); [|done|].
    { intros v' step' ?. eapply Hpre. by right. }
    split_and!; [done..|].
    intros v' step' Hin. rewrite (Hpost v' step' Hin). apply store_ne. intros ->.
    apply Hfresh. rewrite fmap_app. apply elem_of_app. right. right.
    apply list_elem_of_fmap. by exists (v0, step').
Qed.

Lemma statement_files_NoDup : NoDup statement_files.*1.
Proof. compute_done. Qed.

(** X16.  [readStmts] returns no error exactly when all ten statement files
    of the database type are embedded, and then each package variable holds
    the content of its file. *)
Theorem readStmts_reads_all_files stmts typ g :
  ((readStmts stmts typ g).2 = None ↔
     ∀ v step, (v, step) ∈ statement_files → is_Some (stmts !! statement_path typ step)) ∧
  ((readStmts stmts typ g).2 = None →
     ∀ v step, (v, step) ∈ statement_files →
       stmts !! statement_path typ step = Some ((readStmts stmts typ g).1 v)).
Proof.
  rewrite readStmts_read_files. split; [apply read_files_ok|].
  intros Hok v step Hin. by apply read_files_values; [apply statement_files_NoDup|..].
Qed.

(** X17.  At the first statement file that is missing, [readStmts] stops
    with the read error: the variable of that file is set to the empty
    string, and the variables of the files after it keep the value they
    had. *)
Theorem readStmts_first_missing_file stmts typ g pre v step post :
  statement_files = pre ++ (v, step) :: post →
  (∀ v' step', (v', step') ∈ pre → is_Some (stmts !! statement_path typ step')) →
  stmts !! statement_path typ step = None →
  (readStmts stmts typ g).2 = Some (GoError "file does not exist") ∧
  (readStmts stmts typ g).1 v = EmptyString ∧
  ∀ v' step', (v', step') ∈ post → (readStmts stmts typ g).1 v' = g v'.
Proof.
  intros Hfiles Hpre Hfile. rewrite readStmts_read_files, Hfiles.
  apply read_files_missing; [|done..]. rewrite <- Hfiles. apply statement_files_NoDup.
Qed.

Section Steps.
Context {DB Config : Type}.
Variable Config_Type : Config → string.
Variable Connect : Config → bool → error + DB.

Lemma Init_app g db config (steps1 steps2 : list (Step DB Config)) :
  Init DB Config g db config (steps1 ++ steps2)
  = match Init DB Config g db config steps1 with
    | (db', Some err) => (db', Some err)
    | (db', None) => Init DB Config g db' config steps2
    end.
Proof.
  revert db. induction steps1 as [|step steps1 IH]; intros db; simpl; [done|].
  destruct (step g db config) as [db' [err|]]; [done|]. apply IH.
Qed.

Lemma Init_error g db config (steps : list (Step DB Config)) db' err :
  Init DB Config g db config steps = (db', Some err) →
  ∃ step db0, step ∈ steps ∧ step g db0 config = (db', Some err).
Proof.
  revert db. induction steps as [|step steps IH]; intros db; simpl; [done|].
  destruct (step g db config) as [db1 [err1|]] eqn:Hstep.
  - intros [= <- <-]. exists step, db. split; [by left|done].
  - intros (step' & db0 & ? & ?)%IH. exists step', db0. split; [by right|done].
Qed.

(** X18.  [Init] runs the steps in order, each on the database the one
    before left, and stops at the first that returns an error: the steps
    after it are not run and its error is the result. *)
Theorem Init_stops_at_first_error g db config (steps1 steps2 : list (Step DB Config))
    (step : Step DB Config) db1 db2 err :
  Init DB Config g db config steps1 = (db1, None) →
  step g db1 config = (db2, Some err) →
  Init DB Config g db config (steps1 ++ step :: steps2) = (db2, Some err).
Proof. intros H1 Hstep. rewrite Init_app, H1. simpl. by rewrite Hstep. Qed.

(** X19.  An error of [initialise] is the error of [Connect] or of one of
    the steps, which was run with the package variables as [readStmts] left
    them; a statement file that could not be read is not reported. *)
Theorem initialise_error_sources stmts g config (steps : list (Step DB Config)) g' db' err :
  initialise DB Config Config_Type Connect stmts g config steps = (g', db', Some err) →
  g' = (readStmts stmts (Config_Type config) g).1 ∧
  (Connect config true = inl err ∨
   ∃ step db0 db1, step ∈ steps ∧ step g' db0 config = (db1, Some err)).
Proof.
  unfold initialise. destruct (Connect config true) as [e|db].
  - intros [= <- <- <-]. split; [done|by left].
  - destruct (Init _ _ _ db config steps) as [db1 err1] eqn:HInit.
    intros [= <- <- ->]. split; [done|right].
    apply Init_error in HInit as (step & db0 & ? & ?). by exists step, db0, db1.
Qed.

End Steps.

End InitialiseProperties.

(* ===================================================================== *)
(** * Properties of the statements of the projections *)
(* ===================================================================== *)

Module ProjectionInvariantsProperties.
Import Errors Repository Handler Projection ProjectionProperties ProjectionInvariants.

#[local] Arguments matches : simpl never.

Lemma same_key_primary_key tbl (a b : Row) :
  same_key (PrimaryKey tbl) a b = bool_decide (primary_key tbl a = primary_key tbl b).
Proof. done. Qed.

Lemma primary_key_set_columns tbl values (row : Row) :
  Forall (λ c, Column_Name c ∉ PrimaryKey tbl) values →
  primary_key tbl (set_columns values row) = primary_key tbl row.
Proof.
  intros Hvalues. unfold primary_key. apply list_fmap_ext. intros i k Hk.
  apply set_columns_lookup_notin. intros (c & -> & Hc)%list_elem_of_fmap.
  rewrite Forall_forall in Hvalues. apply (Hvalues c Hc). by eapply list_elem_of_lookup_2.
Qed.

Lemma update_columns_off_key key values :
  Forall (λ c, Column_Name c ∉ key) (update_columns key values).
Proof. apply Forall_forall. by intros c [[? _] _]%list_elem_of_filter. Qed.

Lemma keys_unique_snoc tbl rows (new : Row) :
  keys_unique tbl rows →
  existsb (same_key (PrimaryKey tbl) new) rows = false →
  keys_unique tbl (rows ++ [new]).
Proof.
  unfold keys_unique. intros Hrows Hnew. rewrite fmap_app. apply NoDup_app.
  split_and!; [done| |apply NoDup_singleton].
  intros k (r & -> & Hr)%list_elem_of_fmap [= Heq]%list_elem_of_singleton.
  assert (existsb (same_key (PrimaryKey tbl) new) rows = true) as Hex; [|congruence].
  apply existsb_true. exists r. split; [done|].
  rewrite same_key_primary_key. by apply bool_decide_eq_true.
Qed.

Lemma exec_keys_unique tbl m rows :
  respects_key tbl m → keys_unique tbl rows → keys_unique tbl (exec tbl m rows).
Proof.
  destruct m as [values|conflictCols values|values conditions|conditions]; simpl;
    intros Hm Hrows.
  - destruct (existsb _ rows) eqn:Hex; [done|]. by apply keys_unique_snoc.
  - rewrite Hm. destruct (existsb _ rows) eqn:Hex; [|by apply keys_unique_snoc].
    unfold keys_unique. rewrite <- list_fmap_compose.
    erewrite list_fmap_ext; [exact Hrows|]. intros i r _. simpl.
    destruct (same_key _ _ r); [|done].
    apply primary_key_set_columns, update_columns_off_key.
  - unfold keys_unique. rewrite <- list_fmap_compose.
    erewrite list_fmap_ext; [exact Hrows|]. intros i r _. simpl.
    destruct (matches conditions r); [|done]. by apply primary_key_set_columns.
  - unfold keys_unique. eapply sublist_NoDup; [exact Hrows|].
    apply fmap_sublist, sublist_filter.
Qed.

Lemma registered_respects_key p reduce event statement :
  p ∈ projections → reduce ∈ registered p →
  reduce event = (Some statement, None) → respects_key (Init p) (Execute statement).
Proof.
  intros Hp Hr. projection_cases Hp; registered_cases Hr;
    destruct event; intros [= <-]; try exact I;
    apply (bool_decide_unpack _); vm_compute; reflexivity.
Qed.

(** X20.  Primary keys stay unique: executing the statement any registered
    reducer of the execution or the session projection produced on a table
    without two rows of the same primary key leaves such a table. *)
Theorem statements_keep_keys_unique p reduce event statement rows :
  p ∈ projections → reduce ∈ registered p →
  reduce event = (Some statement, None) →
  keys_unique (Init p) rows →
  keys_unique (Init p) (exec (Init p) (Execute statement) rows).
Proof.
  intros Hp Hr Hreduce. apply exec_keys_unique. by eapply registered_respects_key.
Qed.

(** ** The rows a statement leaves alone *)

Lemma other_rows_fmap p e (f : Row → Row) rows :
  (∀ r, ¬ row_of p e r → f r = r) →
  (∀ r, row_of p e r → row_of p e (f r)) →
  other_rows p e (f <$> rows) = other_rows p e rows.
Proof.
  intros Hother Hown. unfold other_rows. induction rows as [|r rows IH]; [done|].
  rewrite fmap_cons, !filter_cons, IH. destruct (decide (row_of p e r)) as [Hr|Hr].
  - rewrite (decide_False (P := ¬ row_of p e (f r))) by (intros H; by apply H, Hown).
    by rewrite (decide_False (P := ¬ row_of p e r)) by (intros H; by apply H).
  - by rewrite (Hother r Hr).
Qed.

Lemma other_rows_snoc p e rows (new : Row) :
  row_of p e new → other_rows p e (rows ++ [new]) = other_rows p e rows.
Proof.
  intros Hnew. unfold other_rows. rewrite filter_app, filter_cons.
  rewrite (decide_False (P := ¬ row_of p e new)) by (intros H; by apply H).
  by rewrite filter_nil, app_nil_r.
Qed.

Lemma other_rows_delete p e conditions rows :
  (∀ r, matches conditions r = true → row_of p e r) →
  other_rows p e (filter (λ r, matches conditions r = false) rows) = other_rows p e rows.
Proof.
  intros Hown. unfold other_rows. induction rows as [|r rows IH]; [done|].
  rewrite !filter_cons. destruct (matches conditions r) eqn:Hr.
  - rewrite (decide_False (P := true = false)) by done.
    by rewrite (decide_False (P := ¬ row_of p e r)) by (intros H; by apply H, Hown).
  - rewrite (decide_True (P := false = false)) by done. rewrite !filter_cons.
    destruct (decide (¬ row_of p e r)); by rewrite IH.
Qed.

Lemma row_of_set_columns p e values (row : Row) :
  Forall (λ c, Column_Name c ∉ PrimaryKey (Init p)) values →
  row_of p e row → row_of p e (set_columns values row).
Proof. unfold row_of. intros Hvalues <-. by apply primary_key_set_columns. Qed.

Lemma other_rows_update p e values conditions rows :
  Forall (λ c, Column_Name c ∉ PrimaryKey (Init p)) values →
  (∀ r, matches conditions r = true → row_of p e r) →
  other_rows p e ((λ r, if matches conditions r then set_columns values r else r) <$> rows)
  = other_rows p e rows.
Proof.
  intros Hvalues Hown. apply other_rows_fmap.
  - intros r Hr. destruct (matches conditions r) eqn:Hm; [|done]. by destruct Hr; apply Hown.
  - intros r Hr. destruct (matches conditions r); [|done]. by apply row_of_set_columns.
Qed.

Lemma session_key e :
  primary_key sessionProjection_Init (aggregate_key e)
  = [Some (VText (Aggregate_InstanceID (Aggregate e)));
     Some (VText (Aggregate_ID (Aggregate e)))].
Proof. reflexivity. Qed.

Lemma execution_key e :
  primary_key executionProjection_Init (aggregate_key e)
  = [Some (VText (Aggregate_InstanceID (Aggregate e)));
     Some (VText (Aggregate_ResourceOwner (Aggregate e)));
     Some (VText (Aggregate_ID (Aggregate e)))].
Proof. reflexivity. Qed.

Lemma sessionConditions_matches e (row : Row) :
  matches (sessionConditions e) row = true ↔ row_of sessionProjection e row.
Proof.
  unfold matches, sessionConditions, forallb, holds. rewrite !sql_eq_VText, andb_true_r.
  unfold row_of. simpl. rewrite session_key. unfold primary_key. simpl.
  unfold SessionColumnID, SessionColumnInstanceID.
  destruct (row !! "id") as [[]|]; destruct (row !! "instance_id") as [[]|]; simpl;
    rewrite ?andb_false_r; try (split; [done|by intros [=]]).
  rewrite andb_true_iff, !bool_decide_eq_true. split; [by intros [-> ->]|by intros [= -> ->]].
Qed.

Lemma executionConditions_matches e (row : Row) :
  matches [NewCond ExecutionInstanceIDCol (VText (Aggregate_InstanceID (Aggregate e)));
           NewCond ExecutionResourceOwnerCol (VText (Aggregate_ResourceOwner (Aggregate e)));
           NewCond ExecutionIDCol (VText (Aggregate_ID (Aggregate e)))] row = true
  ↔ row_of executionProjection e row.
Proof.
  unfold matches, forallb, holds. rewrite !sql_eq_VText, andb_true_r.
  unfold row_of. simpl. rewrite execution_key. unfold primary_key. simpl.
  unfold ExecutionIDCol, ExecutionInstanceIDCol, ExecutionResourceOwnerCol.
  destruct (row !! "id") as [[]|]; destruct (row !! "instance_id") as [[]|];
    destruct (row !! "resource_owner") as [[]|]; simpl;
    rewrite ?andb_false_r; try (split; [done|by intros [=]]).
  rewrite !andb_true_iff, !bool_decide_eq_true.
  split; [by intros (-> & -> & ->)|by intros [= -> -> ->]].
Qed.

Lemma other_rows_upsert p e conflictCols values rows :
  Column_Name <$> conflictCols = PrimaryKey (Init p) →
  row_of p e (set_columns values ∅) →
  other_rows p e (exec (Init p) (Upsert conflictCols values) rows) = other_rows p e rows.
Proof.
  intros Hkey Hnew. simpl. rewrite Hkey.
  destruct (existsb _ rows); [|by apply other_rows_snoc].
  apply other_rows_fmap.
  - intros r Hr. rewrite same_key_primary_key. case_bool_decide as Hsame; [|done].
    destruct Hr. unfold row_of. by rewrite <- Hsame.
  - intros r Hr. destruct (same_key _ _ r); [|done].
    apply row_of_set_columns; [apply update_columns_off_key|done].
Qed.

Lemma other_rows_create p e values rows :
  row_of p e (set_columns values ∅) →
  other_rows p e (exec (Init p) (Create values) rows) = other_rows p e rows.
Proof. intros Hnew. simpl. destruct (existsb _ rows); [done|by apply other_rows_snoc]. Qed.

Lemma delete_other_rows p e conditions rows :
  (∀ r, matches conditions r = true ↔ row_of p e r) →
  exec (Init p) (Delete conditions) rows = other_rows p e rows.
Proof.
  intros Hown. simpl. unfold other_rows. apply list_filter_iff. intros r.
  rewrite <- Hown. by destruct (matches conditions r).
Qed.

Lemma row_of_same_aggregate p e e' (row : Row) :
  Aggregate e' = Aggregate e → row_of p e' row ↔ row_of p e row.
Proof. unfold row_of, aggregate_key. by intros ->. Qed.

Lemma other_rows_same_aggregate p e e' rows :
  Aggregate e' = Aggregate e → other_rows p e' rows = other_rows p e rows.
Proof.
  intros Heq. unfold other_rows. apply list_filter_iff. intros r.
  by rewrite (row_of_same_aggregate p e e').
Qed.

Ltac reducers_of_cases H :=
  unfold reducers_of in H; simpl in H;
  repeat (apply elem_of_cons in H as [->|H]); [..|by apply elem_of_nil in H].

(** X21.  A statement reduced from an event of the execution or of the
    session aggregate touches the row of that execution or session only:
    the other rows of the table are the same, in the same order, before
    and after it is executed. *)
Theorem aggregate_statements_frame p a reduce event statement rows :
  p ∈ projections → a ∈ [exec_AggregateType; session_AggregateType] →
  reduce ∈ reducers_of p a →
  reduce event = (Some statement, None) →
  other_rows p (Statement_Event statement) (exec (Init p) (Execute statement) rows)
  = other_rows p (Statement_Event statement) rows.
Proof.
  intros Hp Ha Hr.
  projection_cases Hp; repeat (apply elem_of_cons in Ha as [->|Ha]);
    try (by apply elem_of_nil in Ha); reducers_of_cases Hr;
    destruct event; intros [= <-]; cbn [Execute Statement_Event NewCreateStatement
      NewUpsertStatement NewUpdateStatement NewDeleteStatement].
  all: first
    [ by apply other_rows_upsert
    | by apply other_rows_create
    | apply other_rows_delete; intros r; first
        [apply executionConditions_matches|apply sessionConditions_matches]
    | apply other_rows_update;
        [by apply (bool_decide_unpack _)|intros r; apply sessionConditions_matches] ].
Qed.

(** X22.  A session that is added and then terminated leaves no row: after
    the statements of the two events the table holds the rows of the other
    sessions, as they were. *)
Theorem session_added_then_terminated e User e' added terminated rows :
  reduceSessionAdded (session_AddedEvent e User) = (Some added, None) →
  reduceSessionTerminated (session_TerminateEvent e') = (Some terminated, None) →
  Aggregate e' = Aggregate e →
  exec sessionProjection_Init (Execute terminated)
    (exec sessionProjection_Init (Execute added) rows)
  = other_rows sessionProjection e rows.
Proof.
  intros [= <-] [= <-] Heq. cbn [Execute NewDeleteStatement NewCreateStatement].
  rewrite (delete_other_rows sessionProjection e') by apply sessionConditions_matches.
  rewrite (other_rows_same_aggregate _ e e') by done.
  by apply (other_rows_create sessionProjection).
Qed.

(** X23.  An execution that is set and then removed leaves no row: after the
    statements of the two events the table holds the rows of the other
    executions, as they were. *)
Theorem execution_set_then_removed e Targets Includes e' written removed rows :
  reduceExecutionSet (exec_SetEvent e Targets Includes) = (Some written, None) →
  reduceExecutionRemoved (exec_RemovedEvent e') = (Some removed, None) →
  Aggregate e' = Aggregate e →
  exec executionProjection_Init (Execute removed)
    (exec executionProjection_Init (Execute written) rows)
  = other_rows executionProjection e rows.
Proof.
  intros [= <-] [= <-] Heq. cbn [Execute NewDeleteStatement NewUpsertStatement].
  rewrite (delete_other_rows executionProjection e') by apply executionConditions_matches.
  rewrite (other_rows_same_aggregate _ e e') by done.
  by apply (other_rows_upsert executionProjection).
Qed.

End ProjectionInvariantsProperties.

(* ===================================================================== *)
(** * Properties of the queries *)
(* ===================================================================== *)

Module QuerySelectionProperties.
Import Errors Handler Query QueryProperties QuerySelection.

Lemma eval_Eq_instance col instance (row : Row) :
  eval_Eq [(col, VText instance)] row = true ↔ row !! name col = Some (VText instance).
Proof.
  unfold eval_Eq. simpl. rewrite andb_true_r, ProjectionProperties.sql_eq_VText.
  destruct (row !! name col) as [[]|]; try (split; [done|by intros [=]]).
  rewrite bool_decide_eq_true. split; [by intros ->|by intros [= ->]].
Qed.

Lemma forallb_app_true {A} (f : A → bool) l1 l2 :
  forallb f (l1 ++ l2) = true ↔ forallb f l1 = true ∧ forallb f l2 = true.
Proof. by rewrite forallb_app, andb_true_iff. Qed.

(** A SELECT with a condition sees the rows that satisfy it only. *)
Lemma run_addWhere_restrict cond query rows :
  run (addWhere cond query) rows
  = run (addWhere cond query) (filter (λ r, cond r = true) rows).
Proof.
  unfold run. cbn [wheres orderBy offset limit addWhere].
  assert (filter (λ r, forallb (λ c, c r) (wheres query ++ [cond]) = true)
            (filter (λ r, cond r = true) rows)
          = filter (λ r, forallb (λ c, c r) (wheres query ++ [cond]) = true) rows) as ->;
    [|done].
  rewrite list_filter_filter. apply list_filter_iff. intros r.
  rewrite forallb_app_true. simpl. rewrite andb_true_r. tauto.
Qed.

Lemma scoped_search query col instance rows :
  run (addWhere (eval_Eq [(col, VText instance)]) query) rows
  = run (addWhere (eval_Eq [(col, VText instance)]) query)
      (rows_of_instance (name col) instance rows).
Proof.
  rewrite run_addWhere_restrict. unfold rows_of_instance. do 2 f_equal.
  apply list_filter_iff. intros r. apply eval_Eq_instance.
Qed.

(** X24.  [SearchExecutions] is confined to the instance of the calling
    context: every row it selects belongs to that instance, and the rows of
    other instances do not influence the result, whatever the search
    queries, sorting, offset and limit. *)
Theorem SearchExecutions_confined ctx queries rows :
  (∀ row, row ∈ SearchExecutions_rows ctx queries rows →
     of_instance (ctx_InstanceID ctx) row) ∧
  SearchExecutions_rows ctx queries rows
  = SearchExecutions_rows ctx queries
      (rows_of_instance Projection.ExecutionInstanceIDCol (ctx_InstanceID ctx) rows).
Proof.
  split; [intros row; apply scoped_by_instance|].
  unfold SearchExecutions_rows. by rewrite scoped_search at 1.
Qed.

(** X25.  [SearchOrgs] is confined to the instance of the calling context
    in the same way. *)
Theorem SearchOrgs_confined orgs instanceIDCol ctx queries rows :
  (∀ row : Row, row ∈ SearchOrgs_rows orgs instanceIDCol ctx queries rows →
     row !! instanceIDCol = Some (VText (ctx_InstanceID ctx))) ∧
  SearchOrgs_rows orgs instanceIDCol ctx queries rows
  = SearchOrgs_rows orgs instanceIDCol ctx queries
      (rows_of_instance instanceIDCol (ctx_InstanceID ctx) rows).
Proof.
  split; [intros row; apply scoped_by_instance|].
  unfold SearchOrgs_rows. by rewrite scoped_search at 1.
Qed.

Lemma GetExecutionByID_rows_requested ctx rows id resourceOwner :
  GetExecutionByID_rows ctx rows id resourceOwner = filter (requested id resourceOwner) rows.
Proof.
  unfold GetExecutionByID_rows, run. simpl. rewrite drop_0.
  apply list_filter_iff. intros r. unfold eval_Eq, requested. simpl.
  rewrite !andb_true_r, !andb_true_iff, !ProjectionProperties.sql_eq_VText.
  destruct (r !! name ExecutionColumnID) as [[]|] eqn:Hid;
    destruct (r !! name ExecutionColumnResourceOwner) as [[]|] eqn:Howner;
    destruct (r !! name ExecutionColumnInstanceID) as [[]|] eqn:Hinst;
    simpl in Hid, Howner, Hinst; rewrite ?Hid, ?Howner, ?Hinst;
    rewrite ?bool_decide_eq_true; split; intros (? & ? & ?); simplify_eq/=; by split_and!.
Qed.

Lemma scanExecutionRow_fields (row : Row) execution :
  scanExecutionRow row = Some execution →
  row !! Projection.ExecutionIDCol = Some (VText (ID execution)) ∧
  row !! Projection.ExecutionResourceOwnerCol = Some (VText (ResourceOwner execution)).
Proof.
  unfold scanExecutionRow. intros H.
  repeat match type of H with
         | match ?x with _ => _ end = _ => destruct x eqn:?; try done
         end.
  by injection H as <-.
Qed.

(** X26.  The execution [GetExecutionByID] returns has the ID and the
    resource owner asked for, and is read from the first row of the table
    with that ID whose resource owner and instance ID are both the resource
    owner given. *)
Theorem GetExecutionByID_returns_requested ctx rows id resourceOwner execution :
  GetExecutionByID ctx rows id resourceOwner = inr execution →
  ID execution = id ∧ ResourceOwner execution = resourceOwner ∧
  ∃ row, head (filter (requested id resourceOwner) rows) = Some row ∧
         scanExecutionRow row = Some execution.
Proof.
  unfold GetExecutionByID, scanExecution. rewrite GetExecutionByID_rows_requested.
  destruct (filter _ rows) as [|row rest] eqn:Hrows; [done|].
  destruct (scanExecutionRow row) as [ex|] eqn:Hscan; [|done]. intros [= ->].
  assert (requested id resourceOwner row) as (Hid & Howner & _).
  { assert (row ∈ filter (requested id resourceOwner) rows) as Hin by (rewrite Hrows; by left).
    by apply list_elem_of_filter in Hin as [? _]. }
  apply scanExecutionRow_fields in Hscan as Hfields. destruct Hfields as [Hid' Howner'].
  rewrite Hid in Hid'. rewrite Howner in Howner'.
  injection Hid' as ->. injection Howner' as ->. split_and!; [done..|]. by exists row.
Qed.

(** X27.  [GetExecutionByID] answers NotFound exactly when no row of the
    table has the ID with resource owner and instance ID both equal to the
    resource owner given. *)
Theorem GetExecutionByID_not_found ctx rows id resourceOwner :
  (∃ err, GetExecutionByID ctx rows id resourceOwner = inl err ∧ kind_of err = Some NotFound)
  ↔ ∀ row, row ∈ rows → ¬ requested id resourceOwner row.
Proof.
  unfold GetExecutionByID, scanExecution. rewrite GetExecutionByID_rows_requested.
  destruct (filter _ rows) as [|row rest] eqn:Hrows.
  - split; [|by eexists]. intros _ row Hrow Hreq.
    assert (row ∈ filter (requested id resourceOwner) rows) as Hin
      by by apply list_elem_of_filter.
    rewrite Hrows in Hin. by apply elem_of_nil in Hin.
  - assert (row ∈ filter (requested id resourceOwner) rows) as Hin by (rewrite Hrows; by left).
    apply list_elem_of_filter in Hin as [Hreq Hin]. split.
    + destruct (scanExecutionRow row); intros (err & [= <-] & [=]).
    + intros Hnone. by destruct (Hnone row Hin).
Qed.

(** ** Reading what the execution projection wrote *)

Import Projection.

Lemma reduceExecutionSet_update e targets includes (row : Row) :
  set_columns
    (update_columns [ExecutionInstanceIDCol; ExecutionResourceOwnerCol; ExecutionIDCol]
       [NewCol ExecutionInstanceIDCol (VText (Aggregate_InstanceID (Aggregate e)));
        NewCol ExecutionResourceOwnerCol (VText (Aggregate_ResourceOwner (Aggregate e)));
        NewCol ExecutionIDCol (VText (Aggregate_ID (Aggregate e)));
        NewCol ExecutionCreationDateCol
          (OnlySetValueOnInsert ExecutionTable (VTimestamp (Handler.CreationDate e)));
        NewCol ExecutionChangeDateCol (VTimestamp (Handler.CreationDate e));
        NewCol ExecutionSequenceCol (VInt64 (Handler.Sequence e));
        NewCol ExecutionTargetsCol (VTextArray targets);
        NewCol ExecutionIncludesCol (VTextArray includes)]) row
  = <[ExecutionChangeDateCol := VTimestamp (Handler.CreationDate e)]>
      (<[ExecutionSequenceCol := VInt64 (Handler.Sequence e)]>
         (<[ExecutionTargetsCol := VTextArray targets]>
            (<[ExecutionIncludesCol := VTextArray includes]> row))).
Proof. reflexivity. Qed.

End QuerySelectionProperties.

(* ===================================================================== *)
(** * From the execution projection to the execution query *)
(* ===================================================================== *)

Module ProjectionQueryProperties.
Import Errors Handler Projection ProjectionProperties ProjectionInvariants
  ProjectionInvariantsProperties Query QuerySelection QuerySelectionProperties.

Lemma row_of_requested e (row : Row) :
  Aggregate_ResourceOwner (Aggregate e) = Aggregate_InstanceID (Aggregate e) →
  row_of executionProjection e row
  ↔ requested (Aggregate_ID (Aggregate e)) (Aggregate_ResourceOwner (Aggregate e)) row.
Proof.
  intros Howner. unfold row_of, requested. simpl. rewrite execution_key.
  unfold primary_key. simpl. rewrite <- Howner.
  split; [by intros [= -> -> ->]|by intros (-> & -> & ->)].
Qed.

Ltac lookup_columns :=
  unfold ExecutionIDCol, ExecutionCreationDateCol, ExecutionChangeDateCol,
    ExecutionResourceOwnerCol, ExecutionInstanceIDCol, ExecutionSequenceCol,
    ExecutionTargetsCol, ExecutionIncludesCol in *;
  repeat (rewrite lookup_insert_eq || rewrite lookup_insert_ne by done).

Lemma scan_updated e targets includes (row : Row) t :
  row !! ExecutionCreationDateCol = Some (VTimestamp t) →
  requested (Aggregate_ID (Aggregate e)) (Aggregate_ResourceOwner (Aggregate e)) row →
  scanExecutionRow
    (<[ExecutionChangeDateCol := VTimestamp (Handler.CreationDate e)]>
       (<[ExecutionSequenceCol := VInt64 (Handler.Sequence e)]>
          (<[ExecutionTargetsCol := VTextArray targets]>
             (<[ExecutionIncludesCol := VTextArray includes]> row))))
  = Some {| ID := Aggregate_ID (Aggregate e); Query.CreationDate := t;
            ChangeDate := Handler.CreationDate e;
            ResourceOwner := Aggregate_ResourceOwner (Aggregate e);
            Query.Sequence := Handler.Sequence e;
            Targets := targets; Includes := includes |}.
Proof.
  intros Hcreated (Hid & Howner & _). unfold scanExecutionRow. lookup_columns.
  by rewrite Hid, Hcreated, Howner.
Qed.

Lemma requested_updated id owner values (row : Row) :
  Forall (λ c, Column_Name c ∉ PrimaryKey executionProjection_Init) values →
  requested id owner (set_columns values row) ↔ requested id owner row.
Proof.
  intros Hvalues. unfold requested.
  rewrite !set_columns_lookup_notin; [done|..];
    intros (c & Hc & Hin)%list_elem_of_fmap; rewrite Forall_forall in Hvalues;
    apply (Hvalues c Hin); rewrite <- Hc; compute_done.
Qed.

(** X28.  What the execution projection writes, the execution query reads:
    after the statement of a set event of an execution owned by its
    instance, [GetExecutionByID] with the ID and owner of the event returns
    the execution with the targets, the includes, the sequence and, as
    change date, the creation date of the event. *)
Theorem set_execution_is_found ctx e targets includes written rows :
  reduceExecutionSet (exec_SetEvent e targets includes) = (Some written, None) →
  Aggregate_ResourceOwner (Aggregate e) = Aggregate_InstanceID (Aggregate e) →
  Forall created rows →
  ∃ execution,
    GetExecutionByID ctx (exec executionProjection_Init (Execute written) rows)
      (Aggregate_ID (Aggregate e)) (Aggregate_ResourceOwner (Aggregate e))
    = inr execution ∧
    ID execution = Aggregate_ID (Aggregate e) ∧
    ResourceOwner execution = Aggregate_ResourceOwner (Aggregate e) ∧
    ChangeDate execution = Handler.CreationDate e ∧
    Query.Sequence execution = Handler.Sequence e ∧
    Targets execution = targets ∧
    Includes execution = includes.
Proof.
  intros [= <-] Howner Hcreated. cbn [Execute NewUpsertStatement].
  pose (id := Aggregate_ID (Aggregate e)).
  pose (owner := Aggregate_ResourceOwner (Aggregate e)).
  match goal with |- context [Upsert ?cs ?vs] => set (conflict := cs); set (values := vs) end.
  set (rows' := exec executionProjection_Init (Upsert conflict values) rows).
  assert (requested id owner (set_columns values ∅)) as Hnew.
  { apply row_of_requested; [done|]. reflexivity. }
  assert (∀ row, row ∈ rows' → requested id owner row →
            ∃ t, scanExecutionRow row
                 = Some {| ID := id; Query.CreationDate := t;
                           ChangeDate := Handler.CreationDate e; ResourceOwner := owner;
                           Query.Sequence := Handler.Sequence e;
                           Targets := targets; Includes := includes |}) as Hscan.
  { intros row. unfold rows'. cbn [exec].
    change (Column_Name <$> conflict) with (PrimaryKey executionProjection_Init).
    destruct (existsb _ rows) eqn:Hex.
    - intros (r & -> & Hr)%list_elem_of_fmap.
      rewrite same_key_primary_key. case_bool_decide as Hkey.
      + intros Hreq%requested_updated; [|apply update_columns_off_key].
        rewrite Forall_forall in Hcreated. destruct (Hcreated r Hr) as [t Ht].
        exists t. unfold values. rewrite reduceExecutionSet_update. by apply scan_updated.
      + intros Hreq%row_of_requested; [|done]. by destruct Hkey.
    - intros [Hrow|Hrow%list_elem_of_singleton]%elem_of_app.
      + intros Hreq%row_of_requested; [|done].
        assert (existsb (same_key (PrimaryKey executionProjection_Init)
                  (set_columns values ∅)) rows = true) as Hex'; [|by rewrite Hex' in Hex].
        apply existsb_true. exists row. split; [done|].
        rewrite same_key_primary_key. by apply bool_decide_eq_true.
      + intros _. subst row. by exists (Handler.CreationDate e). }
  assert (∃ row, row ∈ rows' ∧ requested id owner row) as (row0 & Hrow0 & Hreq0).
  { unfold rows'. cbn [exec].
    change (Column_Name <$> conflict) with (PrimaryKey executionProjection_Init).
    destruct (existsb _ rows) eqn:Hex.
    - apply existsb_true in Hex as (r & Hr & Hkey).
      exists (set_columns (update_columns (PrimaryKey executionProjection_Init) values) r).
      split; [apply list_elem_of_fmap; exists r; by rewrite Hkey|].
      apply requested_updated; [apply update_columns_off_key|].
      apply row_of_requested; [done|].
      rewrite same_key_primary_key in Hkey. by apply bool_decide_eq_true in Hkey.
    - exists (set_columns values ∅). split; [|done]. apply elem_of_app. right. by left. }
  unfold GetExecutionByID, scanExecution. rewrite GetExecutionByID_rows_requested.
  destruct (filter (requested id owner) rows') as [|row rest] eqn:Hfilter.
  { assert (row0 ∈ filter (requested id owner) rows') as Hin by by apply list_elem_of_filter.
    rewrite Hfilter in Hin. by apply elem_of_nil in Hin. }
  assert (row ∈ filter (requested id owner) rows') as Hin by (rewrite Hfilter; by left).
  apply list_elem_of_filter in Hin as [Hreq Hin].
  destruct (Hscan row Hin Hreq) as [t Ht]. unfold id, owner in Hfilter.
  rewrite Hfilter, Ht.
  eexists. split; [done|]. done.
Qed.

End ProjectionQueryProperties.

(* ===================================================================== *)
(** * Pushing events that declare no unique constraint *)
(* ===================================================================== *)

Module IdpintentProperties.
Import Errors Eventstore EventstoreProperties EventstoreInvariants
  EventstoreInvariantsProperties Idpintent.

Section WithToLower.
Variable ToLower : string → string.

Lemma bind_nil {A B} (f : A → list B) l : (∀ x, x ∈ l → f x = []) → l ≫= f = [].
Proof.
  induction l as [|x l IH]; intros H; [done|]. simpl.
  rewrite (H x) by by left. apply IH. intros y Hy. apply H. by right.
Qed.

Lemma Push_no_constraints_table ctx env db commands :
  (∀ c, c ∈ commands → Command_UniqueConstraints c = []) →
  unique_constraints (Push ToLower ctx env db commands).2 = unique_constraints db.
Proof.
  intros Hnone.
  destruct (Push ToLower ctx env db commands) as [[evs err] db'] eqn:HPush.
  apply Push_cases in HPush as [[_ ->]|(_ & _ & _ & ucs & rows & tbl & Hloop & Huc & ->)];
    [done|].
  apply pushCommands_ok in Hloop as (new & _ & _ & -> & _).
  rewrite bind_nil in Huc by done. simpl in Huc. by injection Huc as <-.
Qed.

(** X8.  A batch whose commands declare no unique constraint leaves the
    unique constraints table as it is, whether Push succeeds or fails. *)
Theorem Push_without_unique_constraints ctx env db commands :
  (∀ c, c ∈ commands → Command_UniqueConstraints c = []) →
  unique_constraints (Push ToLower ctx env db commands).2 = unique_constraints db.
Proof. apply Push_no_constraints_table. Qed.

Section Intents.
Variable instanceEventTypePrefix : string.
Variables (BaseEvent CryptoValue : Type).
Variable BaseEvent_Aggregate : BaseEvent → Aggregate.
Variables BaseEvent_Creator BaseEvent_Type : BaseEvent → string.
Variable json_Marshal_event : IntentEvent BaseEvent CryptoValue → Eventstore.Payload.

(** X9.  Pushing events of the idpintent aggregate never touches the unique
    constraints table, and with a storage engine that answers with its own
    errors it fails with Internal errors only, never with AlreadyExists. *)
Theorem Push_intent_events ctx env db (intents : list (IntentEvent BaseEvent CryptoValue)) :
  let command := Command_of BaseEvent BaseEvent_Aggregate BaseEvent_Creator BaseEvent_Type
                   CryptoValue json_Marshal_event in
  let r := Push ToLower ctx env db (command <$> intents) in
  unique_constraints r.2 = unique_constraints db ∧
  (foreign_faults env → ∀ err, r.1.2 = Some err → kind_of err = Some Internal).
Proof.
  intros command.
  assert (∀ c, c ∈ command <$> intents → Command_UniqueConstraints c = []) as Hnone.
  { intros c (e & -> & _)%list_elem_of_fmap. by destruct e. }
  intros r. split; [by apply Push_no_constraints_table|].
  intros Hforeign err Herr. unfold r in Herr.
  destruct (Push ToLower ctx env db (command <$> intents)) as [[evs err'] db'] eqn:HPush.
  simpl in Herr. subst err'.
  pose proof (Push_error_internal_or_already_exists ToLower _ _ _ _ _ _ _ Hforeign HPush)
    as [_ [?|(_ & c & uc & _ & Hc & Huc & _)]]; [done|].
  rewrite (Hnone c Hc) in Huc. by apply elem_of_nil in Huc.
Qed.

End Intents.

End WithToLower.

End IdpintentProperties.

(* ===================================================================== *)
(** * Properties of the scopes of the Google provider form *)
(* ===================================================================== *)

Module ConsoleProperties.
Import Console.

Lemma indexOf_from_absent i l uri : uri ∉ l → indexOf_from i l uri = -1.
Proof.
  revert i. induction l as [|x l IH]; intros i; simpl; [done|].
  intros [Hne Hl]%not_elem_of_cons. rewrite bool_decide_eq_false_2 by done. by apply IH.
Qed.

Lemma indexOf_from_first i l1 l2 uri :
  uri ∉ l1 → indexOf_from i (l1 ++ uri :: l2) uri = i + Z.of_nat (length l1).
Proof.
  revert i. induction l1 as [|x l1 IH]; intros i; simpl.
  - intros _. rewrite bool_decide_eq_true_2 by done. lia.
  - intros [Hne Hl]%not_elem_of_cons. rewrite bool_decide_eq_false_2 by done.
    rewrite IH by done. lia.
Qed.

Lemma removeScope_first l1 l2 uri :
  uri ∉ l1 → removeScope uri (Some (l1 ++ uri :: l2)) = Some (l1 ++ l2).
Proof.
  intros Hl1. unfold removeScope, indexOf. rewrite indexOf_from_first by done.
  rewrite (proj2 (Z.leb_le _ _)) by lia. f_equal. unfold splice1.
  replace (Z.to_nat (0 + Z.of_nat (length l1))) with (length l1) by lia.
  rewrite take_app_length. f_equal.
  rewrite drop_app_ge by lia. by replace (length l1 + 1 - length l1)%nat with 1%nat by lia.
Qed.

Lemma removeScope_absent l uri : uri ∉ l → removeScope uri (Some l) = Some l.
Proof. intros Hl. unfold removeScope, indexOf. by rewrite indexOf_from_absent. Qed.

(** X29.  [removeScope] removes the first occurrence of the scope from the
    list and nothing else; a scope that is not in the list leaves the list
    as it is. *)
Theorem removeScope_removes_first_occurrence uri l :
  (uri ∉ l → removeScope uri (Some l) = Some l) ∧
  (∀ l1 l2, l = l1 ++ uri :: l2 → uri ∉ l1 → removeScope uri (Some l) = Some (l1 ++ l2)).
Proof.
  split; [apply removeScope_absent|]. intros l1 l2 -> Hl1. by apply removeScope_first.
Qed.

(** X30.  Removing a scope right after it was added gives back the list, as
    long as the scope entered is not blank and was not in the list before;
    the input element is cleared by the addition. *)
Theorem addScope_then_removeScope (trim : string → string) event l :
  trim (value event) ≠ EmptyString →
  trim (value event) ∉ l →
  (addScope trim event (Some l)).2 = (λ _, EmptyString) <$> inputElement event ∧
  removeScope (trim (value event)) (addScope trim event (Some l)).1 = Some l.
Proof.
  intros Hne Hl. unfold addScope. rewrite bool_decide_eq_true_2 by done. cbn [fst snd].
  split; [done|]. rewrite removeScope_first by done. by rewrite app_nil_r.
Qed.

End ConsoleProperties.

(* ===================================================================== *)
(** * The properties on sample data *)
(* ===================================================================== *)

Module EventstoreInvariantsSamples.
Import Errors Eventstore EventstoreProperties EventstoreInvariants
  EventstoreInvariantsProperties IdpintentProperties.
Import Sample Fixtures.


Example Push_lost_connection_events :
  (λ e : option Event, bool_decide (is_Some e)) <$>
    (Push ToLower ctx (env_failing_at 1) empty
       [UserCreated "u1" "org1" "Bob"; UserRenamed "u1" "org1"; UserRenamed "u1" "org1"]).1.1
  = [true; false; false].
Proof. vm_compute. reflexivity. Qed.

Lemma Push_resource_owner_never_changes_witness :
  let r := Push ToLower ctx env with_bob batch in
  pushed ToLower with_bob ∧
  Push ToLower ctx env with_bob batch = (r.1.1, r.1.2, r.2) ∧
  one_resource_owner (events r.2).
Proof.
  intros r.
  assert (pushed ToLower with_bob) as Hpushed
    by exact (pushed_Push ToLower ctx env empty _ (pushed_empty ToLower)).
  split_and!; [exact Hpushed|reflexivity|].
  exact (Push_resource_owner_never_changes ToLower ctx env with_bob batch r.1.1 r.1.2 r.2
           Hpushed eq_refl).
Defined.

Lemma Push_events_chained_witness :
  let r := Push ToLower ctx env with_bob batch in
  pushed ToLower with_bob ∧
  Push ToLower ctx env with_bob batch = (r.1.1, None, r.2) ∧
  ∃ e, r.1.1 !! 0%nat = Some (Some e) ∧ chained e.
Proof.
  intros r.
  assert (pushed ToLower with_bob) as Hpushed
    by exact (pushed_Push ToLower ctx env empty _ (pushed_empty ToLower)).
  assert (Push ToLower ctx env with_bob batch = (r.1.1, None, r.2)) as HPush
    by (vm_compute; reflexivity).
  assert (∃ e, r.1.1 !! 0%nat = Some (Some e)) as [e He] by (eexists; vm_compute; reflexivity).
  split_and!; [exact Hpushed|exact HPush|]. exists e. split; [exact He|].
  exact (Push_events_chained ToLower ctx env with_bob batch r.1.1 r.2 0%nat e Hpushed HPush He).
Defined.

Lemma Push_reads_own_instances_witness :
  let r1 := Push ToLower ctx env with_bob batch in
  let r2 := Push ToLower ctx env with_bob_and_others batch in
  same_instances ctx batch (events with_bob) (events with_bob_and_others) ∧
  unique_constraints with_bob = unique_constraints with_bob_and_others ∧
  r1.1 = r2.1 ∧ unique_constraints r1.2 = unique_constraints r2.2 ∧
  ∃ new, events r1.2 = events with_bob ++ new ∧
         events r2.2 = events with_bob_and_others ++ new.
Proof.
  intros r1 r2.
  assert (same_instances ctx batch (events with_bob) (events with_bob_and_others)) as Hsame.
  { intros c Hc. repeat (apply elem_of_cons in Hc as [->|Hc]);
      [vm_compute; reflexivity..|by apply elem_of_nil in Hc]. }
  split_and!; [exact Hsame|reflexivity|..];
    apply (Push_reads_own_instances ToLower ctx env with_bob with_bob_and_others batch
             Hsame eq_refl).
Defined.

Lemma Push_unique_table_invariant_witness :
  let r := Push ToLower ctx env with_bob batch in
  pushed ToLower with_bob ∧
  Push ToLower ctx env with_bob batch = (r.1.1, r.1.2, r.2) ∧
  unique_table_ok ToLower (unique_constraints r.2).
Proof.
  intros r.
  assert (pushed ToLower with_bob) as Hpushed
    by exact (pushed_Push ToLower ctx env empty _ (pushed_empty ToLower)).
  split_and!; [exact Hpushed|reflexivity|].
  exact (Push_unique_table_invariant ToLower ctx env with_bob batch r.1.1 r.1.2 r.2
           Hpushed eq_refl).
Defined.

Lemma handleUniqueConstraints_add_remove_witness :
  withdraws ToLower (username "Bob") (release "BOB") ∧
(lowercased_row ToLower ctx (username "Bob") ∉ @nil UniqueRow) ∧
  stmt_fault env 0 = None ∧ stmt_fault env 1 = None ∧
  handleUniqueConstraints ToLower ctx env 0 [] [username "Bob"; release "BOB"] = inr [].
Proof.
  assert (withdraws ToLower (username "Bob") (release "BOB")) as Hwithdraws
    by (split_and!; reflexivity).
  assert (lowercased_row ToLower ctx (username "Bob") ∉ @nil UniqueRow) as Hfree
    by apply not_elem_of_nil.
  split_and!; [exact Hwithdraws|exact Hfree|reflexivity|reflexivity|].
  exact (handleUniqueConstraints_add_remove ToLower ctx env 0 [] (username "Bob")
           (release "BOB") Hwithdraws Hfree eq_refl eq_refl).
Defined.

Lemma Push_without_unique_constraints_witness :
  let commands := [UserRenamed "u1" "org1"] in
  (∀ c, c ∈ commands → Command_UniqueConstraints c = []) ∧
  unique_constraints (Push ToLower ctx env with_bob commands).2 = unique_constraints with_bob.
Proof.
  intros commands.
  assert (∀ c, c ∈ commands → Command_UniqueConstraints c = []) as Hnone.
  { intros c Hc. apply list_elem_of_singleton in Hc. rewrite Hc. reflexivity. }
  split; [exact Hnone|].
  exact (Push_without_unique_constraints ToLower ctx env with_bob commands Hnone).
Defined.

End EventstoreInvariantsSamples.

Module InstanceSamples.
Import Errors SQLText Regexp Instance InstanceProperties.
Import Fixtures.

Example placeholder_two_filters :
  placeholder "SELECT id FROM eventstore.events WHERE instance_id = ? AND aggregate_type = ANY(?)"
  = "SELECT id FROM eventstore.events WHERE instance_id = $1 AND aggregate_type = ANY($2)".
Proof. vm_compute. reflexivity. Qed.

Lemma CreateInstance_creates_sequence_witness :
  scan_fault healthy = None ∧
  "i1" ≠ EmptyString ∧
  Forall alphanumeric (String.list_ascii_of_string "i1") ∧
  CreateInstance healthy "i1" = (["CREATE SEQUENCE eventstore.i_i1_seq"], None).
Proof.
  assert ("i1" ≠ EmptyString) as Hne by discriminate.
  assert (Forall alphanumeric (String.list_ascii_of_string "i1")) as Hall.
  { apply Forall_cons. split; [right; left; reflexivity|].
    apply Forall_cons. split; [left; reflexivity|]. by apply Forall_nil. }
  split_and!; [reflexivity|exact Hne|exact Hall|].
  exact (CreateInstance_creates_sequence healthy "i1" eq_refl Hne Hall).
Defined.

Lemma CreateInstance_unanchored_witness :
  scan_fault healthy = None ∧
  "i1" ≠ EmptyString ∧
  Forall alphanumeric (String.list_ascii_of_string "i1") ∧
  CreateInstance healthy "i1_seq CACHE 1; --"
  = (["CREATE SEQUENCE eventstore.i_i1_seq CACHE 1; --_seq"], None).
Proof.
  assert ("i1" ≠ EmptyString) as Hne by discriminate.
  assert (Forall alphanumeric (String.list_ascii_of_string "i1")) as Hall.
  { apply Forall_cons. split; [right; left; reflexivity|].
    apply Forall_cons. split; [left; reflexivity|]. by apply Forall_nil. }
  split_and!; [reflexivity|exact Hne|exact Hall|].
  exact (CreateInstance_unanchored healthy "i1" " CACHE 1; --" eq_refl Hne Hall).
Defined.

End InstanceSamples.

Module InitialiseSamples.
Import Errors Initialise InitialiseProperties.
Import Fixtures.

Lemma readStmts_first_missing_file_witness :
  let stmts : FS := {[ "sql/cockroach/01_user.sql" := "CREATE USER zitadel" ]} in
  let pre := [(createUserStmt, "01_user")] in
  let post := drop 2 statement_files in
  statement_files = pre ++ (databaseStmt, "02_database") :: post ∧
  (∀ v step, (v, step) ∈ pre → is_Some (stmts !! statement_path "cockroach" step)) ∧
  stmts !! statement_path "cockroach" "02_database" = None ∧
  (readStmts stmts "cockroach" unset).2 = Some (GoError "file does not exist") ∧
  (readStmts stmts "cockroach" unset).1 databaseStmt = EmptyString ∧
  ∀ v step, (v, step) ∈ post → (readStmts stmts "cockroach" unset).1 v = unset v.
Proof.
  intros stmts pre post.
  assert (∀ v step, (v, step) ∈ pre → is_Some (stmts !! statement_path "cockroach" step))
    as Hpre.
  { intros v step Hin. apply list_elem_of_singleton in Hin. injection Hin as -> ->.
    by eexists. }
  assert (stmts !! statement_path "cockroach" "02_database" = None) as Hfile by reflexivity.
  split_and!; [reflexivity|exact Hpre|exact Hfile|..];
    apply (readStmts_first_missing_file stmts "cockroach" unset pre databaseStmt
             "02_database" post eq_refl Hpre Hfile).
Defined.

Lemma Init_stops_at_first_error_witness :
  Init nat unit unset 0%nat () [migrate; migrate] = (2%nat, None) ∧
  refuse unset 2%nat () = (2%nat, Some (GoError "permission denied")) ∧
  Init nat unit unset 0%nat () ([migrate; migrate] ++ refuse :: [migrate])
  = (2%nat, Some (GoError "permission denied")).
Proof.
  split_and!; [reflexivity|reflexivity|].
  exact (Init_stops_at_first_error unset 0%nat () [migrate; migrate] [migrate] refuse
           2%nat 2%nat (GoError "permission denied") eq_refl eq_refl).
Defined.

Lemma initialise_error_sources_witness :
  let r := initialise nat unit (λ _, "cockroach") unreachable ∅ unset () [migrate] in
  r = (r.1.1, None, Some (GoError "connection refused")) ∧
  r.1.1 = (readStmts ∅ "cockroach" unset).1 ∧
  (unreachable () true = inl (GoError "connection refused") ∨
   ∃ step db0 db1, step ∈ [migrate] ∧
     step r.1.1 db0 () = (db1, Some (GoError "connection refused"))).
Proof.
  intros r. split; [reflexivity|].
  exact (initialise_error_sources (λ _, "cockroach") unreachable ∅ unset () [migrate]
           r.1.1 None (GoError "connection refused") eq_refl).
Defined.

End InitialiseSamples.

Module ProjectionInvariantsSamples.
Import Errors Repository Handler Projection ProjectionProperties ProjectionInvariants
  ProjectionInvariantsProperties.
Import Sample Fixtures.

Lemma statements_keep_keys_unique_witness :
  let event := session_AddedEvent a_session "u1" in
  let statement := default (NewDeleteStatement a_session []) (reduceSessionAdded event).1 in
  let rows := [session "s2" "u1" VNull] in
  sessionProjection ∈ projections ∧
  reduceSessionAdded ∈ registered sessionProjection ∧
  reduceSessionAdded event = (Some statement, None) ∧
  keys_unique sessionProjection_Init rows ∧
  keys_unique sessionProjection_Init (exec sessionProjection_Init (Execute statement) rows).
Proof.
  intros event statement rows.
  assert (sessionProjection ∈ projections) as Hp
    by apply list_elem_of_further, list_elem_of_here.
  assert (reduceSessionAdded ∈ registered sessionProjection) as Hr by apply list_elem_of_here.
  assert (keys_unique sessionProjection_Init rows) as Hrows by apply NoDup_singleton.
  split_and!; [exact Hp|exact Hr|reflexivity|exact Hrows|].
  exact (statements_keep_keys_unique sessionProjection reduceSessionAdded event statement rows
           Hp Hr eq_refl Hrows).
Defined.

Lemma aggregate_statements_frame_witness :
  let event := session_TerminateEvent a_session in
  let statement := default (NewDeleteStatement a_session []) (reduceSessionTerminated event).1 in
  let rows := [session "s1" "u1" VNull; session "s2" "u1" VNull] in
  sessionProjection ∈ projections ∧
  session_AggregateType ∈ [exec_AggregateType; session_AggregateType] ∧
  reduceSessionTerminated ∈ reducers_of sessionProjection session_AggregateType ∧
  reduceSessionTerminated event = (Some statement, None) ∧
  other_rows sessionProjection (Statement_Event statement)
    (exec sessionProjection_Init (Execute statement) rows)
  = other_rows sessionProjection (Statement_Event statement) rows.
Proof.
  intros event statement rows.
  assert (sessionProjection ∈ projections) as Hp
    by apply list_elem_of_further, list_elem_of_here.
  assert (session_AggregateType ∈ [exec_AggregateType; session_AggregateType]) as Ha
    by apply list_elem_of_further, list_elem_of_here.
  assert (reduceSessionTerminated ∈ reducers_of sessionProjection session_AggregateType) as Hr
    by (do 8 apply list_elem_of_further; apply list_elem_of_here).
  split_and!; [exact Hp|exact Ha|exact Hr|reflexivity|].
  exact (aggregate_statements_frame sessionProjection session_AggregateType
           reduceSessionTerminated event statement rows Hp Ha Hr eq_refl).
Defined.

Lemma session_added_then_terminated_witness :
  let added := default (NewDeleteStatement a_session [])
                 (reduceSessionAdded (session_AddedEvent a_session "u1")).1 in
  let terminated := default (NewDeleteStatement a_session [])
                      (reduceSessionTerminated (session_TerminateEvent a_session)).1 in
  let rows := [session "s2" "u1" VNull] in
  reduceSessionAdded (session_AddedEvent a_session "u1") = (Some added, None) ∧
  reduceSessionTerminated (session_TerminateEvent a_session) = (Some terminated, None) ∧
  Aggregate a_session = Aggregate a_session ∧
  exec sessionProjection_Init (Execute terminated)
    (exec sessionProjection_Init (Execute added) rows)
  = other_rows sessionProjection a_session rows.
Proof.
  intros added terminated rows. split_and!; [reflexivity..|].
  exact (session_added_then_terminated a_session "u1" a_session added terminated rows
           eq_refl eq_refl eq_refl).
Defined.

Lemma execution_set_then_removed_witness :
  let written := default (NewDeleteStatement an_execution [])
                   (reduceExecutionSet (exec_SetEvent an_execution ["target"] [])).1 in
  let removed := default (NewDeleteStatement an_execution [])
                   (reduceExecutionRemoved (exec_RemovedEvent an_execution)).1 in
  reduceExecutionSet (exec_SetEvent an_execution ["target"] []) = (Some written, None) ∧
  reduceExecutionRemoved (exec_RemovedEvent an_execution) = (Some removed, None) ∧
  Aggregate an_execution = Aggregate an_execution ∧
  exec executionProjection_Init (Execute removed)
    (exec executionProjection_Init (Execute written) two_tenants)
  = other_rows executionProjection an_execution two_tenants.
Proof.
  intros written removed. split_and!; [reflexivity..|].
  exact (execution_set_then_removed an_execution ["target"] [] an_execution written removed
           two_tenants eq_refl eq_refl eq_refl).
Defined.

End ProjectionInvariantsSamples.

Module QuerySelectionSamples.
Import Errors Handler Query QueryProperties QuerySelection QuerySelectionProperties
  ProjectionQueryProperties.
Import Sample Fixtures.

Lemma GetExecutionByID_returns_requested_witness :
  let ctx := {| ctx_InstanceID := "i2" |} in
  let execution :=
    {| ID := "request"; CreationDate := 20; ChangeDate := 20; ResourceOwner := "i2";
       Sequence := 1; Targets := ["target"]; Includes := [] |} in
  GetExecutionByID ctx two_tenants "request" "i2" = inr execution ∧
  ID execution = "request" ∧ ResourceOwner execution = "i2" ∧
  ∃ row, head (filter (requested "request" "i2") two_tenants) = Some row ∧
         scanExecutionRow row = Some execution.
Proof.
  intros ctx execution. split; [reflexivity|].
  exact (GetExecutionByID_returns_requested ctx two_tenants "request" "i2" execution eq_refl).
Defined.

Lemma set_execution_is_found_witness :
  let ctx := {| ctx_InstanceID := "i1" |} in
  let written := default (NewDeleteStatement an_execution [])
                   (Projection.reduceExecutionSet
                      (Projection.exec_SetEvent an_execution ["t1"; "t2"] ["request"])).1 in
  Projection.reduceExecutionSet (Projection.exec_SetEvent an_execution ["t1"; "t2"] ["request"])
  = (Some written, None) ∧
  Eventstore.Aggregate_ResourceOwner (Aggregate an_execution)
  = Eventstore.Aggregate_InstanceID (Aggregate an_execution) ∧
  Forall created two_tenants ∧
  ∃ execution,
    GetExecutionByID ctx
      (exec Projection.executionProjection_Init (Execute written) two_tenants)
      "request" "i1" = inr execution ∧
    ID execution = "request" ∧ ResourceOwner execution = "i1" ∧
    ChangeDate execution = 100 ∧ Query.Sequence execution = 1 ∧
    Targets execution = ["t1"; "t2"] ∧ Includes execution = ["request"].
Proof.
  intros ctx written.
  assert (Forall created two_tenants) as Hcreated.
  { apply Forall_cons. split; [by exists 10|].
    apply Forall_cons. split; [by exists 20|]. by apply Forall_nil. }
  split_and!; [reflexivity|reflexivity|exact Hcreated|].
  exact (set_execution_is_found ctx an_execution ["t1"; "t2"] ["request"] written two_tenants
           eq_refl eq_refl Hcreated).
Defined.

End QuerySelectionSamples.

Module ConsoleSamples.
Import Console ConsoleProperties.
Import Fixtures.

Lemma addScope_then_removeScope_witness :
  trim (value chip) ≠ EmptyString ∧
  (trim (value chip) ∉ ["profile"; "email"]) ∧
  (addScope trim chip (Some ["profile"; "email"])).2
  = (λ _, EmptyString) <$> inputElement chip ∧
  removeScope (trim (value chip)) (addScope trim chip (Some ["profile"; "email"])).1
  = Some ["profile"; "email"].
Proof.
  assert (trim (value chip) ≠ EmptyString) as Hne by (vm_compute; discriminate).
  assert (trim (value chip) ∉ ["profile"; "email"]) as Hfresh.
  { apply (bool_decide_unpack _). vm_compute. reflexivity. }
  split_and!; [exact Hne|exact Hfresh|..];
    apply (addScope_then_removeScope trim chip ["profile"; "email"] Hne Hfresh).
Defined.

End ConsoleSamples.
